(** * Diagonal Sudoku solver (solution.py): model and verified properties

    The Python module is embedded function by function.  A board is a
    Python [dict] from box names to candidate strings; it is modelled as an
    association list in insertion order, because [eliminate] and [search]
    iterate over [values.items()].  Failing subscripts raise [KeyError];
    the global list [assignments] is threaded as state. *)

From Stdlib Require Import String Ascii List Arith Bool Lia Permutation Sorted.
Import ListNotations.
Open Scope string_scope.
Open Scope list_scope.

Set Implicit Arguments.

(** ** Strings as Python uses them *)

Definition chars (s : string) : list ascii := list_ascii_of_string s.
Definition str (c : ascii) : string := String c EmptyString.
Definition join (l : list ascii) : string := string_of_list_ascii l.

(** [x in l] for a list of strings. *)
Definition mem (x : string) (l : list string) : bool :=
  existsb (String.eqb x) l.

(** [c in s] for a one-character string [c]. *)
Definition has_char (c : ascii) (s : string) : bool :=
  existsb (Ascii.eqb c) (chars s).

(** ** Topology: lines 4-21 *)

(** [cross(A, B)]: [[a + b for a in A for b in B]]. *)
Definition cross (A B : string) : list string :=
  flat_map (fun a => map (fun b => (str a ++ str b)%string) (chars B)) (chars A).

Definition rows : string := "ABCDEFGHI".
Definition cols : string := "123456789".
Definition boxes : list string := cross rows cols.

Definition row_units : list (list string) :=
  map (fun r => cross (str r) cols) (chars rows).
Definition column_units : list (list string) :=
  map (fun c => cross rows (str c)) (chars cols).
Definition square_units : list (list string) :=
  flat_map (fun rs => map (fun cs => cross rs cs) ["123"; "456"; "789"])
           ["ABC"; "DEF"; "GHI"].
Definition diagonal_units : list (list string) :=
  map (fun z => map (fun ab => (str (fst ab) ++ str (snd ab))%string) z)
      [combine (chars rows) (chars cols);
       combine (chars rows) (rev (chars cols))].
Definition unitlist : list (list string) :=
  row_units ++ column_units ++ square_units ++ diagonal_units.

(** A Python [set] built from a list: the distinct elements.  CPython
    iterates a set of strings in hash order, which is not fixed from one
    process to the next; the model iterates in order of first occurrence. *)
Fixpoint to_set (l : list string) : list string :=
  match l with
  | [] => []
  | x :: l' => x :: filter (fun y => negb (String.eqb x y)) (to_set l')
  end.

(** [a - b] on sets. *)
Definition set_diff (a b : list string) : list string :=
  filter (fun x => negb (mem x b)) a.

(** [units[s]]; [None] is the [KeyError] of a name that is not a box. *)
Definition units (s : string) : option (list (list string)) :=
  if mem s boxes then Some (filter (fun u => mem s u) unitlist) else None.

(** [peers[s]]. *)
Definition peers (s : string) : option (list string) :=
  match units s with
  | Some us => Some (set_diff (to_set (concat us)) [s])
  | None => None
  end.

Definition peer_of (a b : string) : Prop :=
  exists ps, peers a = Some ps /\ In b ps.

Definition peer_ofb (a b : string) : bool :=
  match peers a with
  | Some ps => mem b ps
  | None => false
  end.

(** ** Boards, exceptions and the assignment trace *)

(** A Python [dict] of strings, in insertion order. *)
Definition dict : Type := list (string * string).

Definition keys (d : dict) : list string := map fst d.

Fixpoint get (d : dict) (k : string) : option string :=
  match d with
  | [] => None
  | (k', v) :: d' => if String.eqb k k' then Some v else get d' k
  end.

(** [d[k] = v]: overwrite in place, or append a new key. *)
Fixpoint set (d : dict) (k v : string) : dict :=
  match d with
  | [] => [(k, v)]
  | (k', v') :: d' =>
      if String.eqb k k' then (k', v) :: d' else (k', v') :: set d' k v
  end.

(** What a call can end in: a value, an uncaught [KeyError], or the
    model's recursion budget running out. *)
Inductive outcome (A : Type) : Type :=
| Ok (a : A)
| KeyError (k : string)
| OutOfFuel.
Arguments Ok {A} a.
Arguments KeyError {A} k.
Arguments OutOfFuel {A}.

(** The module-level list [assignments]. *)
Definition trace : Type := list dict.

Definition M (A : Type) : Type := trace -> outcome A * trace.

Definition ret {A} (a : A) : M A := fun t => (Ok a, t).

Definition bind {A B} (m : M A) (f : A -> M B) : M B :=
  fun t =>
    match m t with
    | (Ok a, t') => f a t'
    | (KeyError k, t') => (KeyError k, t')
    | (OutOfFuel, t') => (OutOfFuel, t')
    end.

Notation "x <- m ;; f" := (bind m (fun x => f))
  (at level 61, m at next level, right associativity).

Definition raise_KeyError {A} (k : string) : M A := fun t => (KeyError k, t).
Definition out_of_fuel {A} : M A := fun t => (OutOfFuel, t).

(** [d[k]] as an expression. *)
Definition lookup (d : dict) (k : string) : M string :=
  match get d k with
  | Some v => ret v
  | None => raise_KeyError k
  end.

(** [peers[box]] as an expression. *)
Definition peers_of (box : string) : M (list string) :=
  match peers box with
  | Some ps => ret ps
  | None => raise_KeyError box
  end.

(** ** assign_value: lines 27-35 *)

Definition assign_value (values : dict) (box value : string) : M dict :=
  fun t =>
    let values := set values box value in
    if (String.length value =? 1)%nat then (Ok values, t ++ [values])
    else (Ok values, t).

(** ** eliminate: lines 130-148 *)

(** [s.replace(c, '')] for a one-character [c]. *)
Definition remove_char (c : ascii) (s : string) : string :=
  join (filter (fun x => negb (Ascii.eqb x c)) (chars s)).

(** The loop over [peers[box]]. *)
Fixpoint eliminate_peers (grid : dict) (c : ascii) (ps : list string) : M dict :=
  match ps with
  | [] => ret grid
  | peer :: ps' =>
      v <- lookup grid peer ;;
      grid <- assign_value grid peer (remove_char c v) ;;
      eliminate_peers grid c ps'
  end.

(** The loop over [grid.items()]: the keys are met in insertion order and
    each value is read when its key is reached, so a box emptied or fixed
    earlier in the pass is seen as such. *)
Fixpoint eliminate_boxes (grid : dict) (ks : list string) : M dict :=
  match ks with
  | [] => ret grid
  | box :: ks' =>
      choices <- lookup grid box ;;
      match chars choices with
      | [c] =>
          ps <- peers_of box ;;
          grid <- eliminate_peers grid c ps ;;
          eliminate_boxes grid ks'
      | _ => eliminate_boxes grid ks'
      end
  end.

Definition eliminate (values : dict) : M dict :=
  eliminate_boxes values (keys values).

(** ** only_choice: lines 151-167 *)

Definition all_digits : string := "123456789".

(** [[box for box in unit if digit in values[box]]]. *)
Fixpoint boxes_with (values : dict) (digit : ascii) (unit : list string)
  : M (list string) :=
  match unit with
  | [] => ret []
  | box :: unit' =>
      v <- lookup values box ;;
      rest <- boxes_with values digit unit' ;;
      ret (if has_char digit v then box :: rest else rest)
  end.

Fixpoint only_choice_digits (values result : dict) (unit : list string)
  (ds : list ascii) : M dict :=
  match ds with
  | [] => ret result
  | digit :: ds' =>
      boxes_with_digit <- boxes_with values digit unit ;;
      match boxes_with_digit with
      | [box] =>
          result <- assign_value result box (str digit) ;;
          only_choice_digits values result unit ds'
      | _ => only_choice_digits values result unit ds'
      end
  end.

Fixpoint only_choice_units (values result : dict) (us : list (list string))
  : M dict :=
  match us with
  | [] => ret result
  | unit :: us' =>
      result <- only_choice_digits values result unit (chars all_digits) ;;
      only_choice_units values result us'
  end.

Definition only_choice (values : dict) : M dict :=
  only_choice_units values values unitlist.

(** ** reduce_puzzle: lines 170-188 *)

(** [len([box for box, choices in values.items() if len(choices) == n])]. *)
Definition count_len (n : nat) (values : dict) : nat :=
  length (filter (fun bc => (String.length (snd bc) =? n)%nat) values).

(** One unit of [fuel] pays for one run of the loop body. *)
Fixpoint reduce_puzzle_loop (fuel : nat) (values : dict) : M dict :=
  match fuel with
  | 0 => out_of_fuel
  | S fuel' =>
      let solved_values_before := count_len 1 values in
      values <- eliminate values ;;
      values <- only_choice values ;;
      let solved_values_after := count_len 1 values in
      let stalled := (solved_values_before =? solved_values_after)%nat in
      if negb (count_len 0 values =? 0)%nat then ret []
      else if stalled then ret values
      else reduce_puzzle_loop fuel' values
  end.

(** The loop is given one run more than there are entries; that this is
    always enough is [reduce_puzzle_fuelled]. *)
Definition reduce_puzzle (values : dict) : M dict :=
  reduce_puzzle_loop (S (length values)) values.

(** ** search: lines 191-221 *)

(** [min(l, key=key)]: the first element with the least key. *)
Fixpoint min_from (key : string -> M nat) (best : string) (kbest : nat)
  (l : list string) : M string :=
  match l with
  | [] => ret best
  | x :: l' =>
      kx <- key x ;;
      if (kx <? kbest)%nat then min_from key x kx l' else min_from key best kbest l'
  end.

Definition num_choices (values : dict) (square : string) : M nat :=
  v <- lookup values square ;; ret (String.length v).

(** The loop over the digits of the chosen square; [rec] is the
    recursive call.  [values] is the one board the loop keeps writing to. *)
Fixpoint search_digits (rec : dict -> M dict) (values : dict)
  (square_fewest : string) (ds : list ascii) : M dict :=
  match ds with
  | [] => ret []
  | digit :: ds' =>
      values <- assign_value values square_fewest (str digit) ;;
      solution <- rec values ;;
      match solution with
      | _ :: _ => ret solution
      | [] => search_digits rec values square_fewest ds'
      end
  end.

(** One unit of [fuel] pays for one level of recursion. *)
Fixpoint search (fuel : nat) (values : dict) : M dict :=
  match fuel with
  | 0 => out_of_fuel
  | S fuel' =>
      values <- reduce_puzzle values ;;
      match values with
      | [] => ret []
      | _ :: _ =>
          let squares_not_solved :=
            filter (fun sc => (1 <? String.length (snd sc))%nat) values in
          match keys squares_not_solved with
          | [] => ret values
          | s0 :: rest =>
              k0 <- num_choices values s0 ;;
              square_fewest <- min_from (num_choices values) s0 k0 rest ;;
              ds <- lookup values square_fewest ;;
              search_digits (search fuel') values square_fewest (chars ds)
          end
      end
  end.

(** ** grid_values and solve: lines 82-112 *)

Definition grid_values (grid : string) : dict :=
  map (fun bv => (fst bv,
                  if Ascii.eqb (snd bv) "."%char then all_digits
                  else str (snd bv)))
      (combine boxes (chars grid)).

Definition solve (fuel : nat) (grid : string) : M dict :=
  let grid := grid_values grid in
  grid <- reduce_puzzle grid ;;
  search fuel grid.

(** ** naked_twins: lines 38-79 *)

(** [sorted(l)] on characters: by code point. *)
Fixpoint insert_char (c : ascii) (l : list ascii) : list ascii :=
  match l with
  | [] => [c]
  | x :: l' =>
      if (nat_of_ascii c <=? nat_of_ascii x)%nat then c :: l
      else x :: insert_char c l'
  end.

Fixpoint sort_chars (l : list ascii) : list ascii :=
  match l with
  | [] => []
  | c :: l' => insert_char c (sort_chars l')
  end.

(** [canonicalize(choices)]: [''.join(sorted(choices))]. *)
Definition canonicalize (choices : string) : string :=
  join (sort_chars (chars choices)).

(** [set(s)] for a string: its distinct characters. *)
Definition char_set (s : string) : list ascii := nodup ascii_dec (chars s).

(** [''.join(sorted(set(v) - set(choices)))]. *)
Definition without (v choices : string) : string :=
  join (sort_chars
          (filter (fun c => negb (has_char c choices)) (char_set v))).

(** [choices_to_boxes[choices].add(box)] on a [defaultdict(set)]. *)
Fixpoint add_box (ctb : list (string * list string)) (choices box : string)
  : list (string * list string) :=
  match ctb with
  | [] => [(choices, [box])]
  | (c, bs) :: ctb' =>
      if String.eqb choices c
      then (c, if mem box bs then bs else bs ++ [box]) :: ctb'
      else (c, bs) :: add_box ctb' choices box
  end.

(** The first loop over a unit: boxes with two candidates, grouped by
    their canonical candidates. *)
Fixpoint group_boxes (values : dict) (ctb : list (string * list string))
  (unit : list string) : M (list (string * list string)) :=
  match unit with
  | [] => ret ctb
  | box :: unit' =>
      v <- lookup values box ;;
      let choices := canonicalize v in
      if negb (String.length choices =? 2)%nat
      then group_boxes values ctb unit'
      else group_boxes values (add_box ctb choices box) unit'
  end.

(** How a loop body ends: it falls through to the next round with the
    board as it is now, or the function returns. *)
Inductive flow : Type :=
| Continue (values : dict)
| Return (result : dict).

(** The loop over [peers_in_unit]. *)
Fixpoint twins_peers (values : dict) (choices : string) (ps : list string)
  : M flow :=
  match ps with
  | [] => ret (Continue values)
  | peer :: ps' =>
      v <- lookup values peer ;;
      let new_choices := without v choices in
      match new_choices with
      | EmptyString => ret (Return [])
      | String _ _ =>
          values <- assign_value values peer new_choices ;;
          twins_peers values choices ps'
      end
  end.

(** The loop over [choices_to_boxes.items()].  [peers_in_unit] is a
    Python set, walked here in the order of the unit.  The order decides
    which snapshots are recorded before a return; it does not decide
    whether the loop returns nor the board it leaves
    ([twins_peers_any_order]). *)
Fixpoint twins_groups (values : dict) (unit : list string)
  (groups : list (string * list string)) : M flow :=
  match groups with
  | [] => ret (Continue values)
  | (choices, bs) :: groups' =>
      if (length bs <? 2)%nat then twins_groups values unit groups'
      else if (2 <? length bs)%nat then ret (Return [])
      else
        let peers_in_unit := set_diff (to_set unit) (to_set bs) in
        r <- twins_peers values choices peers_in_unit ;;
        match r with
        | Return d => ret (Return d)
        | Continue values => twins_groups values unit groups'
        end
  end.

(** The body of the loop over [unitlist]. *)
Definition twins_unit (values : dict) (unit : list string) : M flow :=
  choices_to_boxes <- group_boxes values [] unit ;;
  twins_groups values unit choices_to_boxes.

Fixpoint twins_units (values : dict) (us : list (list string)) : M flow :=
  match us with
  | [] => ret (Continue values)
  | unit :: us' =>
      r <- twins_unit values unit ;;
      match r with
      | Return d => ret (Return d)
      | Continue values => twins_units values us'
      end
  end.

Definition naked_twins (values : dict) : M dict :=
  r <- twins_units values unitlist ;;
  match r with
  | Return d => ret d
  | Continue values => ret values
  end.

(** ** The same functions over a store of [dict] objects

    Above, a board is a value and [values.copy()] is the identity.  Here
    a board is a reference into a store, [values[box] = value] writes to
    the object referred to, and [values.copy()] and [{}] allocate.  This
    is the model in which one can ask whether a call changes the object
    its caller holds. *)

Module Heap.

(** A reference to a [dict] object: its index in the store. *)
Definition ref : Type := nat.

(** The [dict] objects allocated so far, and the list [assignments].
    The copy that [assign_value] appends to [assignments] is referred to
    from that list alone, so the list holds its content. *)
Record state : Type := State { objects : list dict; assignments : trace }.

Definition M (A : Type) : Type := state -> outcome A * state.

Definition ret {A} (a : A) : M A := fun s => (Ok a, s).

Definition bind {A B} (m : M A) (f : A -> M B) : M B :=
  fun s =>
    match m s with
    | (Ok a, s') => f a s'
    | (KeyError k, s') => (KeyError k, s')
    | (OutOfFuel, s') => (OutOfFuel, s')
    end.

#[warnings="-notation-overridden"]
Notation "x <- m ;; f" := (bind m (fun x => f))
  (at level 61, m at next level, right associativity).
Notation "m >> f" := (bind m (fun _ => f))
  (at level 61, right associativity).

Definition raise_KeyError {A} (k : string) : M A := fun s => (KeyError k, s).
Definition out_of_fuel {A} : M A := fun s => (OutOfFuel, s).

(** The object a reference points to.  References come from [alloc] and
    [copy] only, so the default is never read. *)
Definition deref (s : state) (r : ref) : dict := nth r (objects s) [].

Fixpoint update (l : list dict) (r : ref) (d : dict) : list dict :=
  match l, r with
  | [], _ => []
  | _ :: l', 0 => d :: l'
  | x :: l', S r' => x :: update l' r' d
  end.

(** A new object. *)
Definition alloc (d : dict) : M ref :=
  fun s => (Ok (length (objects s)),
            State (objects s ++ [d]) (assignments s)).

(** [values.copy()]. *)
Definition copy (values : ref) : M ref := fun s => alloc (deref s values) s.

(** The content of an object: [values.items()], [len], [not values]. *)
Definition read (values : ref) : M dict := fun s => (Ok (deref s values), s).

(** [values[k]] as an expression. *)
Definition lookup (values : ref) (k : string) : M string :=
  fun s =>
    match get (deref s values) k with
    | Some v => (Ok v, s)
    | None => (KeyError k, s)
    end.

(** [values[k] = v]. *)
Definition store (values : ref) (k v : string) : M unit :=
  fun s => (Ok tt,
            State (update (objects s) values (set (deref s values) k v))
                  (assignments s)).

(** [assignments.append(d)]. *)
Definition append_assignment (d : dict) : M unit :=
  fun s => (Ok tt, State (objects s) (assignments s ++ [d])).

Definition peers_of (box : string) : M (list string) :=
  match peers box with
  | Some ps => ret ps
  | None => raise_KeyError box
  end.

(** [assign_value]: lines 27-35.  It writes to the object it is given
    and returns the same reference. *)
Definition assign_value (values : ref) (box value : string) : M ref :=
  store values box value >>
  if (String.length value =? 1)%nat
  then d <- read values ;; append_assignment d >> ret values
  else ret values.

(** [eliminate]: lines 130-148. *)
Fixpoint eliminate_peers (grid : ref) (c : ascii) (ps : list string) : M unit :=
  match ps with
  | [] => ret tt
  | peer :: ps' =>
      v <- lookup grid peer ;;
      assign_value grid peer (remove_char c v) >>
      eliminate_peers grid c ps'
  end.

Fixpoint eliminate_boxes (grid : ref) (ks : list string) : M unit :=
  match ks with
  | [] => ret tt
  | box :: ks' =>
      choices <- lookup grid box ;;
      match chars choices with
      | [c] =>
          ps <- peers_of box ;;
          eliminate_peers grid c ps >>
          eliminate_boxes grid ks'
      | _ => eliminate_boxes grid ks'
      end
  end.

Definition eliminate (values : ref) : M ref :=
  grid <- copy values ;;
  d <- read grid ;;
  eliminate_boxes grid (keys d) >>
  ret grid.

(** [only_choice]: lines 151-167.  [values] is read, [result] is
    written. *)
Fixpoint boxes_with (values : ref) (digit : ascii) (unit : list string)
  : M (list string) :=
  match unit with
  | [] => ret []
  | box :: unit' =>
      v <- lookup values box ;;
      rest <- boxes_with values digit unit' ;;
      ret (if has_char digit v then box :: rest else rest)
  end.

Fixpoint only_choice_digits (values result : ref) (unit : list string)
  (ds : list ascii) : M Datatypes.unit :=
  match ds with
  | [] => ret tt
  | digit :: ds' =>
      boxes_with_digit <- boxes_with values digit unit ;;
      match boxes_with_digit with
      | [box] =>
          assign_value result box (str digit) >>
          only_choice_digits values result unit ds'
      | _ => only_choice_digits values result unit ds'
      end
  end.

Fixpoint only_choice_units (values result : ref) (us : list (list string))
  : M unit :=
  match us with
  | [] => ret tt
  | unit :: us' =>
      only_choice_digits values result unit (chars all_digits) >>
      only_choice_units values result us'
  end.

Definition only_choice (values : ref) : M ref :=
  result <- copy values ;;
  only_choice_units values result unitlist >>
  ret result.

(** [reduce_puzzle]: lines 170-188. *)
Fixpoint reduce_puzzle_loop (fuel : nat) (values : ref) : M ref :=
  match fuel with
  | 0 => out_of_fuel
  | S fuel' =>
      before <- read values ;;
      let solved_values_before := count_len 1 before in
      values <- eliminate values ;;
      values <- only_choice values ;;
      after <- read values ;;
      let solved_values_after := count_len 1 after in
      let stalled := (solved_values_before =? solved_values_after)%nat in
      if negb (count_len 0 after =? 0)%nat then alloc []
      else if stalled then ret values
      else reduce_puzzle_loop fuel' values
  end.

Definition reduce_puzzle (values : ref) : M ref :=
  d <- read values ;;
  reduce_puzzle_loop (S (length d)) values.

(** [search]: lines 191-221. *)
Fixpoint min_from (key : string -> M nat) (best : string) (kbest : nat)
  (l : list string) : M string :=
  match l with
  | [] => ret best
  | x :: l' =>
      kx <- key x ;;
      if (kx <? kbest)%nat then min_from key x kx l' else min_from key best kbest l'
  end.

Definition num_choices (values : ref) (square : string) : M nat :=
  v <- lookup values square ;; ret (String.length v).

Fixpoint search_digits (rec : ref -> M ref) (values : ref)
  (square_fewest : string) (ds : list ascii) : M ref :=
  match ds with
  | [] => alloc []
  | digit :: ds' =>
      assign_value values square_fewest (str digit) >>
      solution <- rec values ;;
      found <- read solution ;;
      match found with
      | _ :: _ => ret solution
      | [] => search_digits rec values square_fewest ds'
      end
  end.

Fixpoint search (fuel : nat) (values : ref) : M ref :=
  match fuel with
  | 0 => out_of_fuel
  | S fuel' =>
      values <- copy values ;;
      values <- reduce_puzzle values ;;
      d <- read values ;;
      match d with
      | [] => alloc []
      | _ :: _ =>
          let squares_not_solved :=
            filter (fun sc => (1 <? String.length (snd sc))%nat) d in
          match keys squares_not_solved with
          | [] => ret values
          | s0 :: rest =>
              k0 <- num_choices values s0 ;;
              square_fewest <- min_from (num_choices values) s0 k0 rest ;;
              ds <- lookup values square_fewest ;;
              search_digits (search fuel') values square_fewest (chars ds)
          end
      end
  end.

(** [solve]: lines 82-96. *)
Definition solve (fuel : nat) (grid : string) : M ref :=
  grid <- alloc (grid_values grid) ;;
  grid <- reduce_puzzle grid ;;
  search fuel grid.

(** [naked_twins]: lines 38-79. *)
Fixpoint group_boxes (values : ref) (ctb : list (string * list string))
  (unit : list string) : M (list (string * list string)) :=
  match unit with
  | [] => ret ctb
  | box :: unit' =>
      v <- lookup values box ;;
      let choices := canonicalize v in
      if negb (String.length choices =? 2)%nat
      then group_boxes values ctb unit'
      else group_boxes values (add_box ctb choices box) unit'
  end.

(** How a loop body ends: it falls through, or the function returns. *)
Inductive flow : Type :=
| Continue
| Return (result : ref).

Fixpoint twins_peers (values : ref) (choices : string) (ps : list string)
  : M flow :=
  match ps with
  | [] => ret Continue
  | peer :: ps' =>
      v <- lookup values peer ;;
      let new_choices := without v choices in
      match new_choices with
      | EmptyString => r <- alloc [] ;; ret (Return r)
      | String _ _ =>
          assign_value values peer new_choices >>
          twins_peers values choices ps'
      end
  end.

Fixpoint twins_groups (values : ref) (unit : list string)
  (groups : list (string * list string)) : M flow :=
  match groups with
  | [] => ret Continue
  | (choices, bs) :: groups' =>
      if (length bs <? 2)%nat then twins_groups values unit groups'
      else if (2 <? length bs)%nat then r <- alloc [] ;; ret (Return r)
      else
        let peers_in_unit := set_diff (to_set unit) (to_set bs) in
        r <- twins_peers values choices peers_in_unit ;;
        match r with
        | Return d => ret (Return d)
        | Continue => twins_groups values unit groups'
        end
  end.

Definition twins_unit (values : ref) (unit : list string) : M flow :=
  choices_to_boxes <- group_boxes values [] unit ;;
  twins_groups values unit choices_to_boxes.

Fixpoint twins_units (values : ref) (us : list (list string)) : M flow :=
  match us with
  | [] => ret Continue
  | unit :: us' =>
      r <- twins_unit values unit ;;
      match r with
      | Return d => ret (Return d)
      | Continue => twins_units values us'
      end
  end.

Definition naked_twins (values : ref) : M ref :=
  values <- copy values ;;
  r <- twins_units values unitlist ;;
  match r with
  | Return d => ret d
  | Continue => ret values
  end.

End Heap.

(** ** display: lines 115-127 *)

(** [c * n] for a one-character string [c]. *)
Fixpoint times (c : ascii) (n : nat) : string :=
  match n with
  | 0 => EmptyString
  | S n' => String c (times c n')
  end.

(** [s.center(width)] with the default fill.  CPython returns [s] when
    it is wide enough; else it puts [marg / 2 + (marg & width & 1)]
    spaces on the left and the rest of [marg = width - len(s)] on the
    right. *)
Definition center (s : string) (width : nat) : string :=
  if (width <=? String.length s)%nat then s
  else
    let marg := width - String.length s in
    let left := marg / 2 + (if Nat.odd marg && Nat.odd width then 1 else 0) in
    (times " " left ++ s ++ times " " (marg - left))%string.

(** [[len(values[s]) for s in bs]]: the first box that is not a key
    raises. *)
Fixpoint lengths (values : dict) (bs : list string) : outcome (list nat) :=
  match bs with
  | [] => Ok []
  | s :: bs' =>
      match get values s with
      | None => KeyError s
      | Some v =>
          match lengths values bs' with
          | Ok ls => Ok (String.length v :: ls)
          | KeyError k => KeyError k
          | OutOfFuel => OutOfFuel
          end
      end
  end.

(** [''.join(values[r+c].center(width) + ('|' if c in '36' else '')
    for c in cs)]. *)
Fixpoint display_cells (values : dict) (width : nat) (r : ascii)
  (cs : list ascii) : outcome string :=
  match cs with
  | [] => Ok EmptyString
  | c :: cs' =>
      match get values (str r ++ str c) with
      | None => KeyError (str r ++ str c)
      | Some v =>
          match display_cells values width r cs' with
          | Ok rest =>
              Ok (center v width ++
                  (if has_char c "36" then "|" else EmptyString) ++ rest)%string
          | KeyError k => KeyError k
          | OutOfFuel => OutOfFuel
          end
      end
  end.

(** The loop over [rows]; [out] is what has been printed so far, a line
    for each call of [print].  An exception leaves the lines printed
    before it. *)
Fixpoint display_rows (values : dict) (width : nat) (line : string)
  (rs : list ascii) (out : list string) : outcome unit * list string :=
  match rs with
  | [] => (Ok tt, out)
  | r :: rs' =>
      match display_cells values width r (chars cols) with
      | Ok s =>
          let out := out ++ [s] in
          let out := if has_char r "CF" then out ++ [line] else out in
          display_rows values width line rs' out
      | KeyError k => (KeyError k, out)
      | OutOfFuel => (OutOfFuel, out)
      end
  end.

(** [display(values)]: the outcome, and the lines printed. *)
Definition display (values : dict) : outcome unit * list string :=
  match lengths values boxes with
  | Ok ls =>
      let width := 1 + list_max ls in
      let dashes := times "-" (width * 3) in
      let line := (dashes ++ "+" ++ dashes ++ "+" ++ dashes)%string in
      display_rows values width line (chars rows) []
  | KeyError k => (KeyError k, [])
  | OutOfFuel => (OutOfFuel, [])
  end.

(** ** Predicates used in the statements *)

(** A computation only ever writes at the end of the trace: it leaves the
    trace it was given in place, and neither its outcome nor what it adds
    depends on that trace. *)
Definition appends {A} (m : M A) : Prop :=
  forall t, m t = (fst (m []), t ++ snd (m [])).

(** Two boards with the same keys in the same order, whose values are
    related entry by entry. *)
Definition evolves (P : string -> string -> Prop) (d d' : dict) : Prop :=
  Forall2 (fun e e' => fst e = fst e' /\ P (snd e) (snd e')) d d'.

(** What propagation may do to a domain: candidates are only dropped, and
    a fixed domain stays as it is or becomes empty. *)
Definition shrinks (s s' : string) : Prop :=
  incl (chars s') (chars s) /\
  String.length s' <= String.length s /\
  (String.length s = 1 -> s' = s \/ s' = "").

(** What [only_choice] may do to a domain: nothing, or fix it to one of
    its candidates. *)
Definition fixes (s s' : string) : Prop :=
  s' = s \/ exists d, s' = str d /\ has_char d s = true.

(** [[box for box in unit if digit in values[box]]] when no subscript
    fails. *)
Definition holders (values : dict) (digit : ascii) (unit : list string)
  : list string :=
  filter (fun b => match get values b with
                   | Some v => has_char digit v
                   | None => false
                   end) unit.

(** A board on which [eliminate] has nothing left to do: the digit of
    every fixed box is absent from all of its peers. *)
Definition settled (d : dict) : Prop :=
  forall k c, get d k = Some (str c) ->
    exists ps, peers k = Some ps /\
      forall p, In p ps -> exists s, get d p = Some s /\ has_char c s = false.

(** A computation that never stops for want of fuel. *)
Definition fuelled {A} (m : M A) : Prop :=
  forall t, fst (m t) <> OutOfFuel.

(** The input of the failing run of [solve]: two givens 5 in row A. *)
Definition two_fives : string :=
  "55...............................................................................".

(** The board of a grid with nothing given. *)
Definition blank_board : dict :=
  grid_values
  ".................................................................................".

(** [t'] is [t] with snapshots added at the end. *)
Definition extends (t t' : trace) : Prop := exists ext, t' = t ++ ext.

(** The solution of the grid in the module's [__main__] block. *)
Definition solved_grid : string :=
  "267945381853716249491823576576438192384192657129657438642379815935281764718564923".

Definition solved_board : dict := grid_values solved_grid.

(** The grid of the module's [__main__] block, and its board after one
    pass of [eliminate] and [only_choice]. *)
Definition diag_sudoku_grid : string :=
  "2.............62....1....7...6..8...3...9...7...6..4...4....8....52.............3".

Definition value_of (r : outcome dict * trace) : dict :=
  match fst r with
  | Ok d => d
  | _ => []
  end.

Definition first_eliminate : outcome dict * trace :=
  eliminate (grid_values diag_sudoku_grid) [].

Definition first_pass : outcome dict * trace :=
  only_choice (value_of first_eliminate) (snd first_eliminate).

(** A board whose candidates are all among the digits 1 to 9: the domain
    mappings of the specification. *)
Definition digit_board (d : dict) : Prop :=
  Forall (fun e => incl (chars (snd e)) (chars all_digits)) d.

(** Every domain of the board has exactly one candidate. *)
Definition solved (d : dict) : Prop :=
  Forall (fun e => String.length (snd e) = 1) d.

(** The values of the boxes of a unit, in the unit's order. *)
Fixpoint read_unit (d : dict) (u : list string) : option (list string) :=
  match u with
  | [] => Some []
  | b :: u' =>
      match get d b, read_unit d u' with
      | Some v, Some vs => Some (v :: vs)
      | _, _ => None
      end
  end.

(** The nine digits as one-character strings. *)
Definition digits : list string := map str (chars all_digits).

(** What [naked_twins] may do to a domain: drop candidates. *)
Definition narrows (s s' : string) : Prop := incl (chars s') (chars s).

(** Taking the candidates of [choices] out of the domain of [peer]
    leaves nothing. *)
Definition emptied_by (values : dict) (choices peer : string) : Prop :=
  exists v, get values peer = Some v /\ without v choices = "".

(** The boxes of [unit] whose domain, put in canonical form, is
    [choices]. *)
Definition shares (values : dict) (unit : list string) (choices b : string)
  : Prop :=
  In b unit /\ exists v, get values b = Some v /\ canonicalize v = choices.

(** What the first loop of [naked_twins] has built once it has gone
    through the boxes [done] of a unit: one group for every canonical
    two-candidate domain met, holding the boxes that have it. *)
Definition grouped (values : dict) (done : list string)
  (G : list (string * list string)) : Prop :=
  NoDup (map fst G) /\
  (forall c bs, In (c, bs) G ->
     NoDup bs /\ String.length c = 2 /\
     forall b, In b bs <-> shares values done c b) /\
  (forall b v, In b done -> get values b = Some v ->
     String.length (canonicalize v) = 2 ->
     In (canonicalize v) (map fst G)).

(** A board with a pair of twins in column 1 that row A breaks first:
    A1 and B1 hold 12, A2 and A3 hold 13. *)
Definition twins_board : dict :=
  set (set (set (set blank_board "A1" "12") "B1" "12") "A2" "13") "A3" "13".

(** A board with one pair of twins, in row A. *)
Definition pair_board : dict :=
  set (set blank_board "A1" "12") "A2" "21".

(** No element of [l] occurs twice. *)
Fixpoint nodupb (l : list string) : bool :=
  match l with
  | [] => true
  | x :: l' => negb (mem x l') && nodupb l'
  end.

(** Between two states of the store, the objects below [n] are as they
    were and no object has gone. *)
Definition keeps (n : nat) (s s' : Heap.state) : Prop :=
  length (Heap.objects s) <= length (Heap.objects s') /\
  forall r, r < n -> Heap.deref s' r = Heap.deref s r.

(** A computation that writes above [n] only, and whose result
    satisfies [Q]. *)
Definition owned {A} (n : nat) (Q : A -> Prop) (m : Heap.M A) : Prop :=
  forall s, n <= length (Heap.objects s) ->
    keeps n s (snd (m s)) /\ forall a, fst (m s) = Ok a -> Q a.

Definition anything {A} (a : A) : Prop := True.

(** A loop body that returns, returns an object above [n]. *)
Definition flow_above (n : nat) (f : Heap.flow) : Prop :=
  match f with
  | Heap.Continue => True
  | Heap.Return r => n <= r
  end.

(** A store with the solved board as its one object. *)
Definition solved_store : Heap.state := Heap.State [solved_board] [].

(** The reference [r] is allocated in [s] and points to the board [d]. *)
Definition holds (s : Heap.state) (r : Heap.ref) (d : dict) : Prop :=
  r < length (Heap.objects s) /\ Heap.deref s r = d.

(** A run over the store and a run over values end alike: the same
    trace, the same exception if any, and results related by [R] in the
    final store. *)
Definition agrees {A B} (R : A -> B -> Heap.state -> Prop)
  (x : outcome A * Heap.state) (y : outcome B * trace) : Prop :=
  Heap.assignments (snd x) = snd y /\
  match fst x, fst y with
  | Ok a, Ok b => R a b (snd x)
  | KeyError k, KeyError k' => k = k'
  | OutOfFuel, OutOfFuel => True
  | _, _ => False
  end.

(** The result is a reference to the board the value-level run returns. *)
Definition returned (r : Heap.ref) (d : dict) (s : Heap.state) : Prop :=
  holds s r d.

(** A loop that writes to [g] leaves there the board the value-level
    loop returns. *)
Definition written (g : Heap.ref) (_ : unit) (d : dict) (s : Heap.state)
  : Prop :=
  holds s g d.

(** The two runs return the same value, and the store is [s0] still. *)
Definition same {A} (s0 : Heap.state) (a b : A) (s : Heap.state) : Prop :=
  a = b /\ s = s0.

(** The loops of [naked_twins] end the same way. *)
Definition same_flow (g : Heap.ref) (f : Heap.flow) (f' : flow)
  (s : Heap.state) : Prop :=
  match f, f' with
  | Heap.Continue, Continue d => holds s g d
  | Heap.Return r, Return d => holds s r d
  | _, _ => False
  end.

(** A loop that reads [values] and writes to [result] leaves in [result]
    the board the value-level loop returns, and [values] as it was. *)
Definition written_beside (values : Heap.ref) (dv : dict) (result : Heap.ref)
  (_ : unit) (d : dict) (s : Heap.state) : Prop :=
  holds s result d /\ holds s values dv.

(** A board with the 81 boxes as its keys, and no other key. *)
Definition full_board (d : dict) : Prop :=
  forall k, In k (keys d) <-> In k boxes.

(** The boxes [search] has still to decide: those with more than one
    candidate. *)
Definition count_open (d : dict) : nat :=
  length (filter (fun sc => (1 <? String.length (snd sc))%nat) d).

(** The characters of the printed lines that are not layout: no space,
    bar, dash or plus. *)
Definition printed_cells (out : list string) : string :=
  join (filter (fun c => negb (has_char c " |-+")) (concat (map chars out))).

(** The first character of the value of a box. *)
Definition first_char (values : dict) (b : string) : ascii :=
  match get values b with
  | Some (String d _) => d
  | _ => " "%char
  end.


(** What [naked_twins] may do to a domain: drop candidates, but never
    the last one. *)
Definition thins (s s' : string) : Prop :=
  incl (chars s') (chars s) /\ (s' = EmptyString -> s = EmptyString).

(** The order of [sorted] on characters. *)
Definition char_le (a b : ascii) : Prop := nat_of_ascii a <= nat_of_ascii b.

(** [naked_twins], having gone through the units [pre] without
    returning, meets a contradiction in [unit]: with [v1] the board when
    the unit is reached and [v2] the board when its group [(choices, bs)]
    is reached, the group has three boxes or more, or it has two and some
    other box of the unit has no candidate besides [choices].  Boards
    only: the snapshots recorded on the way play no part. *)
Definition contradiction_at (values : dict) (pre : list (list string))
  (unit : list string) : Prop :=
  exists v1 gpre choices bs gpost v2,
    fst (twins_units values pre []) = Ok (Continue v1) /\
    fst (group_boxes v1 [] unit []) = Ok (gpre ++ (choices, bs) :: gpost) /\
    grouped v1 unit (gpre ++ (choices, bs) :: gpost) /\
    fst (twins_groups v1 unit gpre []) = Ok (Continue v2) /\
    (2 < length bs \/
     (length bs = 2 /\
      exists p, In p unit /\ ~ In p bs /\ emptied_by v2 choices p)).

(** ** Generic facts *)

Lemma mem_In x l : mem x l = true <-> In x l.
Proof.
  unfold mem. rewrite existsb_exists. split.
  - intros [y [Hy He]]. apply String.eqb_eq in He. now subst.
  - intros H. exists x. split; [assumption | apply String.eqb_refl].
Qed.

Lemma mem_false x l : mem x l = false <-> ~ In x l.
Proof.
  rewrite <- mem_In. destruct (mem x l); split; congruence.
Qed.

Lemma peer_ofb_spec a b : peer_ofb a b = true <-> peer_of a b.
Proof.
  unfold peer_ofb, peer_of. destruct (peers a) as [ps|].
  - rewrite mem_In. split.
    + intros H. now exists ps.
    + intros [ps' [E H]]. now inversion E; subst.
  - split; [discriminate | intros [ps [E _]]; discriminate].
Qed.

(** ** Topology theorems *)

Lemma nodupb_NoDup l : nodupb l = true <-> NoDup l.
Proof.
  induction l as [|y l IH]; simpl.
  - split; [constructor | reflexivity].
  - rewrite andb_true_iff, negb_true_iff, mem_false, IH. split.
    + intros [H1 H2]. now constructor.
    + intros H. inversion H; subst. now split.
Qed.

Lemma to_set_In l x : In x (to_set l) <-> In x l.
Proof.
  induction l as [|y l IH]; simpl; [tauto|].
  rewrite filter_In, IH, negb_true_iff. split.
  - intros [->|[H _]]; [now left | now right].
  - intros [->|H]; [now left|].
    destruct (String.eqb y x) eqn:E.
    + apply String.eqb_eq in E. now left.
    + right. now split.
Qed.

Lemma to_set_NoDup l : NoDup (to_set l).
Proof.
  induction l as [|y l IH]; simpl; [constructor|].
  constructor.
  - rewrite filter_In. intros [_ H]. now rewrite String.eqb_refl in H.
  - now apply NoDup_filter.
Qed.

(** C4 (as the code has it): the unit list holds 29 units, the 9 rows,
    9 columns, 9 squares and 2 diagonals in that order, and every unit is
    made of 9 distinct boxes of the board. *)
Theorem unitlist_shape :
  length unitlist = 29 /\
  unitlist = row_units ++ column_units ++ square_units ++ diagonal_units /\
  length row_units = 9 /\ length column_units = 9 /\
  length square_units = 9 /\ length diagonal_units = 2 /\
  Forall (fun u => length u = 9 /\ NoDup u /\ incl u boxes) unitlist.
Proof.
  repeat split; try reflexivity.
  apply Forall_forall. intros u Hu.
  assert (H : forallb (fun u => Nat.eqb (length u) 9 && nodupb u
                                && forallb (fun s => mem s boxes) u) unitlist = true)
    by (vm_compute; reflexivity).
  rewrite forallb_forall in H. specialize (H u Hu).
  apply andb_prop in H. destruct H as [H H3].
  apply andb_prop in H. destruct H as [H1 H2].
  repeat split.
  - now apply Nat.eqb_eq.
  - now apply nodupb_NoDup.
  - intros s Hs. rewrite forallb_forall in H3. apply mem_In. now apply H3.
Qed.

(** C4, as the specification words it, fails: the list does not have 21
    units. *)
Lemma unitlist_not_21 : length unitlist <> 21.
Proof. vm_compute. discriminate. Qed.

(** C8: on the board the peer relation is symmetric. *)
Theorem peers_symmetric a b :
  In a boxes -> In b boxes -> (peer_of a b <-> peer_of b a).
Proof.
  intros Ha Hb. rewrite <- !peer_ofb_spec.
  assert (H : forallb (fun a => forallb (fun b =>
                 Bool.eqb (peer_ofb a b) (peer_ofb b a)) boxes) boxes = true)
    by (vm_compute; reflexivity).
  rewrite forallb_forall in H. specialize (H a Ha).
  rewrite forallb_forall in H. specialize (H b Hb).
  apply Bool.eqb_prop in H. now rewrite H.
Qed.

Lemma peers_symmetric_witness :
  In "A1" boxes /\ In "C3" boxes /\ (peer_of "A1" "C3" <-> peer_of "C3" "A1").
Proof.
  assert (Ha : In "A1" boxes) by (apply mem_In; reflexivity).
  assert (Hb : In "C3" boxes) by (apply mem_In; reflexivity).
  split; [exact Ha | split; [exact Hb | exact (peers_symmetric Ha Hb)]].
Defined.

(** ** Dictionaries *)

Lemma get_set_same d k v : get (set d k v) k = Some v.
Proof.
  induction d as [|[k' v'] d IH]; simpl.
  - now rewrite String.eqb_refl.
  - destruct (String.eqb k k') eqn:E; simpl; rewrite E; [reflexivity | exact IH].
Qed.

Lemma get_set_other d k v k' : k <> k' -> get (set d k v) k' = get d k'.
Proof.
  intros N. induction d as [|[k0 v0] d IH]; simpl.
  - destruct (String.eqb k' k) eqn:E; [|reflexivity].
    apply String.eqb_eq in E. congruence.
  - destruct (String.eqb k k0) eqn:E; simpl.
    + apply String.eqb_eq in E. subst k0.
      destruct (String.eqb k' k) eqn:E'; [|reflexivity].
      apply String.eqb_eq in E'. congruence.
    + now rewrite IH.
Qed.

Lemma get_In_keys d k v : get d k = Some v -> In k (keys d).
Proof.
  induction d as [|[k0 v0] d IH]; simpl; [discriminate|].
  destruct (String.eqb k k0) eqn:E.
  - apply String.eqb_eq in E. now left.
  - intros H. right. now apply IH.
Qed.

Lemma In_keys_get d k : In k (keys d) -> exists v, get d k = Some v.
Proof.
  induction d as [|[k0 v0] d IH]; simpl; [tauto|].
  intros H. destruct (String.eqb k k0) eqn:E; [now eexists|].
  destruct H as [H|H]; [|now apply IH].
  subst k0. now rewrite String.eqb_refl in E.
Qed.

Lemma set_same d k v : get d k = Some v -> set d k v = d.
Proof.
  induction d as [|[k0 v0] d IH]; simpl; [discriminate|].
  destruct (String.eqb k k0) eqn:E.
  - intros H. now inversion H.
  - intros H. now rewrite IH.
Qed.

Lemma keys_set d k v v0 : get d k = Some v0 -> keys (set d k v) = keys d.
Proof.
  induction d as [|[k0 v1] d IH]; simpl; [discriminate|].
  destruct (String.eqb k k0) eqn:E; simpl; [reflexivity|].
  intros H. now rewrite IH.
Qed.

(** ** The monad *)

Lemma bind_Ok {A B} (m : M A) (f : A -> M B) t b t' :
  bind m f t = (Ok b, t') ->
  exists a t1, m t = (Ok a, t1) /\ f a t1 = (Ok b, t').
Proof.
  unfold bind. destruct (m t) as [[a| |] t1]; intros H; try discriminate.
  now exists a, t1.
Qed.

Lemma lookup_Ok d k v t t' :
  lookup d k t = (Ok v, t') -> get d k = Some v /\ t' = t.
Proof.
  unfold lookup. destruct (get d k); cbv; intros H; inversion H; now subst.
Qed.

Lemma peers_of_Ok k ps t t' :
  peers_of k t = (Ok ps, t') -> peers k = Some ps /\ t' = t.
Proof.
  unfold peers_of. destruct (peers k); cbv; intros H; inversion H; now subst.
Qed.

Lemma ret_Ok {A} (a b : A) t t' : ret a t = (Ok b, t') -> b = a /\ t' = t.
Proof. cbv. intros H. now inversion H. Qed.

Lemma assign_value_Ok values box value t v' t' :
  assign_value values box value t = (Ok v', t') ->
  v' = set values box value.
Proof.
  unfold assign_value. destruct (String.length value =? 1)%nat;
    intros H; now inversion H.
Qed.

(** Invert a successful run, one bind at a time. *)
Ltac minv H :=
  repeat match type of H with
  | bind _ _ _ = (Ok _, _) =>
      let a := fresh "a" in let t := fresh "t" in
      let H1 := fresh "Hm" in
      apply bind_Ok in H; destruct H as (a & t & H1 & H)
  end.

Tactic Notation "mstep" hyp(H) "as" ident(a) ident(t) ident(H1) :=
  apply bind_Ok in H; destruct H as (a & t & H1 & H).

(** [appends m]: the run of [m] leaves the trace it was given in place and
    writes after it, and neither its outcome nor what it writes depends
    on that trace. *)
Lemma appends_ret {A} (a : A) : appends (ret a).
Proof. intros t. cbv [ret fst snd]. now rewrite app_nil_r. Qed.

Lemma appends_raise {A} k : appends (@raise_KeyError A k).
Proof. intros t. cbv [raise_KeyError fst snd]. now rewrite app_nil_r. Qed.

Lemma appends_out_of_fuel {A} : appends (@out_of_fuel A).
Proof. intros t. cbv [out_of_fuel fst snd]. now rewrite app_nil_r. Qed.

Lemma appends_bind {A B} (m : M A) (f : A -> M B) :
  appends m -> (forall a, appends (f a)) -> appends (bind m f).
Proof.
  intros Hm Hf t. unfold bind. rewrite (Hm t).
  destruct (m []) as [[a| |] e]; simpl.
  - rewrite (Hf a (t ++ e)), (Hf a e). simpl. now rewrite app_assoc.
  - reflexivity.
  - reflexivity.
Qed.

Lemma appends_lookup d k : appends (lookup d k).
Proof.
  unfold lookup. destruct (get d k); [apply appends_ret | apply appends_raise].
Qed.

Lemma appends_peers_of k : appends (peers_of k).
Proof.
  unfold peers_of. destruct (peers k); [apply appends_ret | apply appends_raise].
Qed.

Lemma appends_assign_value values box value :
  appends (assign_value values box value).
Proof.
  intros t. unfold assign_value.
  destruct (String.length value =? 1)%nat; simpl; [reflexivity|].
  now rewrite app_nil_r.
Qed.

Create HintDb appends.
#[export] Hint Resolve appends_ret appends_raise appends_out_of_fuel
  appends_lookup appends_peers_of appends_assign_value : appends.

Ltac appends_step :=
  match goal with
  | |- appends (bind _ _) => apply appends_bind; [|intros ?]
  | |- appends (match ?x with _ => _ end) => destruct x
  | |- appends (if ?x then _ else _) => destruct x
  | |- _ => solve [auto with appends]
  end.

Lemma appends_eliminate_peers c ps : forall grid,
  appends (eliminate_peers grid c ps).
Proof.
  induction ps as [|p ps IH]; intros grid; simpl; repeat appends_step.
Qed.
#[export] Hint Resolve appends_eliminate_peers : appends.

Lemma appends_eliminate_boxes ks : forall grid,
  appends (eliminate_boxes grid ks).
Proof.
  induction ks as [|k ks IH]; intros grid; simpl; repeat appends_step.
Qed.
#[export] Hint Resolve appends_eliminate_boxes : appends.

Lemma appends_eliminate values : appends (eliminate values).
Proof. unfold eliminate. auto with appends. Qed.
#[export] Hint Resolve appends_eliminate : appends.

Lemma appends_boxes_with values digit unit :
  appends (boxes_with values digit unit).
Proof.
  induction unit as [|b unit IH]; simpl; repeat appends_step.
Qed.
#[export] Hint Resolve appends_boxes_with : appends.

Lemma appends_only_choice_digits values unit ds : forall result,
  appends (only_choice_digits values result unit ds).
Proof.
  induction ds as [|d ds IH]; intros result; simpl; repeat appends_step.
Qed.
#[export] Hint Resolve appends_only_choice_digits : appends.

Lemma appends_only_choice_units values us : forall result,
  appends (only_choice_units values result us).
Proof.
  induction us as [|u us IH]; intros result; cbn [only_choice_units];
    repeat appends_step.
Qed.
#[export] Hint Resolve appends_only_choice_units : appends.

Lemma appends_only_choice values : appends (only_choice values).
Proof. unfold only_choice. auto with appends. Qed.
#[export] Hint Resolve appends_only_choice : appends.

Lemma appends_reduce_puzzle_loop fuel : forall values,
  appends (reduce_puzzle_loop fuel values).
Proof.
  induction fuel as [|fuel IH]; intros values; simpl; repeat appends_step.
Qed.
#[export] Hint Resolve appends_reduce_puzzle_loop : appends.

Lemma appends_reduce_puzzle values : appends (reduce_puzzle values).
Proof. unfold reduce_puzzle. auto with appends. Qed.
#[export] Hint Resolve appends_reduce_puzzle : appends.

Lemma appends_min_from key l : (forall x, appends (key x)) ->
  forall best kbest, appends (min_from key best kbest l).
Proof.
  intros Hk. induction l as [|x l IH]; intros best kbest; simpl;
    repeat appends_step.
Qed.

Lemma appends_num_choices values square : appends (num_choices values square).
Proof. unfold num_choices. repeat appends_step. Qed.
#[export] Hint Resolve appends_min_from appends_num_choices : appends.

Lemma appends_search_digits rec square ds : (forall v, appends (rec v)) ->
  forall values, appends (search_digits rec values square ds).
Proof.
  intros Hr. induction ds as [|d ds IH]; intros values; simpl;
    repeat appends_step.
Qed.

Lemma appends_search fuel : forall values, appends (search fuel values).
Proof.
  induction fuel as [|fuel IH]; intros values; simpl; repeat appends_step.
  apply appends_search_digits. exact IH.
Qed.
#[export] Hint Resolve appends_search : appends.

Lemma appends_solve fuel grid : appends (solve fuel grid).
Proof. unfold solve. repeat appends_step. Qed.

(** ** Strings *)

Lemma length_chars s : length (chars s) = String.length s.
Proof. induction s; simpl; [reflexivity | now f_equal]. Qed.

Lemma chars_join l : chars (join l) = l.
Proof. apply list_ascii_of_string_of_list_ascii. Qed.

Lemma join_chars s : join (chars s) = s.
Proof. apply string_of_list_ascii_of_string. Qed.

Lemma chars_single s c : chars s = [c] -> s = str c.
Proof. intros H. rewrite <- (join_chars s), H. reflexivity. Qed.

Lemma length_1_str s : String.length s = 1 -> exists c, s = str c.
Proof.
  destruct s as [|c [|c' s]]; simpl; try discriminate. intros _. now exists c.
Qed.

Lemma chars_nil s : chars s = [] -> s = "".
Proof. destruct s; [reflexivity | discriminate]. Qed.

Lemma has_char_In c s : has_char c s = true <-> In c (chars s).
Proof.
  unfold has_char. rewrite existsb_exists. split.
  - intros [x [Hx E]]. apply Ascii.eqb_eq in E. now subst.
  - intros H. exists c. split; [assumption | apply Ascii.eqb_refl].
Qed.

Lemma has_char_false c s : has_char c s = false <-> ~ In c (chars s).
Proof. rewrite <- has_char_In. destruct (has_char c s); split; congruence. Qed.

Lemma chars_remove_char c s :
  chars (remove_char c s) = filter (fun x => negb (Ascii.eqb x c)) (chars s).
Proof. unfold remove_char. apply chars_join. Qed.

Lemma remove_char_absent c s : has_char c s = false -> remove_char c s = s.
Proof.
  intros H. apply has_char_false in H. unfold remove_char.
  rewrite <- (join_chars s) at 2. f_equal.
  induction (chars s) as [|x l IH]; simpl; [reflexivity|].
  destruct (Ascii.eqb x c) eqn:E; simpl.
  - apply Ascii.eqb_eq in E. subst. exfalso. apply H. now left.
  - f_equal. apply IH. intros Hin. apply H. now right.
Qed.

Lemma has_char_remove_char c s : has_char c (remove_char c s) = false.
Proof.
  apply has_char_false. rewrite chars_remove_char, filter_In.
  intros [_ H]. now rewrite Ascii.eqb_refl in H.
Qed.

(** ** Domains that only shrink *)

Lemma shrinks_refl s : shrinks s s.
Proof. repeat split; [apply incl_refl | lia | now left]. Qed.

Lemma shrinks_empty s : shrinks "" s -> s = "".
Proof.
  intros [H _]. apply chars_nil. destruct (chars s) as [|c l]; [reflexivity|].
  destruct (H c). now left.
Qed.

Lemma shrinks_trans s1 s2 s3 : shrinks s1 s2 -> shrinks s2 s3 -> shrinks s1 s3.
Proof.
  intros (I1 & L1 & F1) H2. pose proof H2 as (I2 & L2 & F2). repeat split.
  - eapply incl_tran; eassumption.
  - lia.
  - intros H. destruct (F1 H) as [->| ->].
    + now apply F2.
    + right. now apply shrinks_empty.
Qed.

Lemma shrinks_remove_char c s : shrinks s (remove_char c s).
Proof.
  repeat split.
  - intros x. rewrite chars_remove_char, filter_In. tauto.
  - rewrite <- !length_chars, chars_remove_char. apply filter_length_le.
  - intros H. apply length_1_str in H. destruct H as [x ->].
    unfold remove_char. simpl. destruct (Ascii.eqb x c); simpl; auto.
Qed.

Lemma fixes_shrinks s s' : fixes s s' -> shrinks s s'.
Proof.
  intros [->|(d & -> & H)]; [apply shrinks_refl|].
  apply has_char_In in H. repeat split.
  - intros x [<-|[]]. exact H.
  - rewrite <- (length_chars s). destruct (chars s); simpl in *; [tauto | lia].
  - intros L. apply length_1_str in L. destruct L as [x ->].
    simpl in H. destruct H as [->|[]]. now left.
Qed.

(** ** Boards that evolve entry by entry *)

Section Evolves.
Variable P : string -> string -> Prop.

Lemma evolves_refl d : (forall s, P s s) -> evolves P d d.
Proof.
  intros R. induction d; constructor; auto.
Qed.

Lemma evolves_keys d d' : evolves P d d' -> keys d' = keys d.
Proof.
  induction 1 as [|e e' d d' [E _] _ IH]; simpl; [reflexivity|].
  now rewrite E, IH.
Qed.

Lemma evolves_length d d' : evolves P d d' -> length d' = length d.
Proof. intros H. symmetry. eapply Forall2_length, H. Qed.

Lemma evolves_get d d' k s :
  evolves P d d' -> get d k = Some s ->
  exists s', get d' k = Some s' /\ P s s'.
Proof.
  induction 1 as [|[k1 v1] [k2 v2] d d' [E HP] _ IH]; simpl in *;
    [discriminate|]. subst k2.
  destruct (String.eqb k k1); [|exact IH].
  intros H. inversion H; subst. eauto.
Qed.

Lemma evolves_get_inv d d' k s' :
  evolves P d d' -> get d' k = Some s' ->
  exists s, get d k = Some s /\ P s s'.
Proof.
  induction 1 as [|[k1 v1] [k2 v2] d d' [E HP] _ IH]; simpl in *;
    [discriminate|]. subst k2.
  destruct (String.eqb k k1); [|exact IH].
  intros H. inversion H; subst. eauto.
Qed.

(** Writing to a key that is there keeps the boards related when the
    value written is related to the old value of the first board. *)
Lemma evolves_set d g k v s :
  evolves P d g -> get g k = Some s ->
  (forall s0, get d k = Some s0 -> P s0 v) ->
  evolves P d (set g k v).
Proof.
  induction 1 as [|[k1 v1] [k2 v2] d g [E HP] HF IH]; simpl in *;
    [discriminate|]. subst k2.
  destruct (String.eqb k k1) eqn:Ek; intros Hg Hv.
  - constructor; [|exact HF]. split; [reflexivity|]. now apply Hv.
  - constructor; [now split|]. now apply IH.
Qed.
End Evolves.

Lemma evolves_trans (P Q R : string -> string -> Prop) d1 d2 d3 :
  (forall a b c, P a b -> Q b c -> R a c) ->
  evolves P d1 d2 -> evolves Q d2 d3 -> evolves R d1 d3.
Proof.
  intros T H. revert d3.
  induction H as [|e1 e2 d1 d2 [E HP] _ IH]; intros d3 H3;
    inversion H3 as [|? e3 ? d3' [E' HQ] H3']; subst; constructor.
  - split; [congruence | eauto].
  - now apply IH.
Qed.

Lemma evolves_impl (P Q : string -> string -> Prop) d d' :
  (forall a b, P a b -> Q a b) -> evolves P d d' -> evolves Q d d'.
Proof.
  intros I H. induction H as [|e e' d d' [E HP] _ IH]; constructor; auto.
Qed.

Arguments evolves_trans [P Q R d1 d2 d3] _ _ _.
Arguments evolves_impl [P Q d d'] _ _.

Lemma evolves_eq d d' : evolves eq d d' -> d' = d.
Proof.
  induction 1 as [|[k v] [k' v'] d d' [E HP] _ IH]; simpl in *;
    [reflexivity | congruence].
Qed.

(** ** eliminate *)

Lemma shrinks_has_char c s s' :
  shrinks s s' -> has_char c s = false -> has_char c s' = false.
Proof.
  intros [I _]. rewrite !has_char_false. intros N H. apply N, I, H.
Qed.

Lemma eliminate_peers_spec c ps : forall grid t grid' t',
  eliminate_peers grid c ps t = (Ok grid', t') ->
  evolves shrinks grid grid' /\
  forall p, In p ps ->
    exists s, get grid' p = Some s /\ has_char c s = false.
Proof.
  induction ps as [|p ps IH]; intros grid t grid' t' H; simpl in H.
  - apply ret_Ok in H. destruct H as [-> _]. split.
    + apply evolves_refl, shrinks_refl.
    + intros p [].
  - mstep H as a t1 Hm. apply lookup_Ok in Hm. destruct Hm as [Hg ->].
    mstep H as a0 t2 Hm0. apply assign_value_Ok in Hm0. subst a0.
    apply IH in H. destruct H as [He Hp].
    assert (E1 : evolves shrinks grid (set grid p (remove_char c a))).
    { eapply evolves_set; [apply evolves_refl, shrinks_refl | exact Hg |].
      intros s0 Hs0. rewrite Hg in Hs0. inversion Hs0; subst.
      apply shrinks_remove_char. }
    split.
    + eapply evolves_trans; [apply shrinks_trans | exact E1 | exact He].
    + intros p' [<-|Hin]; [|now apply Hp].
      destruct (evolves_get p He (get_set_same grid p _)) as (s' & Hs' & Sh).
      exists s'. split; [exact Hs'|].
      eapply shrinks_has_char; [exact Sh | apply has_char_remove_char].
Qed.

Lemma eliminate_boxes_evolves ks : forall grid t grid' t',
  eliminate_boxes grid ks t = (Ok grid', t') -> evolves shrinks grid grid'.
Proof.
  induction ks as [|k ks IH]; intros grid t grid' t' H; simpl in H.
  - apply ret_Ok in H. destruct H as [-> _]. apply evolves_refl, shrinks_refl.
  - mstep H as a t1 Hm.
    destruct (chars a) as [|c [|c' l]]; try (eapply IH; exact H).
    mstep H as ps t2 Hp. mstep H as g1 t3 Hm1.
    apply eliminate_peers_spec in Hm1. destruct Hm1 as [E1 _].
    apply IH in H.
    eapply evolves_trans; [apply shrinks_trans | exact E1 | exact H].
Qed.

Lemma eliminate_evolves values t grid t' :
  eliminate values t = (Ok grid, t') -> evolves shrinks values grid.
Proof. apply eliminate_boxes_evolves. Qed.

(** A fixed value that is still there after more shrinking was there all
    along. *)
Lemma fixed_through g1 g2 e k s :
  evolves shrinks g1 g2 -> evolves shrinks g2 e ->
  get g1 k = Some s -> get e k = Some s -> String.length s = 1 ->
  get g2 k = Some s.
Proof.
  intros E1 E2 H1 He L.
  destruct (evolves_get k E1 H1) as (s2 & H2 & (_ & _ & F)).
  destruct (F L) as [->| ->]; [exact H2|].
  destruct (evolves_get k E2 H2) as (s3 & H3 & Sh).
  apply shrinks_empty in Sh. subst s3. rewrite He in H3.
  inversion H3; subst. discriminate.
Qed.

(** If a pass of [eliminate] ends with no box fixed that was not fixed
    from the start, it has cleared the digit of every fixed box from all
    its peers. *)
Lemma eliminate_boxes_settles ks : forall grid t e t',
  eliminate_boxes grid ks t = (Ok e, t') ->
  (forall k s, get e k = Some s -> String.length s = 1 -> get grid k = Some s) ->
  forall k c, In k ks -> get e k = Some (str c) ->
    exists ps, peers k = Some ps /\
      forall p, In p ps -> exists s, get e p = Some s /\ has_char c s = false.
Proof.
  induction ks as [|k0 ks IH]; intros grid t e t' H Hfix k c Hin He;
    [destruct Hin|].
  simpl in H. mstep H as a t1 Hm. apply lookup_Ok in Hm.
  destruct Hm as [Hg ->].
  destruct Hin as [<-|Hin].
  - rewrite (Hfix _ _ He eq_refl) in Hg. inversion Hg; subst a.
    simpl in H. mstep H as ps t2 Hp. mstep H as g1 t3 Hm0.
    apply peers_of_Ok in Hp. destruct Hp as [Hp ->].
    apply eliminate_peers_spec in Hm0. destruct Hm0 as [_ Hc].
    apply eliminate_boxes_evolves in H.
    exists ps. split; [exact Hp|]. intros p Hp'.
    destruct (Hc p Hp') as (s1 & Hs1 & N1).
    destruct (evolves_get p H Hs1) as (s' & Hs' & Sh).
    exists s'. split; [exact Hs'|]. eapply shrinks_has_char; eassumption.
  - destruct (chars a) as [|c0 [|c1 l]]; try (eapply IH; eassumption).
    mstep H as ps t2 Hp. mstep H as g1 t3 Hm1.
    pose proof (eliminate_boxes_evolves _ _ _ H) as E2.
    apply eliminate_peers_spec in Hm1. destruct Hm1 as [E1 _].
    eapply IH; try eassumption.
    intros k' s' Hk' L. eapply fixed_through; eauto.
Qed.

Lemma eliminate_peers_idle c ps grid :
  (forall p, In p ps ->
     exists s, get grid p = Some s /\ has_char c s = false) ->
  forall t, fst (eliminate_peers grid c ps t) = Ok grid.
Proof.
  induction ps as [|p ps IH]; intros H t; simpl; [reflexivity|].
  destruct (H p (or_introl eq_refl)) as (s & Hs & N).
  unfold bind at 1. unfold lookup. rewrite Hs. cbn [ret].
  rewrite (remove_char_absent _ _ N).
  unfold bind at 1. unfold assign_value. rewrite (set_same _ _ Hs).
  destruct (String.length s =? 1)%nat; apply IH; intros p' Hp';
    apply H; now right.
Qed.

Lemma eliminate_boxes_idle grid ks :
  settled grid -> incl ks (keys grid) ->
  forall t, fst (eliminate_boxes grid ks t) = Ok grid.
Proof.
  intros S. induction ks as [|k ks IH]; intros I t; simpl; [reflexivity|].
  destruct (In_keys_get grid k (I k (or_introl eq_refl))) as [v Hv].
  assert (I' : incl ks (keys grid)) by (intros x Hx; apply I; now right).
  unfold bind at 1. unfold lookup. rewrite Hv. cbn [ret].
  destruct (chars v) as [|c [|c' l]] eqn:E; try (now apply IH).
  apply chars_single in E. subst v.
  destruct (S k c Hv) as (ps & Hp & Hc).
  unfold bind at 1. unfold peers_of. rewrite Hp. cbn [ret].
  unfold bind at 1.
  pose proof (eliminate_peers_idle c ps grid Hc t) as Hi.
  destruct (eliminate_peers grid c ps t) as [o t1]. simpl in Hi. subst o.
  now apply IH.
Qed.

Lemma eliminate_idle grid t :
  settled grid -> fst (eliminate grid t) = Ok grid.
Proof. intros S. apply eliminate_boxes_idle; [exact S | apply incl_refl]. Qed.

(** ** only_choice *)

Lemma boxes_with_Ok values digit unit : forall t l t',
  boxes_with values digit unit t = (Ok l, t') ->
  l = holders values digit unit /\ t' = t /\
  forall b, In b unit -> exists v, get values b = Some v.
Proof.
  induction unit as [|b unit IH]; intros t l t' H; simpl in H.
  - apply ret_Ok in H. destruct H as [-> ->]. repeat split. intros b [].
  - mstep H as a t1 Hm. apply lookup_Ok in Hm. destruct Hm as [Hg ->].
    mstep H as rest t2 Hm0.
    apply IH in Hm0. destruct Hm0 as (-> & -> & Hall).
    apply ret_Ok in H. destruct H as [-> ->].
    unfold holders. simpl. rewrite Hg. repeat split.
    intros b' [<-|Hb']; [now exists a | now apply Hall].
Qed.

Lemma holders_In values digit unit b :
  In b (holders values digit unit) <->
  In b unit /\ exists v, get values b = Some v /\ has_char digit v = true.
Proof.
  unfold holders. rewrite filter_In. split.
  - intros [Hb H]. split; [exact Hb|].
    destruct (get values b) as [v|]; [now exists v | discriminate].
  - intros [Hb (v & Hv & H)]. split; [exact Hb|]. now rewrite Hv.
Qed.

Lemma only_choice_digits_evolves values unit ds : forall result t r t',
  evolves fixes values result ->
  only_choice_digits values result unit ds t = (Ok r, t') ->
  evolves fixes values r.
Proof.
  induction ds as [|d ds IH]; intros result t r t' E H; simpl in H.
  - apply ret_Ok in H. destruct H as [-> _]. exact E.
  - mstep H as bs t1 Hm. apply boxes_with_Ok in Hm.
    destruct Hm as (-> & -> & _).
    destruct (holders values d unit) as [|b [|b' l]] eqn:Eh;
      try (eapply IH; eassumption).
    mstep H as a t2 Hm. apply assign_value_Ok in Hm. subst a.
    assert (Hb : In b (holders values d unit)) by (rewrite Eh; now left).
    apply holders_In in Hb. destruct Hb as [_ (v & Hv & Hd)].
    destruct (evolves_get b E Hv) as (s & Hs & _).
    eapply IH; [|exact H].
    eapply evolves_set; [exact E | exact Hs |].
    intros s0 Hs0. rewrite Hv in Hs0. inversion Hs0; subst.
    right. now exists d.
Qed.

Lemma only_choice_units_evolves values us : forall result t r t',
  evolves fixes values result ->
  only_choice_units values result us t = (Ok r, t') ->
  evolves fixes values r.
Proof.
  induction us as [|u us IH]; intros result t r t' E H;
    cbn [only_choice_units] in H.
  - apply ret_Ok in H. destruct H as [-> _]. exact E.
  - mstep H as r1 t1 Hm. eapply IH; [|exact H].
    eapply only_choice_digits_evolves; eassumption.
Qed.

Lemma only_choice_evolves values t r t' :
  only_choice values t = (Ok r, t') -> evolves fixes values r.
Proof.
  apply only_choice_units_evolves, evolves_refl. intros s. now left.
Qed.

(** A run of [only_choice] that raises nothing has read every box of
    every unit. *)
Lemma only_choice_digits_reads values unit d ds result t r t' :
  only_choice_digits values result unit (d :: ds) t = (Ok r, t') ->
  forall b, In b unit -> exists v, get values b = Some v.
Proof.
  intros H. cbn [only_choice_digits] in H. mstep H as bs t1 Hm.
  apply boxes_with_Ok in Hm. now destruct Hm as (_ & _ & Hall).
Qed.

Lemma only_choice_units_reads values us : forall result t r t',
  only_choice_units values result us t = (Ok r, t') ->
  forall u b, In u us -> In b u -> exists v, get values b = Some v.
Proof.
  induction us as [|u0 us IH]; intros result t r t' H u b Hu Hb;
    [destruct Hu|].
  cbn [only_choice_units] in H. mstep H as r1 t1 Hm.
  destruct Hu as [<-|Hu]; [|eapply IH; eassumption].
  change (chars all_digits) with ("1"%char :: chars "23456789") in Hm.
  eapply only_choice_digits_reads; eassumption.
Qed.

(** ** Counting fixed and empty boxes *)

Lemma count_len_cons n k v d :
  count_len n ((k, v) :: d) =
  (if (String.length v =? n)%nat then 1 else 0) + count_len n d.
Proof.
  unfold count_len. simpl. destruct (String.length v =? n)%nat; reflexivity.
Qed.

Lemma count_len_le n d : count_len n d <= length d.
Proof. apply filter_length_le. Qed.

Lemma length_0_empty s : String.length s = 0 -> s = "".
Proof. destruct s; [reflexivity | discriminate]. Qed.

Lemma no_empty_back d d' :
  evolves shrinks d d' -> count_len 0 d' = 0 -> count_len 0 d = 0.
Proof.
  induction 1 as [|[k v] [k' v'] d d' [_ Sh] _ IH]; [reflexivity|].
  rewrite !count_len_cons. simpl in Sh.
  destruct (String.length v' =? 0)%nat eqn:E'; [discriminate|].
  destruct (String.length v =? 0)%nat eqn:E; [|exact IH].
  apply Nat.eqb_eq, length_0_empty in E. subst v.
  apply shrinks_empty in Sh. now subst v'.
Qed.

Lemma count_fixed_mono d d' :
  evolves shrinks d d' -> count_len 0 d' = 0 ->
  count_len 1 d <= count_len 1 d'.
Proof.
  induction 1 as [|[k v] [k' v'] d d' [_ Sh] _ IH]; [reflexivity|].
  rewrite !count_len_cons. simpl in Sh.
  destruct (String.length v' =? 0)%nat eqn:E0; [discriminate|].
  intros H0. specialize (IH H0).
  destruct (String.length v =? 1)%nat eqn:E; [|lia].
  apply Nat.eqb_eq in E. destruct Sh as (_ & _ & F).
  destruct (F E) as [->| ->]; [|discriminate].
  rewrite E. simpl. lia.
Qed.

(** With no empty box at the end and as many fixed boxes as at the start,
    every box fixed at the end was fixed, to the same digit, at the
    start. *)
Lemma same_count_same_fixed d d' :
  evolves shrinks d d' -> count_len 0 d' = 0 ->
  count_len 1 d = count_len 1 d' ->
  evolves (fun s s' => String.length s' = 1 -> s = s') d d'.
Proof.
  induction 1 as [|[k v] [k' v'] d d' [Ek Sh] HF IH]; [constructor|].
  rewrite !count_len_cons. simpl in Sh, Ek.
  destruct (String.length v' =? 0)%nat eqn:E0; [discriminate|].
  intros H0 Hc. pose proof (count_fixed_mono HF H0) as Hle.
  destruct (String.length v =? 1)%nat eqn:E.
  - apply Nat.eqb_eq in E. destruct Sh as (_ & _ & F).
    destruct (F E) as [->| ->]; [|discriminate].
    rewrite E in Hc. simpl in Hc.
    constructor; [now split | apply IH; [exact H0 | lia]].
  - destruct (String.length v' =? 1)%nat eqn:E'; [simpl in Hc; lia|].
    constructor; [|apply IH; [exact H0 | simpl in Hc; lia]].
    split; [exact Ek|]. simpl. intros L. apply Nat.eqb_neq in E'. contradiction.
Qed.

Lemma evolves_and (P Q : string -> string -> Prop) d d' :
  evolves P d d' -> evolves Q d d' ->
  evolves (fun s s' => P s s' /\ Q s s') d d'.
Proof.
  induction 1 as [|e e' d d' [E HP] _ IH]; intros H2;
    inversion H2 as [|? ? ? ? [_ HQ] H2']; subst; constructor.
  - repeat split; assumption.
  - now apply IH.
Qed.

Arguments evolves_and [P Q d d'] _ _.

Lemma appends_fst {A} (m : M A) t t' : appends m -> fst (m t) = fst (m t').
Proof. intros H. now rewrite (H t), (H t'). Qed.

Lemma appends_prefix {A} (m : M A) t :
  appends m -> exists ext, snd (m t) = t ++ ext.
Proof. intros H. rewrite (H t). simpl. eauto. Qed.

(** ** reduce_puzzle *)

(** What one stalled pass with no empty box leaves behind. *)
Lemma stalled_pass z t e t1 y t2 :
  eliminate z t = (Ok e, t1) -> only_choice e t1 = (Ok y, t2) ->
  count_len 0 y = 0 -> count_len 1 z = count_len 1 y ->
  y = e /\ settled y /\ forall t', fst (only_choice y t') = Ok y.
Proof.
  intros He Hy H0 Hc.
  pose proof (eliminate_evolves _ _ He) as E1.
  pose proof (only_choice_evolves _ _ Hy) as E2.
  pose proof (evolves_impl fixes_shrinks E2) as E2'.
  pose proof (no_empty_back E2' H0) as H0e.
  pose proof (count_fixed_mono E1 H0e) as L1.
  pose proof (count_fixed_mono E2' H0) as L2.
  pose proof (same_count_same_fixed E1 H0e ltac:(lia)) as S1.
  pose proof (same_count_same_fixed E2' H0 ltac:(lia)) as S2.
  assert (Eq : y = e).
  { apply evolves_eq. eapply evolves_impl; [|exact (evolves_and E2 S2)].
    intros a b [[->|(d & -> & _)] F]; [reflexivity|].
    now apply F. }
  subst y. repeat split.
  - intros k c Hk.
    apply (eliminate_boxes_settles _ _ _ He); [| |exact Hk].
    + intros k' s' Hk' L.
      destruct (evolves_get_inv k' S1 Hk') as (s0 & Hs0 & F).
      now rewrite (F L) in Hs0.
    + rewrite <- (evolves_keys E1). eapply get_In_keys, Hk.
  - intros t'. rewrite (appends_fst t' t1 (appends_only_choice e)).
    now rewrite Hy.
Qed.

Lemma reduce_puzzle_loop_Ok fuel : forall values t y t',
  reduce_puzzle_loop fuel values t = (Ok y, t') -> y <> [] ->
  evolves shrinks values y /\ count_len 0 y = 0 /\ settled y /\
  forall t0, fst (only_choice y t0) = Ok y.
Proof.
  induction fuel as [|fuel IH]; intros values t y t' H Hy;
    [discriminate|].
  cbn [reduce_puzzle_loop] in H.
  mstep H as e t1 He. mstep H as y1 t2 Hy1.
  pose proof (eliminate_evolves _ _ He) as E1.
  pose proof (evolves_impl fixes_shrinks (only_choice_evolves _ _ Hy1)) as E2.
  pose proof (evolves_trans shrinks_trans E1 E2) as E.
  destruct (count_len 0 y1 =? 0)%nat eqn:E0; simpl in H.
  - apply Nat.eqb_eq in E0.
    destruct (count_len 1 values =? count_len 1 y1)%nat eqn:Ec.
    + apply ret_Ok in H. destruct H as [-> ->].
      apply Nat.eqb_eq in Ec.
      destruct (stalled_pass _ _ He Hy1 E0 Ec) as (_ & S & O). auto.
    + apply IH in H; [|exact Hy]. destruct H as (E' & H).
      split; [|exact H].
      eapply evolves_trans; [apply shrinks_trans | exact E | exact E'].
  - apply ret_Ok in H. destruct H as [-> _]. now destruct Hy.
Qed.

(** ** Fuel *)

Lemma fuelled_ret {A} (a : A) : fuelled (ret a).
Proof. intros t. discriminate. Qed.

Lemma fuelled_raise {A} k : fuelled (@raise_KeyError A k).
Proof. intros t. discriminate. Qed.

Lemma fuelled_bind {A B} (m : M A) (f : A -> M B) :
  fuelled m -> (forall a, fuelled (f a)) -> fuelled (bind m f).
Proof.
  intros Hm Hf t. unfold bind. specialize (Hm t).
  destruct (m t) as [[a| |] t1]; simpl in *;
    [apply Hf | discriminate | congruence].
Qed.

Lemma fuelled_lookup d k : fuelled (lookup d k).
Proof.
  unfold lookup. destruct (get d k); [apply fuelled_ret | apply fuelled_raise].
Qed.

Lemma fuelled_peers_of k : fuelled (peers_of k).
Proof.
  unfold peers_of. destruct (peers k); [apply fuelled_ret | apply fuelled_raise].
Qed.

Lemma fuelled_assign_value values box value :
  fuelled (assign_value values box value).
Proof.
  intros t. unfold assign_value.
  destruct (String.length value =? 1)%nat; discriminate.
Qed.

Create HintDb fuelled.
#[export] Hint Resolve fuelled_ret fuelled_raise fuelled_lookup
  fuelled_peers_of fuelled_assign_value : fuelled.

Ltac fuelled_step :=
  match goal with
  | |- fuelled (bind _ _) => apply fuelled_bind; [|intros ?]
  | |- fuelled (match ?x with _ => _ end) => destruct x
  | |- fuelled (if ?x then _ else _) => destruct x
  | |- _ => solve [auto with fuelled]
  end.

Lemma fuelled_eliminate_peers c ps : forall grid,
  fuelled (eliminate_peers grid c ps).
Proof.
  induction ps as [|p ps IH]; intros grid; simpl; repeat fuelled_step.
Qed.
#[export] Hint Resolve fuelled_eliminate_peers : fuelled.

Lemma fuelled_eliminate_boxes ks : forall grid,
  fuelled (eliminate_boxes grid ks).
Proof.
  induction ks as [|k ks IH]; intros grid; simpl; repeat fuelled_step.
Qed.

Lemma fuelled_eliminate values : fuelled (eliminate values).
Proof. apply fuelled_eliminate_boxes. Qed.
#[export] Hint Resolve fuelled_eliminate : fuelled.

Lemma fuelled_boxes_with values digit unit :
  fuelled (boxes_with values digit unit).
Proof.
  induction unit as [|b unit IH]; simpl; repeat fuelled_step.
Qed.
#[export] Hint Resolve fuelled_boxes_with : fuelled.

Lemma fuelled_only_choice_digits values unit ds : forall result,
  fuelled (only_choice_digits values result unit ds).
Proof.
  induction ds as [|d ds IH]; intros result; simpl; repeat fuelled_step.
Qed.
#[export] Hint Resolve fuelled_only_choice_digits : fuelled.

Lemma fuelled_only_choice_units values us : forall result,
  fuelled (only_choice_units values result us).
Proof.
  induction us as [|u us IH]; intros result; cbn [only_choice_units];
    repeat fuelled_step.
Qed.

Lemma fuelled_only_choice values : fuelled (only_choice values).
Proof. apply fuelled_only_choice_units. Qed.
#[export] Hint Resolve fuelled_only_choice : fuelled.

(** The loop does not run out of fuel when it is given more runs than
    there are boxes still to fix: every run that does not end the loop
    fixes a box. *)
Lemma reduce_puzzle_loop_fuelled fuel : forall values,
  length values - count_len 1 values < fuel ->
  fuelled (reduce_puzzle_loop fuel values).
Proof.
  induction fuel as [|fuel IH]; intros values Hf t; [lia|].
  cbn [reduce_puzzle_loop]. unfold bind at 1.
  pose proof (fuelled_eliminate values t) as F1.
  destruct (eliminate values t) as [[e| |] t1] eqn:He; simpl in F1;
    try discriminate; [|congruence].
  unfold bind at 1.
  pose proof (fuelled_only_choice e t1) as F2.
  destruct (only_choice e t1) as [[y| |] t2] eqn:Hy; simpl in F2;
    try discriminate; [|congruence].
  pose proof (eliminate_evolves _ _ He) as E1.
  pose proof (evolves_impl fixes_shrinks (only_choice_evolves _ _ Hy)) as E2.
  destruct (count_len 0 y =? 0)%nat eqn:E0; simpl; [|discriminate].
  destruct (count_len 1 values =? count_len 1 y)%nat eqn:Ec; [discriminate|].
  apply Nat.eqb_eq in E0. apply Nat.eqb_neq in Ec.
  pose proof (count_fixed_mono (evolves_trans shrinks_trans E1 E2) E0).
  apply IH.
  pose proof (count_len_le 1 y) as Hle.
  rewrite (evolves_length E2), (evolves_length E1) in *. lia.
Qed.

Lemma reduce_puzzle_fuelled values : fuelled (reduce_puzzle values).
Proof.
  apply reduce_puzzle_loop_fuelled. pose proof (count_len_le 1 values). lia.
Qed.
#[export] Hint Resolve reduce_puzzle_fuelled : fuelled.

(** Fuel beyond what a run uses changes nothing. *)
Lemma reduce_puzzle_loop_more_fuel fuel : forall values t fuel',
  fst (reduce_puzzle_loop fuel values t) <> OutOfFuel -> fuel <= fuel' ->
  reduce_puzzle_loop fuel' values t = reduce_puzzle_loop fuel values t.
Proof.
  induction fuel as [|fuel IH]; intros values t fuel' H Hle;
    [now destruct H|].
  destruct fuel' as [|fuel']; [lia|].
  cbn [reduce_puzzle_loop] in *. unfold bind at 1 3. unfold bind at 1 in H.
  destruct (eliminate values t) as [[e| |] t1]; try reflexivity.
  unfold bind at 1 2. unfold bind at 1 in H.
  destruct (only_choice e t1) as [[y| |] t2]; try reflexivity.
  destruct (negb (count_len 0 y =? 0)%nat); [reflexivity|].
  destruct (count_len 1 values =? count_len 1 y)%nat; [reflexivity|].
  apply IH; [exact H | lia].
Qed.

(** ** Claims about reduce_puzzle *)

(** C7: [reduce_puzzle] is idempotent on its outputs.  If
    [reduce_puzzle x] returns a board [y] other than the failure value
    [{}], then [reduce_puzzle y] returns [y], whatever the trace holds
    when it is called. *)
Theorem reduce_puzzle_idempotent x t y t' :
  reduce_puzzle x t = (Ok y, t') -> y <> [] ->
  forall t0, fst (reduce_puzzle y t0) = Ok y.
Proof.
  intros H Hy t0. apply reduce_puzzle_loop_Ok in H; [|exact Hy].
  destruct H as (_ & H0 & S & O).
  unfold reduce_puzzle. cbn [reduce_puzzle_loop]. unfold bind at 1.
  pose proof (eliminate_idle t0 S) as He.
  destruct (eliminate y t0) as [o t1]. simpl in He. subst o.
  unfold bind at 1. specialize (O t1).
  destruct (only_choice y t1) as [o t2]. simpl in O. subst o.
  rewrite H0, !Nat.eqb_refl. reflexivity.
Qed.

Lemma reduce_puzzle_idempotent_witness :
  fst (reduce_puzzle blank_board []) = Ok blank_board.
Proof.
  apply (@reduce_puzzle_idempotent blank_board [] blank_board []).
  - vm_compute. reflexivity.
  - discriminate.
Defined.

(** C3, as the specification words it, fails: a pass of the loop can
    lower the number of fixed boxes. *)
Lemma fixed_count_can_drop :
  ~ (forall values t e t1 y t2,
       eliminate values t = (Ok e, t1) -> only_choice e t1 = (Ok y, t2) ->
       count_len 1 values <= count_len 1 y).
Proof.
  intros H.
  destruct (eliminate (grid_values two_fives) []) as [[e| |] t1] eqn:He;
    try (vm_compute in He; discriminate).
  destruct (only_choice e t1) as [[y| |] t2] eqn:Hy;
    try (vm_compute in He; inversion He; subst;
         vm_compute in Hy; discriminate).
  specialize (H _ _ _ _ _ _ He Hy).
  vm_compute in He. inversion He; subst. clear He.
  vm_compute in Hy. inversion Hy; subst. clear Hy.
  vm_compute in H. lia.
Qed.

(** ** naked_twins only appends, and needs no fuel *)

Lemma appends_group_boxes values unit : forall ctb,
  appends (group_boxes values ctb unit).
Proof.
  induction unit as [|b unit IH]; intros ctb; simpl; repeat appends_step.
Qed.
#[export] Hint Resolve appends_group_boxes : appends.

Lemma appends_twins_peers choices ps : forall values,
  appends (twins_peers values choices ps).
Proof.
  induction ps as [|p ps IH]; intros values; simpl; repeat appends_step.
Qed.
#[export] Hint Resolve appends_twins_peers : appends.

Lemma appends_twins_groups unit groups : forall values,
  appends (twins_groups values unit groups).
Proof.
  induction groups as [|[c bs] groups IH]; intros values; simpl;
    repeat appends_step.
Qed.
#[export] Hint Resolve appends_twins_groups : appends.

Lemma appends_twins_unit values unit : appends (twins_unit values unit).
Proof. unfold twins_unit. repeat appends_step. Qed.
#[export] Hint Resolve appends_twins_unit : appends.

Lemma appends_twins_units us : forall values,
  appends (twins_units values us).
Proof.
  induction us as [|u us IH]; intros values; simpl; repeat appends_step.
Qed.
#[export] Hint Resolve appends_twins_units : appends.

Lemma appends_naked_twins values : appends (naked_twins values).
Proof. unfold naked_twins. repeat appends_step. Qed.
#[export] Hint Resolve appends_naked_twins : appends.

Lemma appends_extends {A} (m : M A) t : appends m -> extends t (snd (m t)).
Proof. apply appends_prefix. Qed.

(** ** The assignment trace *)

(** C10: a call [assign_value(values, box, v)] with [len(v) == 1] always
    appends a snapshot of the board, also when [values[box]] is [v]
    already, in which case the snapshot is the unchanged board;
    [only_choice] on a solved board re-assigns every box once per unit it
    lies in and so writes the same snapshot 261 times in a row; and every
    operation leaves the trace it found as a prefix of the trace it
    leaves. *)
Theorem assign_value_always_records values box v t :
  String.length v = 1 ->
  assign_value values box v t
    = (Ok (set values box v), t ++ [set values box v]) /\
  (get values box = Some v ->
   assign_value values box v t = (Ok values, t ++ [values])) /\
  only_choice solved_board [] = (Ok solved_board, repeat solved_board 261) /\
  (forall values box v fuel grid t,
     extends t (snd (assign_value values box v t)) /\
     extends t (snd (eliminate values t)) /\
     extends t (snd (only_choice values t)) /\
     extends t (snd (naked_twins values t)) /\
     extends t (snd (reduce_puzzle values t)) /\
     extends t (snd (search fuel values t)) /\
     extends t (snd (solve fuel grid t))).
Proof.
  intros L.
  assert (H : assign_value values box v t
              = (Ok (set values box v), t ++ [set values box v])).
  { unfold assign_value. now rewrite L. }
  split; [exact H|]. split; [|split].
  - intros Hg. now rewrite H, (set_same _ _ Hg).
  - vm_compute. reflexivity.
  - intros. repeat split; apply appends_extends; auto with appends.
    apply appends_solve.
Qed.

Lemma assign_value_always_records_witness :
  assign_value [("A1", "5")] "A1" "5" []
  = (Ok [("A1", "5")], [[("A1", "5")]]).
Proof.
  apply (@assign_value_always_records [("A1", "5")] "A1" "5" []).
  - reflexivity.
  - reflexivity.
Defined.

(** ** solve on contradictory givens *)

(** C2 (the code's behaviour, against the claim): on a grid with two
    givens 5 in row A, [reduce_puzzle] returns [{}], [search] then runs
    [reduce_puzzle] on [{}], and [only_choice] raises [KeyError('A1')]:
    [solve] does not return the failure value. *)
Theorem solve_two_fives_raises fuel t :
  fst (reduce_puzzle (grid_values two_fives) t) = Ok [] /\
  fst (solve (S fuel) two_fives t) = KeyError "A1".
Proof.
  split.
  - rewrite (appends_fst t [] (appends_reduce_puzzle _)).
    vm_compute. reflexivity.
  - rewrite (appends_fst t [] (appends_solve _ _)).
    unfold solve, bind.
    destruct (reduce_puzzle (grid_values two_fives) []) as [o t1] eqn:E.
    assert (Ho : o = Ok []).
    { change o with (fst (o, t1)). rewrite <- E. vm_compute. reflexivity. }
    subst o. rewrite (appends_fst t1 [] (appends_search _ _)).
    reflexivity.
Qed.


(** ** Boards of digits *)

Lemma get_In d k v : get d k = Some v -> In (k, v) d.
Proof.
  induction d as [|[k0 v0] d IH]; simpl; [discriminate|].
  destruct (String.eqb k k0) eqn:E.
  - apply String.eqb_eq in E. intros H. inversion H; subst. now left.
  - intros H. right. now apply IH.
Qed.

Lemma digit_board_evolves d d' :
  evolves shrinks d d' -> digit_board d -> digit_board d'.
Proof.
  induction 1 as [|e e' d d' [_ (I & _)] _ IH]; intros H;
    inversion H; subst; constructor.
  - eapply incl_tran; eassumption.
  - now apply IH.
Qed.

Lemma digit_board_set d k v :
  digit_board d -> incl (chars v) (chars all_digits) ->
  digit_board (set d k v).
Proof.
  intros H I. induction H as [|[k0 v0] d H0 H IH]; simpl.
  - constructor; [exact I | constructor].
  - destruct (String.eqb k k0); constructor; auto.
Qed.

Lemma digit_board_get d k v :
  digit_board d -> get d k = Some v -> incl (chars v) (chars all_digits).
Proof.
  intros H Hg. apply get_In in Hg. unfold digit_board in H.
  rewrite Forall_forall in H. exact (H _ Hg).
Qed.

Lemma digit_board_grid_values grid :
  Forall (fun c => c = "."%char \/ In c (chars all_digits)) (chars grid) ->
  digit_board (grid_values grid).
Proof.
  unfold grid_values. generalize boxes. generalize (chars grid).
  intros cs0 bs0 H. revert bs0. induction H as [|c cs Hc _ IH]; intros bs;
    destruct bs as [|b bs]; simpl; try constructor.
  - simpl. destruct (Ascii.eqb c ".") eqn:E; [apply incl_refl|].
    destruct Hc as [->|Hc]; [now rewrite Ascii.eqb_refl in E|].
    intros x [<-|[]]. exact Hc.
  - apply IH.
Qed.

(** ** Units of a settled board *)

(** Two different boxes of one unit are peers. *)
Lemma in_unit_mates (ul : list (list string)) u b1 b2 :
  In u ul -> In b1 u -> In b2 u -> b1 <> b2 ->
  In b2 (set_diff (to_set (concat (filter (fun u => mem b1 u) ul))) [b1]).
Proof.
  intros Hu H1 H2 N. unfold set_diff. apply filter_In. split.
  - apply to_set_In, in_concat. exists u. split; [|exact H2].
    apply filter_In. split; [exact Hu | now apply mem_In].
  - apply negb_true_iff, mem_false. intros [E|[]]. now apply N.
Qed.

Lemma unit_peers u b1 b2 ps :
  In u unitlist -> In b1 u -> In b2 u -> b1 <> b2 ->
  peers b1 = Some ps -> In b2 ps.
Proof.
  unfold peers, units. generalize unitlist, boxes. intros ul bs Hu H1 H2 N.
  destruct (mem b1 bs); [|discriminate].
  intros H. injection H as <-. now apply in_unit_mates with (u := u).
Qed.

Lemma read_unit_Some d u :
  (forall b, In b u -> exists v, get d b = Some v) ->
  exists vs, read_unit d u = Some vs /\
    Forall2 (fun b v => get d b = Some v) u vs.
Proof.
  induction u as [|b u IH]; intros H; simpl.
  - exists []. split; [reflexivity | constructor].
  - destruct (H b (or_introl eq_refl)) as [v Hv].
    destruct IH as (vs & Hr & HF); [intros b' Hb'; apply H; now right|].
    exists (v :: vs). rewrite Hv, Hr. split; [reflexivity|].
    now constructor.
Qed.

Lemma filter_nil {A} (f : A -> bool) l :
  filter f l = [] -> Forall (fun x => f x = false) l.
Proof.
  induction l as [|x l IH]; simpl; [constructor|].
  destruct (f x) eqn:E; [discriminate|]. intros H. constructor; auto.
Qed.

Lemma no_empty_Forall d :
  count_len 0 d = 0 -> Forall (fun e => String.length (snd e) <> 0) d.
Proof.
  intros H. unfold count_len in H. apply length_zero_iff_nil, filter_nil in H.
  eapply Forall_impl; [|exact H]. simpl. intros e E. now apply Nat.eqb_neq.
Qed.

Lemma all_fixed d :
  count_len 0 d = 0 ->
  keys (filter (fun sc => (1 <? String.length (snd sc))%nat) d) = [] ->
  solved d.
Proof.
  intros H0 H1. apply no_empty_Forall in H0.
  apply map_eq_nil, filter_nil in H1.
  unfold solved. rewrite Forall_forall in *. intros e He.
  specialize (H0 e He). specialize (H1 e He). apply Nat.ltb_ge in H1. lia.
Qed.

(** On a solved and settled board of digits, the values of a unit are the
    nine digits in some order. *)
Lemma unit_is_permutation d u vs :
  In u unitlist -> NoDup u -> length u = 9 ->
  solved d -> settled d -> digit_board d ->
  Forall2 (fun b v => get d b = Some v) u vs ->
  Permutation vs digits.
Proof.
  intros Hu Hnd Hlen Hs Hset Hdb HF.
  apply NoDup_Permutation_bis.
  - (* the values are pairwise distinct *)
    assert (Hin : forall b v, In b u -> get d b = Some v ->
              forall v', In v' vs -> False -> True) by auto.
    clear Hin Hlen.
    assert (Hsub : incl u u) by apply incl_refl.
    revert Hsub HF Hnd. generalize u at 1 3 4. intros w.
    intros Hsub HF. induction HF as [|b v w vs Hb HF IH]; intros Hnd;
      [constructor|].
    inversion Hnd as [|? ? Hnb Hnd']; subst. constructor.
    + intros Hv.
      assert (Hex : exists b', In b' w /\ get d b' = Some v).
      { clear -HF Hv. induction HF as [|b' v' w vs Hb' HF IH];
          [destruct Hv|].
        destruct Hv as [->|Hv]; [exists b'; split; [now left | exact Hb']|].
        destruct (IH Hv) as (b'' & Hin & Hg). exists b''. split;
          [now right | exact Hg]. }
      destruct Hex as (b' & Hb' & Hg').
      assert (L : String.length v = 1).
      { unfold solved in Hs. rewrite Forall_forall in Hs.
        exact (Hs _ (get_In _ _ Hb)). }
      apply length_1_str in L. destruct L as [c ->].
      destruct (Hset b c Hb) as (ps & Hp & Hc).
      assert (Hbb : b <> b') by (intros ->; contradiction).
      pose proof (unit_peers Hu (Hsub b (or_introl eq_refl))
                    (Hsub b' (or_intror Hb')) Hbb Hp) as Hin.
      destruct (Hc b' Hin) as (s & Hgs & Hno).
      rewrite Hg' in Hgs. inversion Hgs; subst s.
      apply has_char_false in Hno. apply Hno. now left.
    + apply IH; [|exact Hnd']. intros x Hx. apply Hsub. now right.
  - rewrite <- (Forall2_length HF), Hlen. reflexivity.
  - intros v Hv.
    assert (Hex : exists b, get d b = Some v).
    { clear -HF Hv. induction HF as [|b' v' w vs Hb' HF IH];
        [destruct Hv|].
      destruct Hv as [->|Hv]; [now exists b' | now apply IH]. }
    destruct Hex as (b & Hb).
    assert (L : String.length v = 1).
    { unfold solved in Hs. rewrite Forall_forall in Hs.
      exact (Hs _ (get_In _ _ Hb)). }
    apply length_1_str in L. destruct L as [c ->].
    pose proof (digit_board_get _ Hdb Hb) as I.
    unfold digits. apply in_map. apply I. now left.
Qed.

Lemma unitlist_units u :
  In u unitlist -> NoDup u /\ length u = 9.
Proof.
  intros Hu.
  assert (H : forallb (fun u => Nat.eqb (length u) 9 && nodupb u) unitlist
              = true) by (vm_compute; reflexivity).
  rewrite forallb_forall in H. specialize (H u Hu).
  apply andb_prop in H. destruct H as [H1 H2]. split.
  - now apply nodupb_NoDup.
  - now apply Nat.eqb_eq.
Qed.

(** What [reduce_puzzle] returns, when it is a board with every box
    fixed, is a solution. *)
Lemma fixed_result_is_solution values t y t' :
  digit_board values ->
  reduce_puzzle values t = (Ok y, t') -> y <> [] ->
  keys (filter (fun sc => (1 <? String.length (snd sc))%nat) y) = [] ->
  solved y /\
  forall u, In u unitlist ->
    exists vs, read_unit y u = Some vs /\ Permutation vs digits.
Proof.
  intros Hdb H Hy Hk.
  apply reduce_puzzle_loop_Ok in H; [|exact Hy].
  destruct H as (E & H0 & S & O).
  pose proof (all_fixed _ H0 Hk) as Hs. split; [exact Hs|].
  intros u Hu. destruct (unitlist_units Hu) as [Hnd Hlen].
  specialize (O []). unfold only_choice in O.
  destruct (only_choice_units y y unitlist []) as [o t1] eqn:Ho.
  simpl in O. subst o.
  destruct (@read_unit_Some y u) as (vs & Hr & HF).
  { intros b Hb. eapply only_choice_units_reads; eassumption. }
  exists vs. split; [exact Hr|].
  eapply unit_is_permutation; eauto.
  eapply digit_board_evolves; eassumption.
Qed.

(** ** search *)

Lemma search_digits_Ok (Q : dict -> Prop) (rec : dict -> M dict) square :
  (forall v t y t', digit_board v -> rec v t = (Ok y, t') -> y <> [] -> Q y) ->
  forall ds values t y t',
    digit_board values -> incl ds (chars all_digits) ->
    search_digits rec values square ds t = (Ok y, t') -> y <> [] -> Q y.
Proof.
  intros Hrec. induction ds as [|d ds IH]; intros values t y t' Hdb I H Hy;
    simpl in H.
  - apply ret_Ok in H. destruct H as [-> _]. now destruct Hy.
  - mstep H as v1 t1 Ha. apply assign_value_Ok in Ha. subst v1.
    mstep H as sol t2 Hr.
    assert (Hdb' : digit_board (set values square (str d))).
    { apply digit_board_set; [exact Hdb|]. intros x [<-|[]]. apply I.
      now left. }
    destruct sol as [|e sol].
    + eapply IH; [exact Hdb' | | exact H | exact Hy].
      intros x Hx. apply I. now right.
    + apply ret_Ok in H. destruct H as [-> _].
      eapply Hrec; eassumption.
Qed.

(** The two ways in which a call of [search] returns a board. *)
Lemma search_step fuel values t y t' :
  search (S fuel) values t = (Ok y, t') -> y <> [] ->
  exists v1 t1,
    reduce_puzzle values t = (Ok v1, t1) /\ v1 <> [] /\
    ((keys (filter (fun sc => (1 <? String.length (snd sc))%nat) v1) = [] /\
      y = v1) \/
     (exists sq ds t4,
        get v1 sq = Some ds /\
        search_digits (search fuel) v1 sq (chars ds) t4 = (Ok y, t'))).
Proof.
  intros H Hy. cbn [search] in H. mstep H as v1 t1 Hr.
  exists v1, t1. split; [exact Hr|].
  destruct v1 as [|e1 v1']; cbv beta iota in H.
  - apply ret_Ok in H. destruct H as [-> _]. now destruct Hy.
  - split; [discriminate|].
    destruct (keys (filter (fun sc => (1 <? String.length (snd sc))%nat)
                      (e1 :: v1'))) as [|s0 rest] eqn:Ek.
    + left. apply ret_Ok in H. destruct H as [-> _]. now split.
    + right. mstep H as k0 t2 Hk0. mstep H as sq t3 Hsq.
      mstep H as ds t4 Hds.
      apply lookup_Ok in Hds. destruct Hds as [Hds ->].
      now exists sq, ds, t3.
Qed.

Lemma search_Ok fuel : forall values t y t',
  digit_board values -> search fuel values t = (Ok y, t') -> y <> [] ->
  solved y /\
  forall u, In u unitlist ->
    exists vs, read_unit y u = Some vs /\ Permutation vs digits.
Proof.
  induction fuel as [|fuel IH]; intros values t y t' Hdb H Hy;
    [discriminate|].
  destruct (search_step _ _ _ H Hy) as (v1 & t1 & Hr & Hv1 & Hc).
  assert (Hdb1 : digit_board v1).
  { pose proof Hr as Hr'. apply reduce_puzzle_loop_Ok in Hr'; [|exact Hv1].
    destruct Hr' as (E & _). eapply digit_board_evolves; eassumption. }
  destruct Hc as [[Hk ->]|(sq & ds & t4 & Hds & Hs)].
  - apply (@fixed_result_is_solution values t v1 t1); assumption.
  - refine (@search_digits_Ok
              (fun y => solved y /\
                 forall u, In u unitlist ->
                   exists vs, read_unit y u = Some vs /\ Permutation vs digits)
              (search fuel) sq _ (chars ds) v1 t4 y t' Hdb1 _ Hs Hy).
    + intros v t0 y0 t0' Hv Hs0 Hy0. eapply IH; eassumption.
    + eapply digit_board_get; eassumption.
Qed.

(** C1: whatever [search], and hence [solve], returns other than the
    failure value [{}], for a board (or grid) of digits, has exactly one
    digit in every box, and the nine digits of every unit (rows, columns,
    squares and the two diagonals) are a permutation of 1 to 9. *)
Theorem search_sound fuel values t y t' :
  digit_board values -> y <> [] ->
  search fuel values t = (Ok y, t') \/
  (exists grid, values = grid_values grid /\
     solve fuel grid t = (Ok y, t')) ->
  solved y /\
  forall u, In u unitlist ->
    exists vs, read_unit y u = Some vs /\ Permutation vs digits.
Proof.
  intros Hdb Hy [H|(grid & -> & H)].
  - eapply search_Ok; eassumption.
  - unfold solve in H. mstep H as v1 t1 Hr.
    destruct v1 as [|e1 v1'] eqn:Ev.
    + destruct fuel as [|fuel]; [discriminate|].
      cbn [search] in H. unfold bind in H.
      rewrite (appends_reduce_puzzle [] t1) in H.
      vm_compute in H. discriminate.
    + rewrite <- Ev in *. eapply search_Ok; [| exact H | exact Hy].
      apply reduce_puzzle_loop_Ok in Hr; [|rewrite Ev; discriminate].
      destruct Hr as (E & _). eapply digit_board_evolves; eassumption.
Qed.

Lemma search_sound_witness :
  solved solved_board /\
  forall u, In u unitlist ->
    exists vs, read_unit solved_board u = Some vs /\ Permutation vs digits.
Proof.
  apply (@search_sound 1 (grid_values diag_sudoku_grid) [] solved_board
           (snd (solve 1 diag_sudoku_grid []))).
  - apply digit_board_grid_values, Forall_forall. intros c Hc.
    assert (H : forallb (fun c => Ascii.eqb c "." || has_char c all_digits)
                  (chars diag_sudoku_grid) = true) by (vm_compute; reflexivity).
    rewrite forallb_forall in H. specialize (H c Hc).
    apply orb_true_iff in H. destruct H as [H|H].
    + left. now apply Ascii.eqb_eq.
    + right. now apply has_char_In.
  - vm_compute. discriminate.
  - right. exists diag_sudoku_grid. split; [reflexivity|].
    rewrite (surjective_pairing (solve 1 diag_sudoku_grid [])) at 1.
    apply f_equal2; [vm_compute; reflexivity | reflexivity].
Defined.

(** ** naked_twins: characters and domains *)

Lemma insert_char_In c x l : In x (insert_char c l) <-> x = c \/ In x l.
Proof.
  induction l as [|y l IH]; simpl.
  - split; intros [H|H]; auto.
  - destruct (nat_of_ascii c <=? nat_of_ascii y)%nat; simpl.
    + split; intros [H|H]; auto.
    + rewrite IH. tauto.
Qed.

Lemma sort_chars_In x l : In x (sort_chars l) <-> In x l.
Proof.
  induction l as [|y l IH]; simpl; [tauto|].
  rewrite insert_char_In, IH. split; intros [H|H]; auto.
Qed.

Lemma chars_without v choices x :
  In x (chars (without v choices)) <->
  In x (chars v) /\ has_char x choices = false.
Proof.
  unfold without, char_set.
  rewrite chars_join, sort_chars_In, filter_In, nodup_In, negb_true_iff.
  tauto.
Qed.

Lemma narrows_refl s : narrows s s.
Proof. apply incl_refl. Qed.

Lemma narrows_trans s1 s2 s3 : narrows s1 s2 -> narrows s2 s3 -> narrows s1 s3.
Proof. intros H1 H2. eapply incl_tran; eassumption. Qed.

Lemma narrows_without v choices : narrows v (without v choices).
Proof. intros x Hx. now apply chars_without in Hx. Qed.

Lemma narrows_has_char c s s' :
  narrows s s' -> has_char c s = false -> has_char c s' = false.
Proof. rewrite !has_char_false. intros I N H. apply N, I, H. Qed.

Lemma without_clear v choices c :
  has_char c choices = true -> has_char c (without v choices) = false.
Proof.
  intros H. apply has_char_false. rewrite chars_without.
  intros [_ N]. congruence.
Qed.

(** ** naked_twins: the three loops *)

Lemma twins_peers_Return choices ps : forall values t d t',
  twins_peers values choices ps t = (Ok (Return d), t') -> d = [].
Proof.
  induction ps as [|p ps IH]; intros values t d t' H; simpl in H.
  - apply ret_Ok in H. destruct H; discriminate.
  - mstep H as v t1 Hv. destruct (without v choices).
    + apply ret_Ok in H. destruct H as [H _]. now inversion H.
    + mstep H as v1 t2 Ha. eapply IH, H.
Qed.

Lemma twins_groups_Return unit groups : forall values t d t',
  twins_groups values unit groups t = (Ok (Return d), t') -> d = [].
Proof.
  induction groups as [|[c bs] groups IH]; intros values t d t' H; simpl in H.
  - apply ret_Ok in H. destruct H; discriminate.
  - destruct (length bs <? 2)%nat; [eapply IH, H|].
    destruct (2 <? length bs)%nat.
    + apply ret_Ok in H. destruct H as [H _]. now inversion H.
    + mstep H as r t1 Hp. destruct r as [v1|d1].
      * eapply IH, H.
      * apply ret_Ok in H. destruct H as [H _]. inversion H; subst.
        eapply twins_peers_Return, Hp.
Qed.

Lemma twins_units_Return us : forall values t d t',
  twins_units values us t = (Ok (Return d), t') -> d = [].
Proof.
  induction us as [|u us IH]; intros values t d t' H; simpl in H.
  - apply ret_Ok in H. destruct H; discriminate.
  - mstep H as r t1 Hu. destruct r as [v1|d1].
    + eapply IH, H.
    + apply ret_Ok in H. destruct H as [H _]. inversion H; subst.
      unfold twins_unit in Hu. mstep Hu as g t2 Hg.
      eapply twins_groups_Return, Hu.
Qed.

(** A loop that goes on leaves a board with the same keys and narrower
    domains, from which the candidates of a processed pair are gone. *)
Lemma twins_peers_Continue choices ps : forall values t v' t',
  twins_peers values choices ps t = (Ok (Continue v'), t') ->
  evolves narrows values v' /\
  forall p, In p ps ->
    exists s, get v' p = Some s /\
      forall c, has_char c choices = true -> has_char c s = false.
Proof.
  induction ps as [|p ps IH]; intros values t v' t' H; simpl in H.
  - apply ret_Ok in H. destruct H as [H _]. inversion H; subst. split.
    + apply evolves_refl, narrows_refl.
    + intros p [].
  - mstep H as v t1 Hv. apply lookup_Ok in Hv. destruct Hv as [Hv ->].
    destruct (without v choices) as [|a w] eqn:Ew.
    + apply ret_Ok in H. destruct H; discriminate.
    + rewrite <- Ew in *. mstep H as v1 t2 Ha.
      apply assign_value_Ok in Ha. subst v1.
      apply IH in H. destruct H as [E Hc].
      assert (E1 : evolves narrows values (set values p (without v choices))).
      { eapply evolves_set; [apply evolves_refl, narrows_refl | exact Hv |].
        intros s0 Hs0. rewrite Hv in Hs0. inversion Hs0; subst.
        apply narrows_without. }
      split.
      * eapply evolves_trans; [apply narrows_trans | exact E1 | exact E].
      * intros p' [<-|Hp']; [|now apply Hc].
        destruct (evolves_get p E (get_set_same values p _)) as (s & Hs & N).
        exists s. split; [exact Hs|]. intros c Hcc.
        eapply narrows_has_char; [exact N | now apply without_clear].
Qed.

Lemma twins_groups_Continue unit groups : forall values t v' t',
  twins_groups values unit groups t = (Ok (Continue v'), t') ->
  evolves narrows values v'.
Proof.
  induction groups as [|[c bs] groups IH]; intros values t v' t' H; simpl in H.
  - apply ret_Ok in H. destruct H as [H _]. inversion H; subst.
    apply evolves_refl, narrows_refl.
  - destruct (length bs <? 2)%nat; [eapply IH, H|].
    destruct (2 <? length bs)%nat.
    + apply ret_Ok in H. destruct H; discriminate.
    + mstep H as r t1 Hp. destruct r as [v1|d1].
      * apply twins_peers_Continue in Hp. destruct Hp as [E1 _].
        apply IH in H.
        eapply evolves_trans; [apply narrows_trans | exact E1 | exact H].
      * apply ret_Ok in H. destruct H; discriminate.
Qed.

Lemma twins_unit_Continue values unit t v' t' :
  twins_unit values unit t = (Ok (Continue v'), t') ->
  evolves narrows values v'.
Proof.
  unfold twins_unit. intros H. mstep H as g t1 Hg.
  eapply twins_groups_Continue, H.
Qed.

Lemma twins_units_Continue us : forall values t v' t',
  twins_units values us t = (Ok (Continue v'), t') ->
  evolves narrows values v'.
Proof.
  induction us as [|u us IH]; intros values t v' t' H; simpl in H.
  - apply ret_Ok in H. destruct H as [H _]. inversion H; subst.
    apply evolves_refl, narrows_refl.
  - mstep H as r t1 Hu. destruct r as [v1|d1].
    + apply twins_unit_Continue in Hu. apply IH in H.
      eapply evolves_trans; [apply narrows_trans | exact Hu | exact H].
    + apply ret_Ok in H. destruct H; discriminate.
Qed.

(** Loops over a list in two parts. *)
Lemma twins_peers_app choices ps1 ps2 : forall values t,
  twins_peers values choices (ps1 ++ ps2) t =
  match twins_peers values choices ps1 t with
  | (Ok (Continue v1), t1) => twins_peers v1 choices ps2 t1
  | r => r
  end.
Proof.
  induction ps1 as [|p ps1 IH]; intros values t; simpl; [reflexivity|].
  unfold bind at 1 3. destruct (lookup values p t) as [[v| |] t1];
    try reflexivity.
  destruct (without v choices); [reflexivity|].
  unfold bind at 1 2.
  destruct (assign_value values p _ t1) as [[v1| |] t2]; try reflexivity.
  apply IH.
Qed.

Lemma twins_groups_app unit g1 g2 : forall values t,
  twins_groups values unit (g1 ++ g2) t =
  match twins_groups values unit g1 t with
  | (Ok (Continue v1), t1) => twins_groups v1 unit g2 t1
  | r => r
  end.
Proof.
  induction g1 as [|[c bs] g1 IH]; intros values t; simpl; [reflexivity|].
  destruct (length bs <? 2)%nat; [apply IH|].
  destruct (2 <? length bs)%nat; [reflexivity|].
  unfold bind at 1 2.
  destruct (twins_peers values c _ t) as [[[v1|d]| |] t1]; try reflexivity.
  apply IH.
Qed.

Lemma twins_units_app us1 us2 : forall values t,
  twins_units values (us1 ++ us2) t =
  match twins_units values us1 t with
  | (Ok (Continue v1), t1) => twins_units v1 us2 t1
  | r => r
  end.
Proof.
  induction us1 as [|u us1 IH]; intros values t; simpl; [reflexivity|].
  unfold bind at 1 2.
  destruct (twins_unit values u t) as [[[v1|d]| |] t1]; try reflexivity.
  apply IH.
Qed.

(** ** naked_twins: grouping the boxes of a unit *)

Lemma add_box_keys G c b c' :
  In c' (map fst (add_box G c b)) <-> c' = c \/ In c' (map fst G).
Proof.
  induction G as [|[c0 bs0] G IH]; simpl.
  - split; intros [H|H]; auto.
  - destruct (String.eqb c c0) eqn:E; simpl.
    + apply String.eqb_eq in E. subst c0. split; intros H; [tauto|].
      destruct H as [H|H]; [now left | exact H].
    + rewrite IH. tauto.
Qed.

Lemma add_box_NoDup G c b :
  NoDup (map fst G) -> NoDup (map fst (add_box G c b)).
Proof.
  induction G as [|[c0 bs0] G IH]; simpl; intros H.
  - constructor; [intros [] | constructor].
  - inversion H as [|? ? Hn Hd]; subst.
    destruct (String.eqb c c0) eqn:E; simpl.
    + now constructor.
    + constructor; [|now apply IH].
      rewrite add_box_keys. intros [->|Hin]; [|contradiction].
      now rewrite String.eqb_refl in E.
Qed.

Lemma add_box_In G c b c' bs' :
  NoDup (map fst G) -> In (c', bs') (add_box G c b) ->
  (c' <> c /\ In (c', bs') G) \/
  (c' = c /\
   ((exists bs, In (c, bs) G /\ bs' = if mem b bs then bs else bs ++ [b]) \/
    (~ In c (map fst G) /\ bs' = [b]))).
Proof.
  induction G as [|[c0 bs0] G IH]; simpl; intros Hnd.
  - intros [H|[]]. inversion H; subst. right. split; [reflexivity|].
    right. split; [tauto | reflexivity].
  - inversion Hnd as [|? ? Hn Hd]; subst.
    destruct (String.eqb c c0) eqn:E; simpl.
    + apply String.eqb_eq in E. subst c0. intros [H|H].
      * inversion H; subst. right. split; [reflexivity|]. left.
        exists bs0. split; [now left | reflexivity].
      * left. split; [|now right].
        intros ->. apply Hn. apply in_map_iff. now exists (c, bs').
    + apply String.eqb_neq in E. intros [H|H].
      * inversion H; subst. left. split; [congruence | now left].
      * destruct (IH Hd H) as [[N Hin]|[-> [(bs & Hin & ->)|[Hk ->]]]].
        -- left. split; [exact N | now right].
        -- right. split; [reflexivity|]. left. exists bs.
           split; [now right | reflexivity].
        -- right. split; [reflexivity|]. right. split; [|reflexivity].
           intros [->|Hk']; [now apply E | contradiction].
Qed.

Lemma shares_snoc values done c b b' :
  shares values (done ++ [b]) c b' <->
  shares values done c b' \/
  (b' = b /\ exists v, get values b = Some v /\ canonicalize v = c).
Proof.
  unfold shares. rewrite in_app_iff. simpl. split.
  - intros [[H|[<-|[]]] Hv]; [left; now split | right; now split].
  - intros [[H Hv]|[-> Hv]]; (split; [|exact Hv]); auto.
Qed.

Lemma grouped_nil values : grouped values [] [].
Proof.
  split; [constructor|]. split.
  - intros c bs [].
  - intros b v [].
Qed.

Lemma grouped_skip values done G b v :
  grouped values done G -> get values b = Some v ->
  String.length (canonicalize v) <> 2 ->
  grouped values (done ++ [b]) G.
Proof.
  intros (Hk & He & Hc) Hv L. split; [exact Hk|]. split.
  - intros c bs Hin. destruct (He c bs Hin) as (Hnd & L2 & Hsh).
    split; [exact Hnd|]. split; [exact L2|]. intros b0.
    rewrite shares_snoc, Hsh. split; [tauto|].
    intros [Hb|[-> (v' & Hv' & Hcan)]]; [exact Hb|].
    rewrite Hv in Hv'. inversion Hv'; subst v'.
    rewrite Hcan in L. contradiction.
  - intros b' v' Hb' Hv' L'. apply in_app_iff in Hb'.
    destruct Hb' as [Hb'|[<-|[]]]; [now apply (Hc b' v')|].
    rewrite Hv in Hv'. inversion Hv'; subst v'. contradiction.
Qed.

Lemma grouped_add values done G b v :
  grouped values done G -> get values b = Some v ->
  String.length (canonicalize v) = 2 ->
  grouped values (done ++ [b]) (add_box G (canonicalize v) b).
Proof.
  intros (Hk & He & Hc) Hv L. split; [now apply add_box_NoDup|]. split.
  - intros c bs Hin. apply (add_box_In _ _ _ _ _ Hk) in Hin.
    destruct Hin as [[N Hin]|[-> [(bs0 & Hin & ->)|[Hn ->]]]].
    + destruct (He c bs Hin) as (Hnd & L2 & Hsh).
      split; [exact Hnd|]. split; [exact L2|]. intros b0.
      rewrite shares_snoc, Hsh. split; [tauto|].
      intros [Hb|[-> (v' & Hv' & Hcan)]]; [exact Hb|].
      rewrite Hv in Hv'. inversion Hv'; subst v'. now destruct N.
    + destruct (He _ bs0 Hin) as (Hnd & L2 & Hsh).
      assert (Hb : shares values (done ++ [b]) (canonicalize v) b).
      { apply shares_snoc. right. split; [reflexivity|]. now exists v. }
      destruct (mem b bs0) eqn:M.
      * apply mem_In in M.
        split; [exact Hnd|]. split; [exact L|]. intros b0.
        rewrite shares_snoc, Hsh. split; [tauto|].
        intros [H|[-> _]]; [exact H | now apply Hsh].
      * apply mem_false in M. split; [|split; [exact L|]].
        -- apply NoDup_app; [exact Hnd | | ].
           ++ constructor; [intros [] | constructor].
           ++ intros x Hx [<-|[]]. contradiction.
        -- intros b0. rewrite shares_snoc, in_app_iff, Hsh. simpl.
           split.
           ++ intros [H|[<-|[]]]; [now left|]. right.
              split; [reflexivity|]. now exists v.
           ++ intros [H|[-> _]]; [now left | right; now left].
    + split; [constructor; [intros [] | constructor]|]. split; [exact L|].
      intros b0. rewrite shares_snoc. simpl. split.
      * intros [<-|[]]. right. split; [reflexivity|]. now exists v.
      * intros [[Hb (v' & Hv' & Hcan)]|[-> _]]; [|now left].
        exfalso. apply Hn. rewrite <- Hcan. apply (Hc b0 v' Hb Hv').
        now rewrite Hcan.
  - intros b' v' Hb' Hv' L'. apply add_box_keys. apply in_app_iff in Hb'.
    destruct Hb' as [Hb'|[<-|[]]].
    + right. now apply (Hc b' v').
    + left. rewrite Hv in Hv'. now inversion Hv'.
Qed.

Lemma group_boxes_grouped values unit : forall done G t G' t',
  grouped values done G ->
  group_boxes values G unit t = (Ok G', t') ->
  grouped values (done ++ unit) G' /\ t' = t.
Proof.
  induction unit as [|b unit IH]; intros done G t G' t' HG H; simpl in H.
  - apply ret_Ok in H. destruct H as [-> ->]. now rewrite app_nil_r.
  - mstep H as v t1 Hv. apply lookup_Ok in Hv. destruct Hv as [Hv ->].
    replace (done ++ b :: unit) with ((done ++ [b]) ++ unit)
      by (rewrite <- app_assoc; reflexivity).
    destruct (String.length (canonicalize v) =? 2)%nat eqn:E; simpl in H.
    + apply Nat.eqb_eq in E. eapply IH; [|exact H].
      now apply grouped_add.
    + apply Nat.eqb_neq in E. eapply IH; [|exact H].
      eapply grouped_skip; eassumption.
Qed.

(** ** naked_twins: where a contradiction is signalled *)

Lemma twins_peers_Return_inv choices ps : forall values t d t',
  twins_peers values choices ps t = (Ok (Return d), t') ->
  exists pbefore p pafter v3,
    ps = pbefore ++ p :: pafter /\
    twins_peers values choices pbefore t = (Ok (Continue v3), t') /\
    emptied_by v3 choices p.
Proof.
  induction ps as [|p ps IH]; intros values t d t' H; simpl in H.
  - apply ret_Ok in H. destruct H; discriminate.
  - mstep H as v t1 Hv. apply lookup_Ok in Hv. destruct Hv as [Hv ->].
    destruct (without v choices) as [|a w] eqn:Ew.
    + apply ret_Ok in H. destruct H as [_ ->].
      exists [], p, ps, values. repeat split. now exists v.
    + rewrite <- Ew in *. mstep H as v1 t2 Ha.
      destruct (IH _ _ _ _ H) as (pb & p' & pa & v3 & -> & Hb & He).
      exists (p :: pb), p', pa, v3. repeat split; [|exact He].
      simpl. unfold bind at 1. unfold lookup. rewrite Hv. cbn [ret].
      rewrite Ew. rewrite <- Ew. unfold bind at 1. rewrite Ha. exact Hb.
Qed.

Lemma twins_groups_Return_inv unit G : forall values t d t',
  twins_groups values unit G t = (Ok (Return d), t') ->
  exists gpre choices bs gpost v2 t2,
    G = gpre ++ (choices, bs) :: gpost /\
    twins_groups values unit gpre t = (Ok (Continue v2), t2) /\
    ((2 < length bs /\ t' = t2) \/
     (length bs = 2 /\
      twins_peers v2 choices (set_diff (to_set unit) (to_set bs)) t2
      = (Ok (Return d), t'))).
Proof.
  induction G as [|[c bs] G IH]; intros values t d t' H; simpl in H.
  - apply ret_Ok in H. destruct H; discriminate.
  - destruct (length bs <? 2)%nat eqn:E1.
    + destruct (IH _ _ _ _ H) as (gp & c' & bs' & gq & v2 & t2 & -> & Hg & Hc).
      exists ((c, bs) :: gp), c', bs', gq, v2, t2. repeat split; [|exact Hc].
      simpl. now rewrite E1.
    + apply Nat.ltb_ge in E1. destruct (2 <? length bs)%nat eqn:E2.
      * apply Nat.ltb_lt in E2. apply ret_Ok in H. destruct H as [_ ->].
        exists [], c, bs, G, values, t. repeat split. left. now split.
      * apply Nat.ltb_ge in E2. mstep H as r t1 Hp. destruct r as [v1|d1].
        -- destruct (IH _ _ _ _ H)
             as (gp & c' & bs' & gq & v2 & t2 & -> & Hg & Hc).
           exists ((c, bs) :: gp), c', bs', gq, v2, t2.
           repeat split; [|exact Hc].
           simpl. replace (length bs <? 2)%nat with false
             by (symmetry; apply Nat.ltb_ge; lia).
           replace (2 <? length bs)%nat with false
             by (symmetry; apply Nat.ltb_ge; lia).
           unfold bind at 1. rewrite Hp. exact Hg.
        -- apply ret_Ok in H. destruct H as [H ->]. inversion H; subst d1.
           exists [], c, bs, G, values, t. repeat split. right.
           split; [lia | exact Hp].
Qed.

Lemma twins_units_Return_inv us : forall values t d t',
  twins_units values us t = (Ok (Return d), t') ->
  exists pre unit post v1 t1,
    us = pre ++ unit :: post /\
    twins_units values pre t = (Ok (Continue v1), t1) /\
    twins_unit v1 unit t1 = (Ok (Return d), t').
Proof.
  induction us as [|u us IH]; intros values t d t' H; simpl in H.
  - apply ret_Ok in H. destruct H; discriminate.
  - mstep H as r t1 Hu. destruct r as [v1|d1].
    + destruct (IH _ _ _ _ H) as (pre & u' & post & v2 & t2 & -> & Hp & Hr).
      exists (u :: pre), u', post, v2, t2. repeat split; [|exact Hr].
      simpl. unfold bind at 1. rewrite Hu. exact Hp.
    + apply ret_Ok in H. destruct H as [H ->]. inversion H; subst d1.
      exists [], u, us, values, t. repeat split. exact Hu.
Qed.

Lemma unitlist_first : exists b u us, unitlist = (b :: u) :: us.
Proof. do 3 eexists. vm_compute. reflexivity. Qed.

(** The loop over the units never ends normally with an empty board. *)
Lemma twins_units_not_empty values t t' :
  twins_units values unitlist t <> (Ok (Continue []), t').
Proof.
  intros H. pose proof (twins_units_Continue _ _ _ H) as E.
  inversion E; subst. destruct unitlist_first as (b & u & us & Eu).
  rewrite Eu in H. cbn in H. discriminate.
Qed.

(** ** naked_twins: what a pair clears *)

Lemma pair_length (l : list string) X Y :
  NoDup l -> X <> Y -> (forall b, In b l <-> b = X \/ b = Y) -> length l = 2.
Proof.
  intros Hnd N H.
  assert (P : Permutation l [X; Y]).
  { apply NoDup_Permutation; [exact Hnd | |].
    - constructor; [intros [E|[]]; now apply N | constructor;
        [intros [] | constructor]].
    - intros b. rewrite H. simpl. intuition auto. }
  now rewrite (Permutation_length P).
Qed.

(** C5 (as the code has it): [naked_twins] takes the units in the order
    of the unit list, each on the board as the units before it have left
    it.  If, when the turn of a unit comes, two of its boxes X and Y hold
    exactly the candidates d1 and d2 and no other box of the unit does,
    and [naked_twins] returns a board other than [{}], then in that
    board no box of the unit other than X and Y has d1 or d2. *)
Theorem naked_twins_clears_unit values t v' t' pre unit post v1 t1
  X Y sx sy d1 d2 :
  unitlist = pre ++ unit :: post ->
  twins_units values pre t = (Ok (Continue v1), t1) ->
  naked_twins values t = (Ok v', t') -> v' <> [] ->
  In X unit -> In Y unit -> X <> Y ->
  get v1 X = Some sx -> canonicalize sx = join [d1; d2] ->
  get v1 Y = Some sy -> canonicalize sy = join [d1; d2] ->
  (forall Z sz, In Z unit -> Z <> X -> Z <> Y -> get v1 Z = Some sz ->
     canonicalize sz <> join [d1; d2]) ->
  forall Z, In Z unit -> Z <> X -> Z <> Y ->
    exists s, get v' Z = Some s /\
      has_char d1 s = false /\ has_char d2 s = false.
Proof.
  intros Eu Hp H Hv' HX HY N HsX HcX HsY HcY Hoth Z HZ NX NY.
  set (c := join [d1; d2]) in *.
  (* the loop over the units ended normally *)
  unfold naked_twins in H. mstep H as r t2 Hu. destruct r as [v|d];
    apply ret_Ok in H; destruct H as [<- ->];
    [|apply twins_units_Return in Hu; contradiction].
  rewrite Eu, twins_units_app, Hp in Hu. cbn [twins_units] in Hu.
  mstep Hu as r t3 Hun. destruct r as [v2|d];
    [|apply ret_Ok in Hu; destruct Hu; discriminate].
  pose proof (twins_units_Continue _ _ _ Hu) as E2.
  (* the groups of the unit *)
  unfold twins_unit in Hun. mstep Hun as G t4 Hg.
  destruct (group_boxes_grouped _ _ (grouped_nil v1) Hg) as [HG ->].
  simpl in HG. destruct HG as (Hk & He & Hc).
  assert (Hin : In c (map fst G)).
  { rewrite <- HcX. apply (Hc X sx HX HsX). rewrite HcX. reflexivity. }
  apply in_map_iff in Hin. destruct Hin as ([c' bs] & Ec & Hin).
  simpl in Ec. subst c'.
  destruct (He c bs Hin) as (Hnd & _ & Hsh).
  assert (Hbs : forall b, In b bs <-> b = X \/ b = Y).
  { intros b. rewrite Hsh. split.
    - intros [Hb (v & Hv & Hcan)].
      destruct (string_dec b X) as [|NbX]; [now left|].
      destruct (string_dec b Y) as [|NbY]; [now right|].
      now destruct (Hoth b v Hb NbX NbY Hv).
    - intros [->| ->]; (split; [assumption|]);
        [now exists sx | now exists sy]. }
  pose proof (pair_length Hnd N Hbs) as L.
  (* the pair is processed, and clears the other boxes *)
  destruct (in_split _ _ Hin) as (gpre & gpost & ->).
  rewrite twins_groups_app in Hun.
  destruct (twins_groups v1 unit gpre t1) as [[[v1a|d]| |] ta];
    try discriminate.
  cbn [twins_groups] in Hun. rewrite L in Hun. cbn [Nat.ltb Nat.leb] in Hun.
  mstep Hun as r tb Hpe. destruct r as [v1b|d];
    [|apply ret_Ok in Hun; destruct Hun; discriminate].
  apply twins_peers_Continue in Hpe. destruct Hpe as [_ Hclear].
  apply twins_groups_Continue in Hun.
  assert (HZp : In Z (set_diff (to_set unit) (to_set bs))).
  { unfold set_diff. apply filter_In. split; [now apply to_set_In|].
    apply negb_true_iff, mem_false. rewrite to_set_In, Hbs. tauto. }
  destruct (Hclear Z HZp) as (s1 & Hs1 & Hno).
  pose proof (evolves_trans narrows_trans Hun E2) as E.
  destruct (evolves_get Z E Hs1) as (s & Hs & Hn).
  exists s. split; [exact Hs|]. split.
  - apply (@narrows_has_char d1 s1 s Hn), Hno. unfold c, has_char. simpl.
    now rewrite Ascii.eqb_refl.
  - apply (@narrows_has_char d2 s1 s Hn), Hno. unfold c, has_char. simpl.
    rewrite Ascii.eqb_refl. apply orb_true_r.
Qed.

Lemma naked_twins_clears_unit_witness :
  exists s, get (value_of (naked_twins pair_board [])) "A3" = Some s /\
    has_char "1" s = false /\ has_char "2" s = false.
Proof.
  refine (@naked_twins_clears_unit pair_board []
            (value_of (naked_twins pair_board []))
            (snd (naked_twins pair_board []))
            [] (cross "A" cols) (tl unitlist) pair_board []
            "A1" "A2" "12" "21" "1"%char "2"%char
            _ _ _ _ _ _ _ _ _ _ _ _ "A3" _ _ _).
  - vm_compute. reflexivity.
  - reflexivity.
  - rewrite (surjective_pairing (naked_twins pair_board [])) at 1.
    apply f_equal2; [vm_compute; reflexivity | reflexivity].
  - vm_compute. discriminate.
  - vm_compute. auto.
  - vm_compute. auto.
  - discriminate.
  - vm_compute. reflexivity.
  - vm_compute. reflexivity.
  - vm_compute. reflexivity.
  - vm_compute. reflexivity.
  - intros Z sz HZ NX NY Hg. vm_compute in HZ.
    repeat (destruct HZ as [<-|HZ];
            [try congruence; vm_compute in Hg; inversion Hg; subst;
             vm_compute; discriminate|]).
    destruct HZ.
  - vm_compute. auto.
  - discriminate.
  - discriminate.
Defined.

(** C5, as the specification words it, fails: on a board where A1 and
    B1 hold 12, A2 and A3 hold 13 and every other box holds all nine
    digits, column 1 has the twins A1 and B1; row A, taken first, cuts
    A1 down to 2, the twins are gone when column 1 is reached, and D1
    keeps 1 and 2. *)
Lemma naked_twins_unit_not_cleared :
  ~ (forall values t v' t' unit X Y sx sy d1 d2,
       In unit unitlist -> In X unit -> In Y unit -> X <> Y ->
       get values X = Some sx -> canonicalize sx = join [d1; d2] ->
       get values Y = Some sy -> canonicalize sy = join [d1; d2] ->
       (forall Z sz, In Z unit -> Z <> X -> Z <> Y ->
          get values Z = Some sz -> canonicalize sz <> join [d1; d2]) ->
       naked_twins values t = (Ok v', t') -> v' <> [] ->
       forall Z, In Z unit -> Z <> X -> Z <> Y ->
         exists s, get v' Z = Some s /\
           has_char d1 s = false /\ has_char d2 s = false).
Proof.
  intros H.
  assert (Hex : exists s,
            get (value_of (naked_twins twins_board [])) "D1" = Some s /\
            has_char "1" s = false /\ has_char "2" s = false).
  { refine (H twins_board [] (value_of (naked_twins twins_board []))
              (snd (naked_twins twins_board []))
              (cross rows "1") "A1" "B1" "12" "12" "1"%char "2"%char
              _ _ _ _ _ _ _ _ _ _ _ "D1" _ _ _).
    - vm_compute. do 9 right. left. reflexivity.
    - vm_compute. auto.
    - vm_compute. auto.
    - discriminate.
    - vm_compute. reflexivity.
    - vm_compute. reflexivity.
    - vm_compute. reflexivity.
    - vm_compute. reflexivity.
    - intros Z sz HZ NX NY Hg. vm_compute in HZ.
      repeat (destruct HZ as [<-|HZ];
              [try congruence; vm_compute in Hg; inversion Hg; subst;
               vm_compute; discriminate|]).
      destruct HZ.
    - rewrite (surjective_pairing (naked_twins twins_board [])) at 1.
      apply f_equal2; [vm_compute; reflexivity | reflexivity].
    - vm_compute. discriminate.
    - vm_compute. auto 10.
    - discriminate.
    - discriminate. }
  destruct Hex as (s & Hs & H1 & _).
  vm_compute in Hs. inversion Hs; subst s. vm_compute in H1. discriminate.
Qed.

(** ** The store: what a call leaves as it was *)

Lemma update_length l r d : length (Heap.update l r d) = length l.
Proof.
  revert r; induction l as [|x l IH]; intros [|r]; simpl; auto.
Qed.

Lemma nth_update_other l r r' d :
  r' <> r -> nth r' (Heap.update l r d) [] = nth r' l [].
Proof.
  revert r r'; induction l as [|x l IH]; intros [|r] [|r'] Hne; simpl; auto;
    try congruence.
Qed.

Lemma nth_update_same l r d :
  r < length l -> nth r (Heap.update l r d) [] = d.
Proof.
  revert r; induction l as [|x l IH]; intros [|r] Hlt; simpl in *;
    try lia; auto.
  apply IH. lia.
Qed.

Lemma keeps_refl n s : keeps n s s.
Proof. split; auto. Qed.

Lemma keeps_trans n s1 s2 s3 : keeps n s1 s2 -> keeps n s2 s3 -> keeps n s1 s3.
Proof.
  intros [L1 K1] [L2 K2]. split; [lia|].
  intros r Hr. now rewrite K2, K1.
Qed.

Lemma owned_ret A n (Q : A -> Prop) a : Q a -> owned n Q (Heap.ret a).
Proof.
  intros Ha s _. split; [apply keeps_refl|].
  simpl. intros b Hb. now injection Hb as <-.
Qed.

Lemma owned_raise A n (Q : A -> Prop) k : owned n Q (Heap.raise_KeyError k).
Proof. intros s _. split; [apply keeps_refl|]. simpl. discriminate. Qed.

Lemma owned_out_of_fuel A n (Q : A -> Prop) : owned n Q Heap.out_of_fuel.
Proof. intros s _. split; [apply keeps_refl|]. simpl. discriminate. Qed.

Lemma owned_bind A B n (Q : A -> Prop) (R : B -> Prop) m (f : A -> Heap.M B) :
  owned n Q m -> (forall a, Q a -> owned n R (f a)) ->
  owned n R (Heap.bind m f).
Proof.
  intros Hm Hf s Hs. unfold Heap.bind.
  destruct (Hm s Hs) as [Hk Hq]. destruct (m s) as [[a|k|] s1]; simpl in *.
  - destruct (Hf a (Hq a eq_refl) s1) as [Hk' Hr]; [destruct Hk; lia|].
    split; [eapply keeps_trans; eassumption | assumption].
  - split; [assumption | discriminate].
  - split; [assumption | discriminate].
Qed.

Lemma owned_weaken A n (Q R : A -> Prop) m :
  owned n Q m -> (forall a, Q a -> R a) -> owned n R m.
Proof.
  intros Hm HQR s Hs. destruct (Hm s Hs) as [Hk Hq]. split; auto.
Qed.

Lemma owned_alloc n d : owned n (le n) (Heap.alloc d).
Proof.
  intros s Hs. unfold Heap.alloc; simpl. split.
  - split; simpl.
    + rewrite length_app. lia.
    + intros r Hr. unfold Heap.deref; simpl. apply app_nth1. lia.
  - intros a Ha. injection Ha as <-. assumption.
Qed.

Lemma owned_copy n values : owned n (le n) (Heap.copy values).
Proof. intros s Hs. unfold Heap.copy. now apply owned_alloc. Qed.

Lemma owned_read n values : owned n anything (Heap.read values).
Proof. intros s _. split; [apply keeps_refl | exact (fun _ _ => I)]. Qed.

Lemma owned_lookup n values k : owned n anything (Heap.lookup values k).
Proof.
  intros s _. unfold Heap.lookup.
  destruct (get (Heap.deref s values) k); simpl;
    (split; [apply keeps_refl | exact (fun _ _ => I)]).
Qed.

Lemma owned_peers_of n box : owned n anything (Heap.peers_of box).
Proof.
  unfold Heap.peers_of. destruct (peers box).
  - now apply owned_ret.
  - apply owned_raise.
Qed.

Lemma owned_store n values k v :
  n <= values -> owned n anything (Heap.store values k v).
Proof.
  intros Hn s _. unfold Heap.store; simpl. split; [|exact (fun _ _ => I)].
  split; simpl.
  - rewrite update_length. lia.
  - intros r Hr. unfold Heap.deref; simpl. apply nth_update_other. lia.
Qed.

Lemma owned_append_assignment n d :
  owned n anything (Heap.append_assignment d).
Proof.
  intros s _. split; [|exact (fun _ _ => I)]. split; simpl; auto.
Qed.

(** [assign_value] writes to the object it is given, and to no other. *)
Lemma owned_assign_value n values box value :
  n <= values -> owned n (le n) (Heap.assign_value values box value).
Proof.
  intros Hn. unfold Heap.assign_value.
  eapply owned_bind; [now apply owned_store|]. intros _ _.
  destruct (String.length value =? 1)%nat.
  - eapply owned_bind; [apply owned_read|]. intros d _.
    eapply owned_bind; [apply owned_append_assignment|]. intros _ _.
    now apply owned_ret.
  - now apply owned_ret.
Qed.

Lemma owned_eliminate_peers n grid c ps :
  n <= grid -> owned n anything (Heap.eliminate_peers grid c ps).
Proof.
  intros Hn. induction ps as [|peer ps IH]; cbn [Heap.eliminate_peers].
  - now apply owned_ret.
  - eapply owned_bind; [apply owned_lookup|]. intros v _.
    eapply owned_bind; [now apply owned_assign_value|]. intros _ _.
    exact IH.
Qed.

Lemma owned_eliminate_boxes n grid ks :
  n <= grid -> owned n anything (Heap.eliminate_boxes grid ks).
Proof.
  intros Hn. induction ks as [|box ks IH]; cbn [Heap.eliminate_boxes].
  - now apply owned_ret.
  - eapply owned_bind; [apply owned_lookup|]. intros choices _.
    destruct (chars choices) as [|c [|c' cs]]; try exact IH.
    eapply owned_bind; [apply owned_peers_of|]. intros ps _.
    eapply owned_bind; [now apply owned_eliminate_peers|]. intros _ _.
    exact IH.
Qed.

Lemma owned_eliminate n values : owned n (le n) (Heap.eliminate values).
Proof.
  unfold Heap.eliminate.
  eapply owned_bind; [apply owned_copy|]. intros grid Hg.
  eapply owned_bind; [apply owned_read|]. intros d _.
  eapply owned_bind; [now apply owned_eliminate_boxes|]. intros _ _.
  now apply owned_ret.
Qed.

Lemma owned_boxes_with n values digit unit :
  owned n anything (Heap.boxes_with values digit unit).
Proof.
  induction unit as [|box unit IH]; cbn [Heap.boxes_with].
  - now apply owned_ret.
  - eapply owned_bind; [apply owned_lookup|]. intros v _.
    eapply owned_bind; [exact IH|]. intros rest _.
    now apply owned_ret.
Qed.

Lemma owned_only_choice_digits n values result unit ds :
  n <= result ->
  owned n anything (Heap.only_choice_digits values result unit ds).
Proof.
  intros Hn. induction ds as [|digit ds IH]; cbn [Heap.only_choice_digits].
  - now apply owned_ret.
  - eapply owned_bind; [apply owned_boxes_with|]. intros bs _.
    destruct bs as [|box [|box' bs]]; try exact IH.
    eapply owned_bind; [now apply owned_assign_value|]. intros _ _.
    exact IH.
Qed.

Lemma owned_only_choice_units n values result us :
  n <= result ->
  owned n anything (Heap.only_choice_units values result us).
Proof.
  intros Hn. induction us as [|unit us IH]; cbn [Heap.only_choice_units].
  - now apply owned_ret.
  - eapply owned_bind; [now apply owned_only_choice_digits|]. intros _ _.
    exact IH.
Qed.

Lemma owned_only_choice n values : owned n (le n) (Heap.only_choice values).
Proof.
  unfold Heap.only_choice.
  eapply owned_bind; [apply owned_copy|]. intros result Hr.
  eapply owned_bind; [now apply owned_only_choice_units|]. intros _ _.
  now apply owned_ret.
Qed.

Lemma owned_reduce_puzzle_loop n fuel values :
  owned n (le n) (Heap.reduce_puzzle_loop fuel values).
Proof.
  revert values; induction fuel as [|fuel IH]; intros values;
    cbn [Heap.reduce_puzzle_loop].
  - apply owned_out_of_fuel.
  - eapply owned_bind; [apply owned_read|]. intros before _.
    eapply owned_bind; [apply owned_eliminate|]. intros v1 _.
    eapply owned_bind; [apply owned_only_choice|]. intros v2 H2.
    eapply owned_bind; [apply owned_read|]. intros after _.
    destruct (negb (count_len 0 after =? 0)%nat); [apply owned_alloc|].
    destruct (count_len 1 before =? count_len 1 after)%nat.
    + now apply owned_ret.
    + apply IH.
Qed.

Lemma owned_reduce_puzzle n values : owned n (le n) (Heap.reduce_puzzle values).
Proof.
  unfold Heap.reduce_puzzle.
  eapply owned_bind; [apply owned_read|]. intros d _.
  apply owned_reduce_puzzle_loop.
Qed.

Lemma owned_num_choices n values square :
  owned n anything (Heap.num_choices values square).
Proof.
  unfold Heap.num_choices.
  eapply owned_bind; [apply owned_lookup|]. intros v _. now apply owned_ret.
Qed.

Lemma owned_min_from n key best kbest l :
  (forall x, owned n anything (key x)) ->
  owned n anything (Heap.min_from key best kbest l).
Proof.
  intros Hkey. revert best kbest; induction l as [|x l IH]; intros best kbest;
    cbn [Heap.min_from].
  - now apply owned_ret.
  - eapply owned_bind; [apply Hkey|]. intros kx _.
    destruct (kx <? kbest)%nat; apply IH.
Qed.

Lemma owned_search_digits n rec values square_fewest ds :
  (forall v, owned n (le n) (rec v)) -> n <= values ->
  owned n (le n) (Heap.search_digits rec values square_fewest ds).
Proof.
  intros Hrec Hn. induction ds as [|digit ds IH]; cbn [Heap.search_digits].
  - apply owned_alloc.
  - eapply owned_bind; [now apply owned_assign_value|]. intros _ _.
    eapply owned_bind; [apply Hrec|]. intros solution Hs.
    eapply owned_bind; [apply owned_read|]. intros found _.
    destruct found; [exact IH | now apply owned_ret].
Qed.

Lemma owned_search n fuel values : owned n (le n) (Heap.search fuel values).
Proof.
  revert values; induction fuel as [|fuel IH]; intros values;
    cbn [Heap.search].
  - apply owned_out_of_fuel.
  - eapply owned_bind; [apply owned_copy|]. intros v0 _.
    eapply owned_bind; [apply owned_reduce_puzzle|]. intros v1 H1.
    eapply owned_bind; [apply owned_read|]. intros d _.
    destruct d as [|e d]; [apply owned_alloc|].
    destruct (keys _) as [|s0 rest]; [now apply owned_ret|].
    eapply owned_bind; [apply owned_num_choices|]. intros k0 _.
    eapply owned_bind;
      [apply owned_min_from; intros x; apply owned_num_choices|].
    intros square_fewest _.
    eapply owned_bind; [apply owned_lookup|]. intros ds _.
    now apply owned_search_digits.
Qed.

Lemma owned_solve n fuel grid : owned n (le n) (Heap.solve fuel grid).
Proof.
  unfold Heap.solve.
  eapply owned_bind; [apply owned_alloc|]. intros g0 _.
  eapply owned_bind; [apply owned_reduce_puzzle|]. intros g1 _.
  apply owned_search.
Qed.

Lemma owned_group_boxes n values ctb unit :
  owned n anything (Heap.group_boxes values ctb unit).
Proof.
  revert ctb; induction unit as [|box unit IH]; intros ctb;
    cbn [Heap.group_boxes].
  - now apply owned_ret.
  - eapply owned_bind; [apply owned_lookup|]. intros v _.
    destruct (negb _); apply IH.
Qed.

Lemma owned_return n : owned n (flow_above n)
  (Heap.bind (Heap.alloc []) (fun r => Heap.ret (Heap.Return r))).
Proof.
  eapply owned_bind; [apply owned_alloc|]. intros r Hr. now apply owned_ret.
Qed.

Lemma owned_twins_peers n values choices ps :
  n <= values -> owned n (flow_above n) (Heap.twins_peers values choices ps).
Proof.
  intros Hn. induction ps as [|peer ps IH]; cbn [Heap.twins_peers].
  - now apply owned_ret.
  - eapply owned_bind; [apply owned_lookup|]. intros v _.
    destruct (without v choices); [apply owned_return|].
    eapply owned_bind; [now apply owned_assign_value|]. intros _ _.
    exact IH.
Qed.

Lemma owned_twins_groups n values unit groups :
  n <= values -> owned n (flow_above n) (Heap.twins_groups values unit groups).
Proof.
  intros Hn. induction groups as [|[choices bs] groups IH];
    cbn [Heap.twins_groups].
  - now apply owned_ret.
  - destruct (length bs <? 2)%nat; [exact IH|].
    destruct (2 <? length bs)%nat; [apply owned_return|].
    eapply owned_bind; [now apply owned_twins_peers|]. intros [|r] Hr.
    + exact IH.
    + now apply owned_ret.
Qed.

Lemma owned_twins_unit n values unit :
  n <= values -> owned n (flow_above n) (Heap.twins_unit values unit).
Proof.
  intros Hn. unfold Heap.twins_unit.
  eapply owned_bind; [apply owned_group_boxes|]. intros ctb _.
  now apply owned_twins_groups.
Qed.

Lemma owned_twins_units n values us :
  n <= values -> owned n (flow_above n) (Heap.twins_units values us).
Proof.
  intros Hn. induction us as [|unit us IH]; cbn [Heap.twins_units].
  - now apply owned_ret.
  - eapply owned_bind; [now apply owned_twins_unit|]. intros [|r] Hr.
    + exact IH.
    + now apply owned_ret.
Qed.

Lemma owned_naked_twins n values : owned n (le n) (Heap.naked_twins values).
Proof.
  unfold Heap.naked_twins.
  eapply owned_bind; [apply owned_copy|]. intros v0 H0.
  eapply owned_bind; [now apply owned_twins_units|]. intros [|r] Hr.
  - now apply owned_ret.
  - now apply owned_ret.
Qed.

(** ** The store model and the value model compute the same *)

Lemma holds_keeps n s s1 r d :
  keeps n s s1 -> r < n -> holds s r d -> holds s1 r d.
Proof.
  intros [Hl Hk] Hr [Hv Hd]. split; [lia|]. now rewrite Hk.
Qed.

Lemma holds_alloc s d :
  holds (Heap.State (Heap.objects s ++ [d]) (Heap.assignments s))
        (length (Heap.objects s)) d.
Proof.
  split; simpl.
  - rewrite length_app. simpl. lia.
  - unfold Heap.deref; simpl. rewrite app_nth2, Nat.sub_diag; auto.
Qed.

Lemma agrees_ret A B (R : A -> B -> Heap.state -> Prop) a b s :
  R a b s -> agrees R (Heap.ret a s) (ret b (Heap.assignments s)).
Proof. intros H. split; [reflexivity | exact H]. Qed.

Lemma agrees_alloc s :
  agrees returned (Heap.alloc [] s) (ret [] (Heap.assignments s)).
Proof. split; [reflexivity | apply holds_alloc]. Qed.

Lemma agrees_out_of_fuel A B (R : A -> B -> Heap.state -> Prop) s :
  agrees R (Heap.out_of_fuel s) (out_of_fuel (Heap.assignments s)).
Proof. split; [reflexivity | exact I]. Qed.

Lemma agrees_bind A A' B B' (R : A -> A' -> Heap.state -> Prop)
  (R' : B -> B' -> Heap.state -> Prop) m m' f f' s :
  agrees R (m s) (m' (Heap.assignments s)) ->
  (forall a a' s1, m s = (Ok a, s1) -> R a a' s1 ->
     agrees R' (f a s1) (f' a' (Heap.assignments s1))) ->
  agrees R' (Heap.bind m f s) (bind m' f' (Heap.assignments s)).
Proof.
  unfold agrees at 1, Heap.bind, bind. intros [Ht Ho] Hf.
  destruct (m s) as [[a|k|] s1], (m' (Heap.assignments s)) as [[a'|k'|] t1];
    simpl in *; try contradiction; subst t1.
  - now apply Hf.
  - split; [reflexivity | exact Ho].
  - split; [reflexivity | exact I].
Qed.

Lemma agrees_then_ret g (m : Heap.M unit) s y :
  agrees (written g) (m s) y ->
  agrees returned (Heap.bind m (fun _ => Heap.ret g) s) y.
Proof.
  unfold agrees, Heap.bind. destruct (m s) as [[[]|k|] s1]; simpl; auto.
Qed.

Lemma bind_read values A (f : dict -> Heap.M A) s :
  Heap.bind (Heap.read values) f s = f (Heap.deref s values) s.
Proof. reflexivity. Qed.

Lemma bind_copy values A (f : Heap.ref -> Heap.M A) s :
  Heap.bind (Heap.copy values) f s =
  f (length (Heap.objects s))
    (Heap.State (Heap.objects s ++ [Heap.deref s values])
                (Heap.assignments s)).
Proof. reflexivity. Qed.

Lemma agrees_bind_lookup B B' (R' : B -> B' -> Heap.state -> Prop)
  values d k f f' s :
  holds s values d ->
  (forall v, get d k = Some v ->
     agrees R' (f v s) (f' v (Heap.assignments s))) ->
  agrees R' (Heap.bind (Heap.lookup values k) f s)
            (bind (lookup d k) f' (Heap.assignments s)).
Proof.
  intros [_ Hd] Hf. unfold Heap.bind, Heap.lookup, bind, lookup.
  rewrite Hd. destruct (get d k) as [v|]; simpl.
  - now apply Hf.
  - split; reflexivity.
Qed.

Lemma agrees_bind_peers_of B B' (R' : B -> B' -> Heap.state -> Prop)
  box f f' s :
  (forall ps, peers box = Some ps ->
     agrees R' (f ps s) (f' ps (Heap.assignments s))) ->
  agrees R' (Heap.bind (Heap.peers_of box) f s)
            (bind (peers_of box) f' (Heap.assignments s)).
Proof.
  intros Hf. unfold Heap.bind, Heap.peers_of, bind, peers_of.
  destruct (peers box) as [ps|]; simpl.
  - now apply Hf.
  - split; reflexivity.
Qed.

Lemma agrees_bind_assign_value B B' (R' : B -> B' -> Heap.state -> Prop)
  values d box v f f' s :
  holds s values d ->
  (forall s1, holds s1 values (set d box v) -> keeps values s s1 ->
     agrees R' (f values s1) (f' (set d box v) (Heap.assignments s1))) ->
  agrees R' (Heap.bind (Heap.assign_value values box v) f s)
            (bind (assign_value d box v) f' (Heap.assignments s)).
Proof.
  intros [Hv Hd] Hf.
  assert (Hk : forall t,
    keeps values s
      (Heap.State (Heap.update (Heap.objects s) values (set d box v)) t)).
  { intros t. split; simpl.
    - rewrite update_length. lia.
    - intros r Hr. unfold Heap.deref; simpl. apply nth_update_other. lia. }
  assert (Hh : forall t,
    holds (Heap.State (Heap.update (Heap.objects s) values (set d box v)) t)
          values (set d box v)).
  { intros t. split; simpl.
    - now rewrite update_length.
    - unfold Heap.deref; simpl. now apply nth_update_same. }
  unfold Heap.assign_value, assign_value, Heap.bind, bind, Heap.store,
    Heap.read, Heap.append_assignment, Heap.ret. simpl.
  rewrite Hd. destruct (String.length v =? 1)%nat; simpl.
  - destruct (Hh (Heap.assignments s)) as [_ ->].
    apply (Hf (Heap.State _ (Heap.assignments s ++ [set d box v])));
      [apply Hh | apply Hk].
  - apply (Hf (Heap.State _ (Heap.assignments s))); [apply Hh | apply Hk].
Qed.

Lemma agrees_eliminate_peers grid c ps s d :
  holds s grid d ->
  agrees (written grid) (Heap.eliminate_peers grid c ps s)
         (eliminate_peers d c ps (Heap.assignments s)).
Proof.
  revert s d; induction ps as [|peer ps IH]; intros s d H;
    cbn [Heap.eliminate_peers eliminate_peers].
  - now apply agrees_ret.
  - apply agrees_bind_lookup with (1 := H). intros v _.
    apply agrees_bind_assign_value with (1 := H). intros s1 H1 _.
    now apply IH.
Qed.

Lemma agrees_eliminate_boxes grid ks s d :
  holds s grid d ->
  agrees (written grid) (Heap.eliminate_boxes grid ks s)
         (eliminate_boxes d ks (Heap.assignments s)).
Proof.
  revert s d; induction ks as [|box ks IH]; intros s d H;
    cbn [Heap.eliminate_boxes eliminate_boxes].
  - now apply agrees_ret.
  - apply agrees_bind_lookup with (1 := H). intros choices _.
    destruct (chars choices) as [|c [|c' cs]]; try now apply IH.
    apply agrees_bind_peers_of. intros ps _.
    eapply agrees_bind; [now apply agrees_eliminate_peers|].
    intros [] d1 s1 _ H1. now apply IH.
Qed.

Lemma agrees_eliminate values s d :
  holds s values d ->
  agrees returned (Heap.eliminate values s)
         (eliminate d (Heap.assignments s)).
Proof.
  intros [Hv Hd]. unfold Heap.eliminate, eliminate.
  rewrite bind_copy, bind_read, Hd.
  destruct (holds_alloc s d) as [Hg Hgd]. rewrite Hgd.
  apply agrees_then_ret.
  apply (@agrees_eliminate_boxes _ (keys d) (Heap.State _ _) d).
  now split.
Qed.

Lemma agrees_weaken A B (R R' : A -> B -> Heap.state -> Prop) x y :
  (forall a b s, R a b s -> R' a b s) -> agrees R x y -> agrees R' x y.
Proof.
  unfold agrees. intros HR [Ht Ho]. split; [exact Ht|].
  destruct (fst x), (fst y); auto.
Qed.

Lemma agrees_bind_copy B B' (R' : B -> B' -> Heap.state -> Prop)
  values d f (m' : M B') s :
  holds s values d ->
  (forall s0 g, holds s0 g d -> keeps g s s0 -> values < g ->
     agrees R' (f g s0) (m' (Heap.assignments s0))) ->
  agrees R' (Heap.bind (Heap.copy values) f s) (m' (Heap.assignments s)).
Proof.
  intros [Hv Hd] Hf. rewrite bind_copy, Hd.
  apply (Hf (Heap.State (Heap.objects s ++ [d]) (Heap.assignments s))).
  - apply holds_alloc.
  - split; simpl.
    + rewrite length_app. lia.
    + intros r Hr. unfold Heap.deref; simpl. apply app_nth1. lia.
  - exact Hv.
Qed.

Lemma agrees_boxes_with values digit unit s d :
  holds s values d ->
  agrees (same s) (Heap.boxes_with values digit unit s)
         (boxes_with d digit unit (Heap.assignments s)).
Proof.
  intros H. induction unit as [|box unit IH];
    cbn [Heap.boxes_with boxes_with].
  - apply agrees_ret. now split.
  - apply agrees_bind_lookup with (1 := H). intros v _.
    eapply agrees_bind; [exact IH|].
    intros rest rest' s1 _ [-> ->]. apply agrees_ret. now split.
Qed.

Lemma agrees_only_choice_digits values result unit ds s dv dr :
  values < result -> holds s values dv -> holds s result dr ->
  agrees (written_beside values dv result)
         (Heap.only_choice_digits values result unit ds s)
         (only_choice_digits dv dr unit ds (Heap.assignments s)).
Proof.
  intros Hlt. revert s dr; induction ds as [|digit ds IH]; intros s dr Hv Hr;
    cbn [Heap.only_choice_digits only_choice_digits].
  - apply agrees_ret. now split.
  - eapply agrees_bind; [now apply agrees_boxes_with|].
    intros bs bs' s1 _ [-> ->].
    destruct bs' as [|box [|box' bs]]; try now apply IH.
    apply agrees_bind_assign_value with (1 := Hr). intros s1 H1 Hk.
    apply IH; [|exact H1]. now apply (holds_keeps Hk).
Qed.

Lemma agrees_only_choice_units values result us s dv dr :
  values < result -> holds s values dv -> holds s result dr ->
  agrees (written_beside values dv result)
         (Heap.only_choice_units values result us s)
         (only_choice_units dv dr us (Heap.assignments s)).
Proof.
  intros Hlt. revert s dr; induction us as [|unit us IH]; intros s dr Hv Hr;
    cbn [Heap.only_choice_units only_choice_units].
  - apply agrees_ret. now split.
  - eapply agrees_bind; [now apply agrees_only_choice_digits|].
    intros [] dr1 s1 _ [Hr1 Hv1]. now apply IH.
Qed.

Lemma agrees_only_choice values s d :
  holds s values d ->
  agrees returned (Heap.only_choice values s)
         (only_choice d (Heap.assignments s)).
Proof.
  intros H. unfold Heap.only_choice, only_choice.
  apply agrees_bind_copy with (1 := H). intros s0 g Hg Hk Hlt.
  apply agrees_then_ret.
  apply agrees_weaken with (R := written_beside values d g);
    [intros a b s1 [Hr _]; exact Hr|].
  apply agrees_only_choice_units; auto.
  now apply (holds_keeps Hk Hlt).
Qed.

Lemma agrees_reduce_puzzle_loop fuel values s d :
  holds s values d ->
  agrees returned (Heap.reduce_puzzle_loop fuel values s)
         (reduce_puzzle_loop fuel d (Heap.assignments s)).
Proof.
  revert values s d; induction fuel as [|fuel IH]; intros values s d H;
    cbn [Heap.reduce_puzzle_loop reduce_puzzle_loop].
  - apply agrees_out_of_fuel.
  - rewrite bind_read. destruct (H) as [_ ->].
    eapply agrees_bind; [now apply agrees_eliminate|].
    intros v1 d1 s1 _ H1.
    eapply agrees_bind; [now apply agrees_only_choice|].
    intros v2 d2 s2 _ H2.
    rewrite bind_read. destruct (H2) as [_ ->].
    destruct (negb (count_len 0 d2 =? 0)%nat); [apply agrees_alloc|].
    destruct (count_len 1 d =? count_len 1 d2)%nat.
    + now apply agrees_ret.
    + now apply IH.
Qed.

Lemma agrees_reduce_puzzle values s d :
  holds s values d ->
  agrees returned (Heap.reduce_puzzle values s)
         (reduce_puzzle d (Heap.assignments s)).
Proof.
  intros H. unfold Heap.reduce_puzzle, reduce_puzzle.
  rewrite bind_read. destruct (H) as [_ ->].
  now apply agrees_reduce_puzzle_loop.
Qed.

Lemma agrees_num_choices values square s d :
  holds s values d ->
  agrees (same s) (Heap.num_choices values square s)
         (num_choices d square (Heap.assignments s)).
Proof.
  intros H. unfold Heap.num_choices, num_choices.
  apply agrees_bind_lookup with (1 := H). intros v _.
  apply agrees_ret. now split.
Qed.

Lemma agrees_min_from key key' best kbest l s :
  (forall x, agrees (same s) (key x s) (key' x (Heap.assignments s))) ->
  agrees (same s) (Heap.min_from key best kbest l s)
         (min_from key' best kbest l (Heap.assignments s)).
Proof.
  intros Hkey. revert best kbest; induction l as [|x l IH]; intros best kbest;
    cbn [Heap.min_from min_from].
  - apply agrees_ret. now split.
  - eapply agrees_bind; [apply Hkey|].
    intros kx kx' s1 _ [-> ->]. destruct (kx' <? kbest)%nat; apply IH.
Qed.

Lemma agrees_search_digits rec rec' values square_fewest ds s d :
  (forall n v, owned n (le n) (rec v)) ->
  (forall v d s, holds s v d ->
     agrees returned (rec v s) (rec' d (Heap.assignments s))) ->
  holds s values d ->
  agrees returned (Heap.search_digits rec values square_fewest ds s)
         (search_digits rec' d square_fewest ds (Heap.assignments s)).
Proof.
  intros Hown Hrec. revert s d; induction ds as [|digit ds IH]; intros s d H;
    cbn [Heap.search_digits search_digits].
  - apply agrees_alloc.
  - apply agrees_bind_assign_value with (1 := H). intros s1 H1 _.
    eapply agrees_bind; [apply Hrec; exact H1|].
    intros solution found s2 Hrun Hs.
    rewrite bind_read. destruct (Hs) as [_ ->].
    destruct found as [|e found]; [|now apply agrees_ret].
    apply IH.
    destruct (Hown (length (Heap.objects s1)) values s1 (le_n _)) as [Hk _].
    rewrite Hrun in Hk. apply (holds_keeps Hk); [apply H1 | exact H1].
Qed.

Lemma agrees_search fuel values s d :
  holds s values d ->
  agrees returned (Heap.search fuel values s)
         (search fuel d (Heap.assignments s)).
Proof.
  revert values s d; induction fuel as [|fuel IH]; intros values s d H;
    cbn [Heap.search search].
  - apply agrees_out_of_fuel.
  - apply agrees_bind_copy with (1 := H). intros s0 v0 H0 _ _.
    eapply agrees_bind; [now apply agrees_reduce_puzzle|].
    intros v1 d1 s1 _ H1.
    rewrite bind_read. destruct (H1) as [_ ->].
    destruct d1 as [|e d1]; [apply agrees_alloc|].
    destruct (keys _) as [|s0' rest]; [now apply agrees_ret|].
    eapply agrees_bind; [now apply agrees_num_choices|].
    intros k0 k0' s2 _ [-> ->].
    eapply agrees_bind;
      [apply agrees_min_from; intros x; now apply agrees_num_choices|].
    intros square_fewest sq' s2 _ [-> ->].
    apply agrees_bind_lookup with (1 := H1). intros ds _.
    apply agrees_search_digits; auto.
    intros n v. apply owned_search.
Qed.

Lemma agrees_solve fuel grid s :
  agrees returned (Heap.solve fuel grid s)
         (solve fuel grid (Heap.assignments s)).
Proof.
  unfold Heap.solve, solve.
  change (Heap.bind (Heap.alloc (grid_values grid)) ?f s)
    with (f (length (Heap.objects s))
            (Heap.State (Heap.objects s ++ [grid_values grid])
                        (Heap.assignments s))).
  cbv beta.
  eapply (@agrees_bind _ _ _ _ returned returned _ _ _ _
            (Heap.State (Heap.objects s ++ [grid_values grid])
                        (Heap.assignments s)));
    [apply agrees_reduce_puzzle, holds_alloc|].
  intros g1 d1 s1 _ H1. now apply agrees_search.
Qed.

Lemma agrees_group_boxes values ctb unit s d :
  holds s values d ->
  agrees (same s) (Heap.group_boxes values ctb unit s)
         (group_boxes d ctb unit (Heap.assignments s)).
Proof.
  intros H. revert ctb; induction unit as [|box unit IH]; intros ctb;
    cbn [Heap.group_boxes group_boxes].
  - apply agrees_ret. now split.
  - apply agrees_bind_lookup with (1 := H). intros v _.
    destruct (negb _); apply IH.
Qed.

Lemma agrees_return g s :
  agrees (same_flow g)
    (Heap.bind (Heap.alloc []) (fun r => Heap.ret (Heap.Return r)) s)
    (ret (Return []) (Heap.assignments s)).
Proof. split; [reflexivity | apply holds_alloc]. Qed.

Lemma agrees_twins_peers values choices ps s d :
  holds s values d ->
  agrees (same_flow values) (Heap.twins_peers values choices ps s)
         (twins_peers d choices ps (Heap.assignments s)).
Proof.
  revert s d; induction ps as [|peer ps IH]; intros s d H;
    cbn [Heap.twins_peers twins_peers].
  - now apply agrees_ret.
  - apply agrees_bind_lookup with (1 := H). intros v _.
    destruct (without v choices) as [|c w] eqn:Hw; [apply agrees_return|].
    apply agrees_bind_assign_value with (1 := H). intros s1 H1 _.
    now apply IH.
Qed.

Lemma agrees_twins_groups values unit groups s d :
  holds s values d ->
  agrees (same_flow values) (Heap.twins_groups values unit groups s)
         (twins_groups d unit groups (Heap.assignments s)).
Proof.
  revert s d; induction groups as [|[choices bs] groups IH]; intros s d H;
    cbn [Heap.twins_groups twins_groups].
  - now apply agrees_ret.
  - destruct (length bs <? 2)%nat; [now apply IH|].
    destruct (2 <? length bs)%nat; [apply agrees_return|].
    eapply agrees_bind; [now apply agrees_twins_peers|].
    intros [|r] [d1|d1] s1 _ Hf; simpl in Hf; try contradiction.
    + now apply IH.
    + now apply agrees_ret.
Qed.

Lemma agrees_twins_unit values unit s d :
  holds s values d ->
  agrees (same_flow values) (Heap.twins_unit values unit s)
         (twins_unit d unit (Heap.assignments s)).
Proof.
  intros H. unfold Heap.twins_unit, twins_unit.
  eapply agrees_bind; [now apply agrees_group_boxes|].
  intros ctb ctb' s1 _ [-> ->]. now apply agrees_twins_groups.
Qed.

Lemma agrees_twins_units values us s d :
  holds s values d ->
  agrees (same_flow values) (Heap.twins_units values us s)
         (twins_units d us (Heap.assignments s)).
Proof.
  revert s d; induction us as [|unit us IH]; intros s d H;
    cbn [Heap.twins_units twins_units].
  - now apply agrees_ret.
  - eapply agrees_bind; [now apply agrees_twins_unit|].
    intros [|r] [d1|d1] s1 _ Hf; simpl in Hf; try contradiction.
    + now apply IH.
    + now apply agrees_ret.
Qed.

Lemma agrees_naked_twins values s d :
  holds s values d ->
  agrees returned (Heap.naked_twins values s)
         (naked_twins d (Heap.assignments s)).
Proof.
  intros H. unfold Heap.naked_twins, naked_twins.
  apply agrees_bind_copy with (1 := H). intros s0 v0 H0 _ _.
  eapply agrees_bind; [now apply agrees_twins_units|].
  intros [|r] [d1|d1] s1 _ Hf; simpl in Hf; try contradiction;
    now apply agrees_ret.
Qed.

(** Run over the store, every function returns a reference to the board
    that the same function returns when run over values, after the same
    calls of [assign_value]. *)
Theorem store_model_agrees fuel grid values s d :
  holds s values d ->
  agrees returned (Heap.eliminate values s)
         (eliminate d (Heap.assignments s)) /\
  agrees returned (Heap.only_choice values s)
         (only_choice d (Heap.assignments s)) /\
  agrees returned (Heap.naked_twins values s)
         (naked_twins d (Heap.assignments s)) /\
  agrees returned (Heap.reduce_puzzle values s)
         (reduce_puzzle d (Heap.assignments s)) /\
  agrees returned (Heap.search fuel values s)
         (search fuel d (Heap.assignments s)) /\
  agrees returned (Heap.solve fuel grid s)
         (solve fuel grid (Heap.assignments s)).
Proof.
  intros H.
  split; [now apply agrees_eliminate|].
  split; [now apply agrees_only_choice|].
  split; [now apply agrees_naked_twins|].
  split; [now apply agrees_reduce_puzzle|].
  split; [now apply agrees_search | apply agrees_solve].
Qed.

(** ** The caller's mapping *)

(** C9: [eliminate], [only_choice], [naked_twins] and [search] leave the
    mapping passed in by their caller unchanged.  In the store model,
    where [values] is a reference to the caller's [dict] object: after a
    call of any of the four, however it ends, the object [values] refers
    to is the one it was, so it holds the same domain for every box; the
    same is true of every other object that existed before the call (the
    boards of the enclosing calls of [search] among them); and the
    reference returned is to an object allocated during the call, not to
    the caller's. *)
Theorem callers_mapping_unchanged (f : Heap.ref -> Heap.M Heap.ref)
  (fuel : nat) (values : Heap.ref) (s : Heap.state) :
  In f [Heap.eliminate; Heap.only_choice; Heap.naked_twins;
        Heap.search fuel] ->
  values < length (Heap.objects s) ->
  Heap.deref (snd (f values s)) values = Heap.deref s values /\
  (forall box,
     get (Heap.deref (snd (f values s)) values) box =
     get (Heap.deref s values) box) /\
  (forall r, r < length (Heap.objects s) ->
     Heap.deref (snd (f values s)) r = Heap.deref s r) /\
  (forall r, fst (f values s) = Ok r ->
     length (Heap.objects s) <= r /\ r <> values).
Proof.
  intros Hf Hv.
  assert (Hown : owned (length (Heap.objects s)) (le (length (Heap.objects s)))
                   (f values)).
  { destruct Hf as [<-|[<-|[<-|[<-|[]]]]].
    - apply owned_eliminate.
    - apply owned_only_choice.
    - apply owned_naked_twins.
    - apply owned_search. }
  destruct (Hown s (le_n _)) as [[_ Hk] Hr].
  split; [now apply Hk|].
  split; [intros box; now rewrite Hk|].
  split; [exact Hk|].
  intros r Hret. specialize (Hr r Hret). lia.
Qed.

Lemma callers_mapping_unchanged_witness :
  Heap.deref (snd (Heap.search 1 0 solved_store)) 0 = solved_board.
Proof.
  exact (proj1 (@callers_mapping_unchanged (Heap.search 1) 1 0 solved_store
                  (or_intror (or_intror (or_intror (or_introl eq_refl))))
                  (Nat.lt_0_succ 0))).
Defined.

(** By contrast [assign_value] writes to the object it is given: the
    four functions are safe because they call it on their own copy. *)
Lemma assign_value_writes values box value s :
  values < length (Heap.objects s) ->
  Heap.deref (snd (Heap.assign_value values box value s)) values =
  set (Heap.deref s values) box value.
Proof.
  intros Hv. unfold Heap.assign_value, Heap.bind, Heap.store, Heap.read,
    Heap.append_assignment, Heap.ret. simpl.
  destruct (String.length value =? 1)%nat; simpl;
    unfold Heap.deref; simpl; now apply nth_update_same.
Qed.

(** ** Further properties: the topology and the board primitives *)

Lemma boxes_NoDup : NoDup boxes.
Proof. apply nodupb_NoDup. vm_compute. reflexivity. Qed.

Lemma get_None d k : ~ In k (keys d) -> get d k = None.
Proof.
  intros H. destruct (get d k) as [v|] eqn:E; [|reflexivity].
  exfalso. apply H. eapply get_In_keys; eassumption.
Qed.

Lemma keys_combine (f : ascii -> string) ks : forall vs,
  keys (map (fun kv => (fst kv, f (snd kv))) (combine ks vs)) =
  firstn (length vs) ks.
Proof.
  induction ks as [|k ks IH]; intros [|v vs]; simpl; auto.
  f_equal. apply IH.
Qed.

Lemma get_combine (f : ascii -> string) ks :
  NoDup ks -> forall vs i k v,
  nth_error ks i = Some k -> nth_error vs i = Some v ->
  get (map (fun kv => (fst kv, f (snd kv))) (combine ks vs)) k = Some (f v).
Proof.
  induction 1 as [|k0 ks Hk0 Hnd IH]; intros vs i k v Hk Hv.
  - destruct i; discriminate.
  - destruct vs as [|v0 vs]; [destruct i; discriminate|].
    destruct i as [|i]; simpl in *.
    + injection Hk as <-. injection Hv as <-. now rewrite String.eqb_refl.
    + destruct (String.eqb k k0) eqn:E.
      * apply String.eqb_eq in E. subst k0. exfalso. apply Hk0.
        eapply nth_error_In; eassumption.
      * eapply IH; eassumption.
Qed.

(** X1: [grid_values] pairs the boxes, in the order A1..I9, with the
    characters of the grid: a dot gives the nine digits, any other
    character is kept as the box's one candidate (nothing checks that it
    is a digit).  [zip] stops at the shorter of the two, so a grid of
    fewer than 81 characters gives a board that lacks the last boxes,
    and characters after the 81st are dropped. *)
Theorem grid_values_spec grid :
  keys (grid_values grid) = firstn (String.length grid) boxes /\
  (forall i box c,
     nth_error boxes i = Some box -> nth_error (chars grid) i = Some c ->
     get (grid_values grid) box =
     Some (if Ascii.eqb c "." then all_digits else str c)) /\
  (forall box, ~ In box (firstn (String.length grid) boxes) ->
     get (grid_values grid) box = None).
Proof.
  assert (Hk : keys (grid_values grid) = firstn (String.length grid) boxes).
  { unfold grid_values. rewrite <- length_chars.
    apply (keys_combine (fun c => if Ascii.eqb c "." then all_digits else str c)). }
  split; [exact Hk|]. split.
  - intros i box c Hb Hc. unfold grid_values.
    apply (get_combine (fun c => if Ascii.eqb c "." then all_digits else str c)
             boxes_NoDup (chars grid) i); assumption.
  - intros box Hn. apply get_None. now rewrite Hk.
Qed.

Lemma length_flat_map_const (A B : Type) (f : A -> list B) n l :
  (forall x, length (f x) = n) -> length (flat_map f l) = length l * n.
Proof.
  intros Hf. induction l as [|x l IH]; simpl; auto.
  now rewrite length_app, Hf, IH.
Qed.

(** X2: [cross(A, B)] has one name for every pair of a character of [A]
    and a character of [B], [len(A) * len(B)] in all; it is empty as soon
    as one of the two strings is. *)
Theorem cross_spec A B :
  length (cross A B) = String.length A * String.length B /\
  forall s, In s (cross A B) <->
    exists a b, In a (chars A) /\ In b (chars B) /\
                s = (str a ++ str b)%string.
Proof.
  unfold cross. split.
  - rewrite <- !length_chars.
    apply length_flat_map_const. intros x. apply length_map.
  - intros s. rewrite in_flat_map. split.
    + intros (a & Ha & Hs). apply in_map_iff in Hs as (b & <- & Hb).
      now exists a, b.
    + intros (a & b & Ha & Hb & ->). exists a. split; [assumption|].
      apply in_map_iff. now exists b.
Qed.

Lemma set_diff_In x a b : In x (set_diff a b) <-> In x a /\ ~ In x b.
Proof.
  unfold set_diff. rewrite filter_In, negb_true_iff, mem_false. tauto.
Qed.

Lemma peers_In (ul : list (list string)) a b :
  In b (set_diff (to_set (concat (filter (fun u => mem a u) ul))) [a]) <->
  b <> a /\ exists u, In u ul /\ In a u /\ In b u.
Proof.
  rewrite set_diff_In, to_set_In, in_concat. split.
  - intros [(u & Hu & Hb) Hne]. apply filter_In in Hu as [Hu Ha].
    apply mem_In in Ha. split.
    + intros ->. apply Hne. now left.
    + now exists u.
  - intros [Hne (u & Hu & Ha & Hb)]. split.
    + exists u. split; [|assumption]. apply filter_In. split; [assumption|].
      now apply mem_In.
    + intros [->|[]]. now apply Hne.
Qed.

(** X3: [peers[a]] exists exactly for the 81 box names (any other name is
    a [KeyError]); it never contains [a] itself, holds no box twice, and
    [b] is in it exactly when [b] is another box that shares a row, a
    column, a square or a diagonal with [a]. *)
Theorem peers_spec a :
  (peers a = None <-> ~ In a boxes) /\
  forall ps, peers a = Some ps ->
    NoDup ps /\
    forall b, In b ps <->
      b <> a /\ exists u, In u unitlist /\ In a u /\ In b u.
Proof.
  unfold peers, units. destruct (mem a boxes) eqn:E.
  - apply mem_In in E. split.
    + split; [discriminate | intros H; now elim H].
    + generalize unitlist. intros ul ps Hps. injection Hps as <-. split.
      * unfold set_diff. apply NoDup_filter, to_set_NoDup.
      * intros b. apply peers_In.
  - apply mem_false in E. split.
    + split; auto.
    + discriminate.
Qed.

Lemma keys_set_new d k v : ~ In k (keys d) -> keys (set d k v) = keys d ++ [k].
Proof.
  induction d as [|[k' v'] d IH]; simpl; intros H; [reflexivity|].
  destruct (String.eqb k k') eqn:E.
  - apply String.eqb_eq in E. subst. exfalso. apply H. now left.
  - simpl. f_equal. apply IH. intros Hin. apply H. now right.
Qed.

(** X4: [assign_value(values, box, value)] never fails.  Afterwards
    [values[box]] is [value] and every other entry is as it was; a box
    already there keeps its place among the keys, a new one goes last.
    A snapshot is recorded when [value] has exactly one character and
    only then: writing an empty or a longer domain leaves [assignments]
    alone. *)
Theorem assign_value_spec values box value t :
  exists v',
    assign_value values box value t =
      (Ok v', if (String.length value =? 1)%nat then t ++ [v'] else t) /\
    get v' box = Some value /\
    (forall k, k <> box -> get v' k = get values k) /\
    (In box (keys values) -> keys v' = keys values) /\
    (~ In box (keys values) -> keys v' = keys values ++ [box]).
Proof.
  exists (set values box value). unfold assign_value.
  split; [now destruct (String.length value =? 1)%nat|].
  split; [apply get_set_same|].
  split; [intros k Hk; apply get_set_other; congruence|].
  split.
  - intros Hin. apply In_keys_get in Hin as [v0 Hv0].
    eapply keys_set; eassumption.
  - apply keys_set_new.
Qed.

(** ** Further properties: one pass of propagation *)

Lemma eliminate_boxes_clears ks : forall grid t e t',
  eliminate_boxes grid ks t = (Ok e, t') ->
  forall k c, In k ks -> get grid k = Some (str c) -> get e k = Some (str c) ->
    exists ps, peers k = Some ps /\
      forall p, In p ps -> exists s, get e p = Some s /\ has_char c s = false.
Proof.
  induction ks as [|k0 ks IH]; intros grid t e t' H k c Hin Hg0 He;
    [destruct Hin|].
  simpl in H. mstep H as a t1 Hm. apply lookup_Ok in Hm.
  destruct Hm as [Hg ->].
  destruct Hin as [<-|Hin].
  - rewrite Hg0 in Hg. inversion Hg; subst a.
    simpl in H. mstep H as ps t2 Hp. mstep H as g1 t3 Hm0.
    apply peers_of_Ok in Hp. destruct Hp as [Hp ->].
    apply eliminate_peers_spec in Hm0. destruct Hm0 as [_ Hc].
    apply eliminate_boxes_evolves in H.
    exists ps. split; [exact Hp|]. intros p Hp'.
    destruct (Hc p Hp') as (s1 & Hs1 & N1).
    destruct (evolves_get p H Hs1) as (s' & Hs' & Sh).
    exists s'. split; [exact Hs'|]. eapply shrinks_has_char; eassumption.
  - destruct (chars a) as [|c0 [|c1 l]]; try (eapply IH; eassumption).
    mstep H as ps t2 Hp. mstep H as g1 t3 Hm1.
    pose proof (eliminate_boxes_evolves _ _ _ H) as E2.
    apply eliminate_peers_spec in Hm1. destruct Hm1 as [E1 _].
    eapply IH; try eassumption.
    eapply fixed_through; eauto.
Qed.

(** X5: when [eliminate] returns, the board it returns has the keys of
    its argument in the same order and every domain has only lost
    candidates (a fixed one is as it was, or empty); and for every box
    that was fixed on entry and still is, its digit is in no peer's
    domain any more. *)
Theorem eliminate_spec values t grid t' :
  eliminate values t = (Ok grid, t') ->
  keys grid = keys values /\
  (forall k s, get values k = Some s ->
     exists s', get grid k = Some s' /\ shrinks s s') /\
  (forall k c ps p,
     get values k = Some (str c) -> get grid k = Some (str c) ->
     peers k = Some ps -> In p ps ->
     exists s, get grid p = Some s /\ has_char c s = false).
Proof.
  intros H. pose proof (eliminate_evolves _ _ H) as E.
  split; [eapply evolves_keys; exact E|]. split.
  - intros k s Hk. eapply evolves_get; eassumption.
  - intros k c ps p Hv Hg Hps Hp. unfold eliminate in H.
    destruct (@eliminate_boxes_clears _ _ _ _ _ H k c) as (ps' & Hps' & Hc);
      try assumption.
    + eapply get_In_keys; eassumption.
    + rewrite Hps in Hps'. injection Hps' as <-. now apply Hc.
Qed.

Lemma eliminate_spec_witness :
  keys (value_of first_eliminate) = keys (grid_values diag_sudoku_grid).
Proof.
  refine (proj1 (@eliminate_spec (grid_values diag_sudoku_grid) []
                   (value_of first_eliminate) (snd first_eliminate) _)).
  unfold first_eliminate.
  rewrite (surjective_pairing (eliminate (grid_values diag_sudoku_grid) [])) at 1.
  apply f_equal2; [vm_compute; reflexivity | reflexivity].
Defined.

Lemma only_choice_digits_fixed values unit ds : forall result t r t',
  only_choice_digits values result unit ds t = (Ok r, t') ->
  (forall b d', get result b = Some (str d') ->
     exists d'', get r b = Some (str d'')) /\
  (forall d box, In d ds -> holders values d unit = [box] ->
     exists d', get r box = Some (str d')).
Proof.
  induction ds as [|d ds IH]; intros result t r t' H; simpl in H.
  - apply ret_Ok in H. destruct H as [-> _]. split.
    + intros b d' Hb. now exists d'.
    + intros d box [].
  - mstep H as bs t1 Hm. apply boxes_with_Ok in Hm.
    destruct Hm as (-> & -> & _).
    destruct (holders values d unit) as [|b [|b' l]] eqn:Eh.
    + destruct (IH _ _ _ _ H) as [A B]. split; [exact A|].
      intros d0 box [<-|Hin] Hh; [congruence | eauto].
    + mstep H as a t2 Hm. apply assign_value_Ok in Hm. subst a.
      destruct (IH _ _ _ _ H) as [A B].
      assert (Hb : exists d'', get r b = Some (str d'')).
      { apply (A b d). apply get_set_same. }
      split.
      * intros b0 d' Hb0. destruct (string_dec b0 b) as [->|Hne];
          [exact Hb|].
        apply (A b0 d'). rewrite get_set_other; [assumption | congruence].
      * intros d0 box [<-|Hin] Hh; [|eauto].
        rewrite Eh in Hh. injection Hh as <-. exact Hb.
    + destruct (IH _ _ _ _ H) as [A B]. split; [exact A|].
      intros d0 box [<-|Hin] Hh; [congruence | eauto].
Qed.

Lemma only_choice_units_fixed values us : forall result t r t',
  only_choice_units values result us t = (Ok r, t') ->
  (forall b d', get result b = Some (str d') ->
     exists d'', get r b = Some (str d'')) /\
  (forall u d box, In u us -> In d (chars all_digits) ->
     holders values d u = [box] -> exists d', get r box = Some (str d')).
Proof.
  induction us as [|u0 us IH]; intros result t r t' H;
    cbn [only_choice_units] in H.
  - apply ret_Ok in H. destruct H as [-> _]. split.
    + intros b d' Hb. now exists d'.
    + intros u d box [].
  - mstep H as r1 t1 Hm. apply only_choice_digits_fixed in Hm.
    destruct Hm as [A1 B1]. destruct (IH _ _ _ _ H) as [A B]. split.
    + intros b d' Hb. destruct (A1 _ _ Hb) as [d1 Hd1]. eauto.
    + intros u d box [<-|Hin] Hd Hh; [|eauto].
      destruct (B1 _ _ Hd Hh) as [d1 Hd1]. eauto.
Qed.

(** X6: when [only_choice] returns, the result has the keys of its
    argument in the same order, and every box holds what it held or one
    digit that was among its candidates; a box that is the only one of
    some unit to have some digit among its candidates comes out fixed.
    The test reads the argument, not the board being written, so the
    outcome does not depend on the order of the units. *)
Theorem only_choice_spec values t r t' :
  only_choice values t = (Ok r, t') ->
  keys r = keys values /\
  (forall k s, get values k = Some s ->
     exists s', get r k = Some s' /\
       (s' = s \/ exists d, s' = str d /\ has_char d s = true)) /\
  (forall u d box, In u unitlist -> In d (chars all_digits) ->
     holders values d u = [box] -> exists d', get r box = Some (str d')).
Proof.
  intros H. pose proof (only_choice_evolves _ _ H) as E.
  split; [eapply evolves_keys; exact E|]. split.
  - intros k s Hk. destruct (evolves_get k E Hk) as (s' & Hs' & F).
    now exists s'.
  - unfold only_choice in H. apply only_choice_units_fixed in H. apply H.
Qed.

Lemma only_choice_spec_witness :
  keys (value_of first_pass) = keys (value_of first_eliminate).
Proof.
  refine (proj1 (@only_choice_spec (value_of first_eliminate)
                   (snd first_eliminate) (value_of first_pass)
                   (snd first_pass) _)).
  unfold first_pass.
  rewrite (surjective_pairing
             (only_choice (value_of first_eliminate) (snd first_eliminate)))
    at 1.
  apply f_equal2; [vm_compute; reflexivity | reflexivity].
Defined.

Lemma bind_KeyError {A B} (m : M A) (f : A -> M B) t k t' :
  bind m f t = (KeyError k, t') ->
  m t = (KeyError k, t') \/
  exists a t1, m t = (Ok a, t1) /\ f a t1 = (KeyError k, t').
Proof.
  unfold bind. destruct (m t) as [[a|k0|] t1]; intros H.
  - right. now exists a, t1.
  - left. now inversion H.
  - discriminate.
Qed.

Lemma lookup_KeyError d k k' t t' :
  lookup d k t = (KeyError k', t') -> k' = k /\ get d k = None.
Proof.
  unfold lookup. destruct (get d k); intros H; inversion H. now split.
Qed.

Lemma boxes_with_KeyError values digit unit : forall t k t',
  boxes_with values digit unit t = (KeyError k, t') ->
  In k unit /\ get values k = None.
Proof.
  induction unit as [|b unit IH]; intros t k t' H; simpl in H;
    [discriminate|].
  apply bind_KeyError in H. destruct H as [H|(v & t1 & _ & H)].
  - apply lookup_KeyError in H. destruct H as [-> H]. split; [now left|exact H].
  - apply bind_KeyError in H. destruct H as [H|(l & t2 & _ & H)].
    + apply IH in H. destruct H. split; [now right | assumption].
    + discriminate.
Qed.

Lemma only_choice_digits_KeyError values unit ds : forall result t k t',
  only_choice_digits values result unit ds t = (KeyError k, t') ->
  In k unit /\ get values k = None.
Proof.
  induction ds as [|d ds IH]; intros result t k t' H; simpl in H;
    [discriminate|].
  apply bind_KeyError in H. destruct H as [H|(bs & t1 & _ & H)].
  - eapply boxes_with_KeyError; eassumption.
  - destruct bs as [|b [|b' l]]; try (eapply IH; eassumption).
    apply bind_KeyError in H. destruct H as [H|(a & t2 & _ & H)].
    + unfold assign_value in H.
      destruct (String.length (str d) =? 1)%nat; discriminate.
    + eapply IH; eassumption.
Qed.

Lemma only_choice_units_KeyError values us : forall result t k t',
  only_choice_units values result us t = (KeyError k, t') ->
  get values k = None /\ exists u, In u us /\ In k u.
Proof.
  induction us as [|u us IH]; intros result t k t' H;
    cbn [only_choice_units] in H; [discriminate|].
  apply bind_KeyError in H. destruct H as [H|(a & t2 & _ & H)].
  - apply only_choice_digits_KeyError in H. destruct H. split; [assumption|].
    exists u. split; [now left | assumption].
  - apply IH in H. destruct H as [H (u' & Hu' & Hk)]. split; [assumption|].
    exists u'. split; [now right | assumption].
Qed.

Lemma only_choice_digits_present values unit d ds : forall result t r t',
  only_choice_digits values result unit (d :: ds) t = (Ok r, t') ->
  forall b, In b unit -> exists v, get values b = Some v.
Proof.
  intros result t r t' H. simpl in H. mstep H as bs t1 Hm.
  apply boxes_with_Ok in Hm. apply Hm.
Qed.

Lemma only_choice_units_present values us : forall result t r t',
  only_choice_units values result us t = (Ok r, t') ->
  forall u b, In u us -> In b u -> exists v, get values b = Some v.
Proof.
  induction us as [|u0 us IH]; intros result t r t' H u b Hu Hb;
    [destruct Hu|].
  cbn [only_choice_units] in H. mstep H as r1 t1 Hm.
  destruct Hu as [<-|Hu].
  - change (chars all_digits) with ("1"%char :: chars "23456789") in Hm.
    eapply only_choice_digits_present; eassumption.
  - eapply IH; eassumption.
Qed.

Lemma unit_boxes u : In u unitlist -> incl u boxes.
Proof.
  assert (H : forallb (fun u => forallb (fun b => mem b boxes) u) unitlist
              = true) by (vm_compute; reflexivity).
  rewrite forallb_forall in H. intros Hu b Hb.
  specialize (H u Hu). rewrite forallb_forall in H.
  apply mem_In. now apply H.
Qed.

Lemma box_in_unit b : In b boxes -> exists u, In u unitlist /\ In b u.
Proof.
  assert (H : forallb (fun b => existsb (fun u => mem b u) unitlist) boxes
              = true) by (vm_compute; reflexivity).
  rewrite forallb_forall in H. intros Hb. specialize (H b Hb).
  apply existsb_exists in H. destruct H as (u & Hu & Hm).
  exists u. split; [assumption | now apply mem_In].
Qed.

(** X7: [only_choice] reads [values[box]] for every box of every unit,
    so a board that lacks a box makes it raise [KeyError], and the key
    reported is a box the board lacks.  The empty board [{}] is such a
    board. *)
Theorem only_choice_missing_box values t box :
  In box boxes -> get values box = None ->
  exists k t', only_choice values t = (KeyError k, t') /\
    get values k = None /\ In k boxes.
Proof.
  intros Hb Hnone.
  destruct (only_choice values t) as [[r|k|] t'] eqn:E.
  - exfalso. destruct (box_in_unit Hb) as (u & Hu & Hbu).
    unfold only_choice in E.
    destruct (@only_choice_units_present _ _ _ _ _ _ E u box Hu Hbu) as [v Hv].
    congruence.
  - exists k, t'. split; [reflexivity|]. unfold only_choice in E.
    apply only_choice_units_KeyError in E.
    destruct E as [Hk (u & Hu & Hku)]. split; [assumption|].
    eapply unit_boxes; eassumption.
  - exfalso. apply (fuelled_only_choice values t). now rewrite E.
Qed.

Lemma only_choice_missing_box_witness :
  exists k t', only_choice [] [] = (KeyError k, t') /\
    get [] k = None /\ In k boxes.
Proof.
  apply (@only_choice_missing_box [] [] "A1").
  - vm_compute. auto.
  - reflexivity.
Defined.

(** X8: [reduce_puzzle] returns [{}] whenever its argument has an empty
    domain.  A result other than [{}] has the keys of the argument in
    the same order, every domain has only lost candidates, none is
    empty, and no fixed box's digit is left in the domain of any of its
    peers. *)
Theorem reduce_puzzle_spec values t y t' :
  reduce_puzzle values t = (Ok y, t') ->
  (count_len 0 values <> 0 -> y = []) /\
  (y <> [] ->
   keys y = keys values /\
   (forall k s, get values k = Some s ->
      exists s', get y k = Some s' /\ shrinks s s') /\
   count_len 0 y = 0 /\
   (forall k c ps p, get y k = Some (str c) -> peers k = Some ps ->
      In p ps -> exists s, get y p = Some s /\ has_char c s = false)).
Proof.
  intros H.
  assert (Hy : y <> [] ->
    evolves shrinks values y /\ count_len 0 y = 0 /\ settled y).
  { intros Hne. unfold reduce_puzzle in H.
    destruct (reduce_puzzle_loop_Ok _ _ _ H Hne) as (E & Z & S & _).
    now repeat split. }
  split.
  - intros Hz. destruct y as [|e y]; [reflexivity|]. exfalso.
    destruct Hy as (E & Z & _); [discriminate|].
    apply Hz. eapply no_empty_back; eassumption.
  - intros Hne. destruct (Hy Hne) as (E & Z & S).
    split; [eapply evolves_keys; exact E|].
    split; [intros k s Hk; eapply evolves_get; eassumption|].
    split; [exact Z|].
    intros k c ps p Hk Hps Hp. destruct (S k c Hk) as (ps' & Hps' & Hc).
    rewrite Hps in Hps'. injection Hps' as <-. now apply Hc.
Qed.

Lemma reduce_puzzle_spec_witness :
  value_of (reduce_puzzle (set blank_board "A1" EmptyString) []) = [].
Proof.
  refine (proj1 (@reduce_puzzle_spec (set blank_board "A1" EmptyString) []
            (value_of (reduce_puzzle (set blank_board "A1" EmptyString) []))
            (snd (reduce_puzzle (set blank_board "A1" EmptyString) [])) _) _);
    [|vm_compute; discriminate].
  rewrite (surjective_pairing
             (reduce_puzzle (set blank_board "A1" EmptyString) [])) at 1.
  apply f_equal2; [vm_compute; reflexivity | reflexivity].
Defined.

(** ** Further properties: boards with all the boxes *)

Unset Implicit Arguments.

Lemma bind_eq {A B} (m : M A) (f : A -> M B) t a t1 :
  m t = (Ok a, t1) -> bind m f t = f a t1.
Proof. intros H. unfold bind. now rewrite H. Qed.

Lemma lookup_eq d k v t : get d k = Some v -> lookup d k t = (Ok v, t).
Proof. intros H. unfold lookup. now rewrite H. Qed.

Lemma assign_value_eq values box value t :
  exists t', assign_value values box value t = (Ok (set values box value), t').
Proof. unfold assign_value. destruct (_ =? _)%nat; eauto. Qed.

Lemma peers_Some a :
  In a boxes -> exists ps, peers a = Some ps /\ incl ps boxes.
Proof.
  intros Ha. unfold peers, units.
  destruct (mem a boxes) eqn:E.
  - eexists. split; [reflexivity|].
    intros b Hb. apply peers_In in Hb. destruct Hb as (_ & u & Hu & _ & Hb).
    exact (unit_boxes Hu _ Hb).
  - apply mem_In in Ha. congruence.
Qed.

Lemma full_board_evolves P d d' :
  evolves P d d' -> full_board d -> full_board d'.
Proof. intros E F k. rewrite (evolves_keys E). apply F. Qed.

Lemma eliminate_peers_total c ps : forall grid t,
  incl ps (keys grid) ->
  exists g t', eliminate_peers grid c ps t = (Ok g, t').
Proof.
  induction ps as [|p ps IH]; intros grid t Hps; simpl.
  - unfold ret. eauto.
  - destruct (In_keys_get grid p) as [v Hv]; [apply Hps; now left|].
    rewrite (bind_eq _ _ _ _ _ (lookup_eq _ _ _ t Hv)).
    destruct (assign_value_eq grid p (remove_char c v) t) as [t1 Ha].
    rewrite (bind_eq _ _ _ _ _ Ha).
    apply IH. rewrite (keys_set _ _ _ Hv).
    intros x Hx. apply Hps. now right.
Qed.

Lemma eliminate_boxes_total ks : forall grid t,
  full_board grid -> incl ks (keys grid) ->
  exists g t', eliminate_boxes grid ks t = (Ok g, t').
Proof.
  induction ks as [|k ks IH]; intros grid t F Hks; simpl.
  - unfold ret. eauto.
  - assert (Hk : In k (keys grid)) by (apply Hks; now left).
    assert (Hks' : incl ks (keys grid)) by (intros x Hx; apply Hks; now right).
    destruct (In_keys_get grid k) as [v Hv]; [exact Hk|].
    rewrite (bind_eq _ _ _ _ _ (lookup_eq _ _ _ t Hv)).
    destruct (chars v) as [|c [|c' l]]; try now apply IH.
    destruct (peers_Some _ (proj1 (F k) Hk)) as (ps & Hps & Hin).
    assert (Hp : peers_of k t = (Ok ps, t)).
    { unfold peers_of. now rewrite Hps. }
    rewrite (bind_eq _ _ _ _ _ Hp).
    destruct (@eliminate_peers_total c ps grid t) as (g & t1 & Hg).
    { intros x Hx. apply F, Hin, Hx. }
    rewrite (bind_eq _ _ _ _ _ Hg).
    destruct (eliminate_peers_spec _ _ _ _ Hg) as [E _].
    apply IH.
    + exact (full_board_evolves _ _ _ E F).
    + now rewrite (evolves_keys E).
Qed.

Lemma eliminate_total values t :
  full_board values -> exists g t', eliminate values t = (Ok g, t').
Proof.
  intros F. apply eliminate_boxes_total; [exact F|]. intros x Hx. exact Hx.
Qed.

Lemma boxes_with_total values digit unit :
  incl unit (keys values) ->
  exists l, forall t, boxes_with values digit unit t = (Ok l, t).
Proof.
  induction unit as [|b unit IH]; intros Hu; simpl.
  - exists []. reflexivity.
  - destruct (In_keys_get values b) as [v Hv]; [apply Hu; now left|].
    destruct IH as [l Hl]; [intros x Hx; apply Hu; now right|].
    eexists. intros t.
    rewrite (bind_eq _ _ _ _ _ (lookup_eq _ _ _ t Hv)).
    rewrite (bind_eq _ _ _ _ _ (Hl t)). reflexivity.
Qed.

Lemma only_choice_digits_total values unit :
  incl unit (keys values) ->
  forall ds result t,
    exists r t', only_choice_digits values result unit ds t = (Ok r, t').
Proof.
  intros Hu. induction ds as [|d ds IH]; intros result t; simpl.
  - unfold ret. eauto.
  - destruct (boxes_with_total values d _ Hu) as [l Hl].
    rewrite (bind_eq _ _ _ _ _ (Hl t)).
    destruct l as [|b [|b' l]]; apply IH.
Qed.

Lemma only_choice_units_total values us :
  (forall u, In u us -> incl u (keys values)) ->
  forall result t,
    exists r t', only_choice_units values result us t = (Ok r, t').
Proof.
  induction us as [|u us IH]; intros Hus result t; simpl.
  - unfold ret. eauto.
  - destruct (@only_choice_digits_total values u (Hus u (or_introl eq_refl))
                (chars all_digits) result t) as (r & t1 & Hr).
    rewrite (bind_eq _ _ _ _ _ Hr). apply IH.
    intros u' Hu'. apply Hus. now right.
Qed.

Lemma full_board_units values u :
  full_board values -> In u unitlist -> incl u (keys values).
Proof. intros F Hu x Hx. apply F. exact (unit_boxes Hu _ Hx). Qed.

Lemma only_choice_total values t :
  full_board values -> exists r t', only_choice values t = (Ok r, t').
Proof.
  intros F. apply only_choice_units_total.
  intros u Hu. now apply full_board_units.
Qed.

Lemma reduce_puzzle_loop_no_KeyError fuel : forall values t k,
  full_board values -> fst (reduce_puzzle_loop fuel values t) <> KeyError k.
Proof.
  induction fuel as [|fuel IH]; intros values t k F; simpl.
  - discriminate.
  - destruct (eliminate_total _ t F) as (e & t1 & He).
    rewrite (bind_eq _ _ _ _ _ He).
    pose proof (full_board_evolves _ _ _ (eliminate_evolves _ _ He) F) as Fe.
    destruct (only_choice_total _ t1 Fe) as (y & t2 & Hy).
    rewrite (bind_eq _ _ _ _ _ Hy).
    pose proof (full_board_evolves _ _ _ (only_choice_evolves _ _ Hy) Fe) as Fy.
    destruct (negb _); [discriminate|].
    destruct (_ =? _)%nat; [discriminate|].
    now apply IH.
Qed.

Lemma reduce_puzzle_total values t :
  full_board values -> exists y t', reduce_puzzle values t = (Ok y, t').
Proof.
  intros F.
  destruct (reduce_puzzle values t) as [[y|k|] t'] eqn:E.
  - eauto.
  - exfalso. apply (@reduce_puzzle_loop_no_KeyError (S (length values)) values t k F).
    unfold reduce_puzzle in E. now rewrite E.
  - exfalso. apply (reduce_puzzle_fuelled values t). now rewrite E.
Qed.

Lemma group_boxes_total values unit :
  incl unit (keys values) ->
  forall ctb, exists G, forall t, group_boxes values ctb unit t = (Ok G, t).
Proof.
  induction unit as [|b unit IH]; intros Hu ctb; simpl.
  - exists ctb. reflexivity.
  - destruct (In_keys_get values b) as [v Hv]; [apply Hu; now left|].
    assert (Hu' : incl unit (keys values)) by (intros x Hx; apply Hu; now right).
    destruct (negb (String.length (canonicalize v) =? 2)%nat) eqn:E.
    + destruct (IH Hu' ctb) as [G HG]. exists G. intros t.
      rewrite (bind_eq _ _ _ _ _ (lookup_eq _ _ _ t Hv)).
      cbv zeta. now rewrite E.
    + destruct (IH Hu' (add_box ctb (canonicalize v) b)) as [G HG].
      exists G. intros t.
      rewrite (bind_eq _ _ _ _ _ (lookup_eq _ _ _ t Hv)).
      cbv zeta. now rewrite E.
Qed.

Lemma twins_peers_total choices ps : forall values t,
  incl ps (keys values) ->
  exists f t', twins_peers values choices ps t = (Ok f, t').
Proof.
  induction ps as [|p ps IH]; intros values t Hps; simpl.
  - unfold ret. eauto.
  - destruct (In_keys_get values p) as [v Hv]; [apply Hps; now left|].
    rewrite (bind_eq _ _ _ _ _ (lookup_eq _ _ _ t Hv)).
    destruct (without v choices) as [|a w] eqn:W.
    + unfold ret. eauto.
    + destruct (assign_value_eq values p (String a w) t) as [t1 Ha].
      rewrite (bind_eq _ _ _ _ _ Ha). apply IH.
      rewrite (keys_set _ _ _ Hv). intros x Hx. apply Hps. now right.
Qed.

Lemma to_set_incl l : incl (to_set l) l.
Proof. intros x Hx. now apply to_set_In. Qed.

Lemma twins_groups_total unit groups : forall values t,
  incl unit (keys values) ->
  exists f t', twins_groups values unit groups t = (Ok f, t').
Proof.
  induction groups as [|[choices bs] groups IH]; intros values t Hu; simpl.
  - unfold ret. eauto.
  - destruct (_ <? _)%nat; [now apply IH|].
    destruct (_ <? _)%nat; [unfold ret; eauto|].
    destruct (@twins_peers_total choices (set_diff (to_set unit) (to_set bs))
                values t) as ([v'|d] & t1 & Hf).
    { intros x Hx. apply Hu, to_set_incl.
      unfold set_diff in Hx. apply filter_In in Hx. tauto. }
    + rewrite (bind_eq _ _ _ _ _ Hf). apply IH.
      destruct (twins_peers_Continue _ _ _ _ Hf) as [E _].
      now rewrite (evolves_keys E).
    + rewrite (bind_eq _ _ _ _ _ Hf). unfold ret. eauto.
Qed.

Lemma twins_unit_total values unit t :
  incl unit (keys values) ->
  exists f t', twins_unit values unit t = (Ok f, t').
Proof.
  intros Hu. unfold twins_unit.
  destruct (group_boxes_total _ _ Hu []) as [G HG].
  rewrite (bind_eq _ _ _ _ _ (HG t)). now apply twins_groups_total.
Qed.

Lemma twins_units_total us : forall values t,
  (forall u, In u us -> incl u (keys values)) ->
  exists f t', twins_units values us t = (Ok f, t').
Proof.
  induction us as [|u us IH]; intros values t Hus; simpl.
  - unfold ret. eauto.
  - destruct (@twins_unit_total values u t (Hus u (or_introl eq_refl)))
      as ([v'|d] & t1 & Hf); rewrite (bind_eq _ _ _ _ _ Hf).
    + apply IH. intros u' Hu'.
      rewrite (evolves_keys (twins_unit_Continue _ _ _ Hf)).
      apply Hus. now right.
    + unfold ret. eauto.
Qed.

Lemma naked_twins_total values t :
  full_board values -> exists v t', naked_twins values t = (Ok v, t').
Proof.
  intros F. unfold naked_twins.
  destruct (@twins_units_total unitlist values t) as ([v'|d] & t1 & Hf).
  { intros u Hu. now apply full_board_units. }
  - rewrite (bind_eq _ _ _ _ _ Hf). unfold ret. eauto.
  - rewrite (bind_eq _ _ _ _ _ Hf). unfold ret. eauto.
Qed.

Lemma full_board_grid_values grid :
  String.length grid = 81 -> full_board (grid_values grid).
Proof.
  intros L k. unfold grid_values.
  rewrite (keys_combine (fun c => if Ascii.eqb c "." then all_digits else str c)).
  rewrite length_chars, L.
  change 81 with (length boxes). now rewrite firstn_all.
Qed.

(** ** Further properties: the depth of search *)

Local Notation "'undecided'" :=
  (fun sc : string * string => (1 <? String.length (snd sc))%nat).

Lemma set_set d k v v' : set (set d k v) k v' = set d k v'.
Proof.
  induction d as [|[k0 v0] d IH]; simpl.
  - now rewrite String.eqb_refl.
  - destruct (String.eqb k k0) eqn:E; simpl; rewrite E; [reflexivity|].
    now rewrite IH.
Qed.

Lemma get_of_In d k v : NoDup (keys d) -> In (k, v) d -> get d k = Some v.
Proof.
  induction d as [|[k0 v0] d IH]; simpl; intros N H; [contradiction|].
  inversion N as [|? ? Hn N']; subst.
  destruct H as [H|H].
  - inversion H; subst. now rewrite String.eqb_refl.
  - destruct (String.eqb k k0) eqn:E.
    + apply String.eqb_eq in E. subst. exfalso. apply Hn.
      apply in_map_iff. exists (k0, v). auto.
    + now apply IH.
Qed.

Lemma count_open_evolves d d' :
  evolves shrinks d d' -> count_open d' <= count_open d.
Proof.
  unfold evolves, count_open.
  induction 1 as [|[k s] [k' s'] d d' [_ Hs] _ IH]; simpl; [lia|].
  destruct Hs as (_ & L & _). simpl in L.
  destruct (1 <? String.length s')%nat eqn:A;
    destruct (1 <? String.length s)%nat eqn:B; simpl; try lia.
  apply Nat.ltb_lt in A. apply Nat.ltb_ge in B. lia.
Qed.

Lemma count_open_set d k s c :
  get d k = Some s -> 1 < String.length s ->
  S (count_open (set d k (str c))) = count_open d.
Proof.
  unfold count_open.
  induction d as [|[k0 v0] d IH]; simpl; [discriminate|].
  destruct (String.eqb k k0) eqn:E; intros H L.
  - inversion H; subst. apply Nat.ltb_lt in L. simpl. now rewrite L.
  - simpl. destruct (1 <? String.length v0)%nat; simpl; now rewrite <- (IH H L).
Qed.

Lemma count_open_length d : count_open d <= length d.
Proof. apply filter_length_le. Qed.

Lemma undecided_In d k :
  In k (keys (filter undecided d)) ->
  exists s, In (k, s) d /\ 1 < String.length s.
Proof.
  unfold keys. intros H. apply in_map_iff in H.
  destruct H as ([k' s] & <- & H). apply filter_In in H.
  destruct H as [H L]. exists s. split; [exact H|]. now apply Nat.ltb_lt.
Qed.

Lemma undecided_keys d k : In k (keys (filter undecided d)) -> In k (keys d).
Proof.
  intros H. destruct (undecided_In _ _ H) as (s & Hs & _).
  unfold keys. apply in_map_iff. exists (k, s). auto.
Qed.

Lemma num_choices_eq d x v t :
  get d x = Some v -> num_choices d x t = (Ok (String.length v), t).
Proof.
  intros H. unfold num_choices.
  now rewrite (bind_eq _ _ _ _ _ (lookup_eq _ _ _ t H)).
Qed.

Lemma min_from_total d l :
  incl l (keys d) ->
  forall best kbest, exists r,
    (r = best \/ In r l) /\
    forall t, min_from (num_choices d) best kbest l t = (Ok r, t).
Proof.
  induction l as [|x l IH]; intros H best kbest; simpl.
  - exists best. split; [now left|reflexivity].
  - destruct (In_keys_get d x) as [v Hv]; [apply H; now left|].
    assert (H' : incl l (keys d)) by (intros y Hy; apply H; now right).
    destruct (String.length v <? kbest)%nat eqn:E.
    + destruct (IH H' x (String.length v)) as (r & Hr & Hm).
      exists r. split; [destruct Hr; auto|]. intros t.
      rewrite (bind_eq _ _ _ _ _ (num_choices_eq _ _ _ t Hv)).
      rewrite E. apply Hm.
    + destruct (IH H' best kbest) as (r & Hr & Hm).
      exists r. split; [destruct Hr; auto|]. intros t.
      rewrite (bind_eq _ _ _ _ _ (num_choices_eq _ _ _ t Hv)).
      rewrite E. apply Hm.
Qed.

(** One level of [search], once [reduce_puzzle] has returned. *)
Lemma search_unfold values t v1 t1 :
  reduce_puzzle values t = (Ok v1, t1) ->
  (v1 = [] -> forall fuel, search (S fuel) values t = (Ok [], t1)) /\
  (v1 <> [] -> keys (filter undecided v1) = [] ->
   forall fuel, search (S fuel) values t = (Ok v1, t1)) /\
  (v1 <> [] -> keys (filter undecided v1) <> [] ->
   exists sq ds,
     In sq (keys (filter undecided v1)) /\ get v1 sq = Some ds /\
     forall fuel,
       search (S fuel) values t =
       search_digits (search fuel) v1 sq (chars ds) t1).
Proof.
  intros R. split; [|split].
  - intros -> fuel. cbn [search]. now rewrite (bind_eq _ _ _ _ _ R).
  - intros Hne Hk fuel. cbn [search]. rewrite (bind_eq _ _ _ _ _ R).
    destruct v1 as [|p v1]; [congruence|]. cbv zeta. now rewrite Hk.
  - intros Hne Hk.
    destruct v1 as [|p v1]; [congruence|].
    destruct (keys (filter undecided (p :: v1))) as [|s0 rest] eqn:K;
      [congruence|].
    assert (Hin : incl (s0 :: rest) (keys (p :: v1))).
    { intros x Hx. apply undecided_keys. now rewrite K. }
    destruct (In_keys_get (p :: v1) s0) as [v0 Hv0]; [apply Hin; now left|].
    destruct (min_from_total (p :: v1) rest
                ltac:(intros x Hx; apply Hin; now right)
                s0 (String.length v0)) as (r & Hr & Hm).
    assert (Hr' : In r (s0 :: rest)) by (destruct Hr; [left|right]; auto).
    destruct (In_keys_get (p :: v1) r) as [ds Hds]; [now apply Hin|].
    exists r, ds. split; [exact Hr'|]. split; [exact Hds|].
    intros fuel. cbn [search]. rewrite (bind_eq _ _ _ _ _ R).
    cbv zeta. rewrite K.
    rewrite (bind_eq _ _ _ _ _ (num_choices_eq _ _ _ t1 Hv0)).
    rewrite (bind_eq _ _ _ _ _ (Hm t1)).
    now rewrite (bind_eq _ _ _ _ _ (lookup_eq _ _ _ t1 Hds)).
Qed.

(** The loop over the digits calls [rec] on boards that differ from
    [values] in the chosen square only. *)
Lemma search_digits_ext rec rec' sq ds : forall values t,
  (forall d t0, In d ds ->
     rec' (set values sq (str d)) t0 = rec (set values sq (str d)) t0) ->
  search_digits rec' values sq ds t = search_digits rec values sq ds t.
Proof.
  induction ds as [|d ds IH]; intros values t H; simpl; [reflexivity|].
  destruct (assign_value_eq values sq (str d) t) as [t1 Ha].
  rewrite !(bind_eq _ _ _ _ _ Ha). unfold bind.
  rewrite (H d t1 (or_introl eq_refl)).
  destruct (rec (set values sq (str d)) t1) as [[[|p y]|k|] t2]; auto.
  apply IH. intros d' t0 Hd'. rewrite !set_set. apply H. now right.
Qed.

Lemma search_digits_outcome (Q : outcome dict -> Prop) rec sq ds :
  (forall y, Q (Ok y)) ->
  forall values t,
    (forall d t0, In d ds -> Q (fst (rec (set values sq (str d)) t0))) ->
    Q (fst (search_digits rec values sq ds t)).
Proof.
  intros HQ. induction ds as [|d ds IH]; intros values t H; simpl.
  - apply HQ.
  - destruct (assign_value_eq values sq (str d) t) as [t1 Ha].
    rewrite (bind_eq _ _ _ _ _ Ha). unfold bind.
    pose proof (H d t1 (or_introl eq_refl)) as Hd.
    destruct (rec (set values sq (str d)) t1) as [[[|p y]|k|] t2];
      simpl in *; auto.
    apply IH. intros d' t0 Hd'. rewrite set_set. apply H. now right.
Qed.

(** What the chosen square and its board look like to the level below. *)
Lemma search_branch values t v1 t1 sq :
  NoDup (keys values) ->
  reduce_puzzle values t = (Ok v1, t1) -> v1 <> [] ->
  In sq (keys (filter undecided v1)) ->
  forall d,
    keys (set v1 sq (str d)) = keys values /\
    S (count_open (set v1 sq (str d))) <= count_open values.
Proof.
  intros N R Hne Hsq d.
  destruct (reduce_puzzle_loop_Ok _ _ _ R Hne) as (E & _).
  destruct (undecided_In _ _ Hsq) as (s & Hs & L).
  assert (Hg : get v1 sq = Some s).
  { apply get_of_In; [|exact Hs]. now rewrite (evolves_keys E). }
  split.
  - rewrite (keys_set _ _ _ Hg). apply (evolves_keys E).
  - rewrite (count_open_set _ _ _ d Hg L). now apply count_open_evolves.
Qed.

Lemma search_fuel_mono fuel : forall fuel' values t,
  NoDup (keys values) -> count_open values < fuel -> fuel <= fuel' ->
  search fuel' values t = search fuel values t /\
  fst (search fuel values t) <> OutOfFuel.
Proof.
  induction fuel as [|fuel IH]; intros fuel' values t N C L; [lia|].
  destruct fuel' as [|fuel']; [lia|].
  destruct (reduce_puzzle values t) as [[v1|k|] t1] eqn:R.
  - destruct (search_unfold _ _ _ _ R) as (U1 & U2 & U3).
    assert (D : v1 = [] \/ v1 <> [])
      by (destruct v1; [left|right]; congruence).
    destruct D as [D|D].
    { rewrite !(U1 D). split; [reflexivity|discriminate]. }
    assert (D2 : keys (filter undecided v1) = [] \/
                 keys (filter undecided v1) <> [])
      by (destruct (keys (filter undecided v1)); [left|right]; congruence).
    destruct D2 as [D2|D2].
    { rewrite !(U2 D D2). split; [reflexivity|discriminate]. }
    destruct (U3 D D2) as (sq & ds & Hsq & Hds & U). rewrite !U.
    pose proof (search_branch _ _ _ _ sq N R D Hsq) as B.
    split.
    + apply search_digits_ext. intros d t0 _.
      destruct (B d) as [Bk Bc].
      apply (IH fuel' _ t0); [now rewrite Bk|lia|lia].
    + apply (search_digits_outcome (fun o => o <> OutOfFuel));
        [discriminate|].
      intros d t0 _. destruct (B d) as [Bk Bc].
      apply (IH fuel _ t0); [now rewrite Bk|lia|lia].
  - cbn [search]. unfold bind. rewrite R. split; [reflexivity|discriminate].
  - exfalso. apply (reduce_puzzle_fuelled values t). now rewrite R.
Qed.

Lemma search_full_Ok fuel : forall values t,
  full_board values -> NoDup (keys values) -> count_open values < fuel ->
  exists y t', search fuel values t = (Ok y, t').
Proof.
  induction fuel as [|fuel IH]; intros values t F N C; [lia|].
  destruct (reduce_puzzle_total _ t F) as (v1 & t1 & R).
  destruct (search_unfold _ _ _ _ R) as (U1 & U2 & U3).
  assert (D : v1 = [] \/ v1 <> [])
    by (destruct v1; [left|right]; congruence).
  destruct D as [D|D].
  { rewrite (U1 D). eauto. }
  assert (D2 : keys (filter undecided v1) = [] \/
               keys (filter undecided v1) <> [])
    by (destruct (keys (filter undecided v1)); [left|right]; congruence).
  destruct D2 as [D2|D2].
  { rewrite (U2 D D2). eauto. }
  destruct (U3 D D2) as (sq & ds & Hsq & Hds & U). rewrite U.
  pose proof (search_branch _ _ _ _ sq N R D Hsq) as B.
  assert (H : exists y, fst (search_digits (search fuel) v1 sq (chars ds) t1)
                        = Ok y).
  { apply (search_digits_outcome (fun o => exists y, o = Ok y)); [eauto|].
    intros d t0 _. destruct (B d) as [Bk Bc].
    destruct (IH (set v1 sq (str d)) t0) as (y & t' & Hy).
    - intros k. rewrite Bk. apply F.
    - now rewrite Bk.
    - lia.
    - rewrite Hy. simpl. eauto. }
  destruct H as [y Hy].
  destruct (search_digits (search fuel) v1 sq (chars ds) t1) as [o t'].
  simpl in Hy. subst o. eauto.
Qed.

(** X9: on a board whose keys are the 81 boxes, [eliminate],
    [only_choice], [reduce_puzzle] and [naked_twins] return a board: no
    subscript raises [KeyError], and the loop of [reduce_puzzle] ends. *)
Theorem propagation_total values t :
  full_board values ->
  (exists g t', eliminate values t = (Ok g, t')) /\
  (exists r t', only_choice values t = (Ok r, t')) /\
  (exists y t', reduce_puzzle values t = (Ok y, t')) /\
  (exists v t', naked_twins values t = (Ok v, t')).
Proof.
  intros F. repeat split.
  - now apply eliminate_total.
  - now apply only_choice_total.
  - now apply reduce_puzzle_total.
  - now apply naked_twins_total.
Qed.

Lemma propagation_total_witness :
  exists g t', eliminate (grid_values diag_sudoku_grid) [] = (Ok g, t').
Proof.
  refine (proj1 (propagation_total (grid_values diag_sudoku_grid) [] _)).
  apply full_board_grid_values. reflexivity.
Defined.

(** X10: [search] never recurses deeper than the number of boxes with
    more than one candidate, plus one.  On a board without duplicate keys
    a budget above that number is never used up, a larger budget gives
    the same result, and on a board with all 81 boxes the call returns. *)
Theorem search_terminates fuel values t :
  NoDup (keys values) -> count_open values < fuel ->
  fst (search fuel values t) <> OutOfFuel /\
  (forall fuel', fuel <= fuel' ->
     search fuel' values t = search fuel values t) /\
  (full_board values -> exists y t', search fuel values t = (Ok y, t')).
Proof.
  intros N C. split; [|split].
  - now apply (search_fuel_mono fuel fuel values t).
  - intros fuel' L. now apply search_fuel_mono.
  - intros F. now apply search_full_Ok.
Qed.

Lemma search_terminates_witness :
  fst (search 82 (grid_values diag_sudoku_grid) []) <> OutOfFuel.
Proof.
  refine (proj1 (search_terminates 82 (grid_values diag_sudoku_grid) [] _ _)).
  - apply nodupb_NoDup. vm_compute. reflexivity.
  - vm_compute. lia.
Defined.

(** ** Further properties: what search and solve return *)

Lemma search_digits_narrows rec sq :
  (forall v t y t', rec v t = (Ok y, t') -> y <> [] ->
     evolves narrows v y /\ solved y) ->
  forall ds values t y t',
    search_digits rec values sq ds t = (Ok y, t') -> y <> [] ->
    exists d, In d ds /\ evolves narrows (set values sq (str d)) y /\ solved y.
Proof.
  intros Hrec. induction ds as [|d ds IH]; intros values t y t' H Hne.
  - simpl in H. inversion H. congruence.
  - simpl in H.
    destruct (assign_value_eq values sq (str d) t) as [t1 Ha].
    rewrite (bind_eq _ _ _ _ _ Ha) in H. unfold bind in H.
    destruct (rec (set values sq (str d)) t1) as [[[|p s]|k|] t2] eqn:R;
      try discriminate.
    + destruct (IH _ _ _ _ H Hne) as (d' & Hd' & E & S).
      rewrite set_set in E. exists d'. split; [now right|]. now split.
    + inversion H; subst. exists d. split; [now left|].
      apply (Hrec _ _ _ _ R). discriminate.
Qed.

Lemma shrinks_narrows a b : shrinks a b -> narrows a b.
Proof. intros H. exact (proj1 H). Qed.

Lemma search_narrows fuel : forall values t y t',
  search fuel values t = (Ok y, t') -> y <> [] ->
  evolves narrows values y /\ solved y.
Proof.
  induction fuel as [|fuel IH]; intros values t y t' H Hne; [discriminate|].
  destruct (search_step _ _ _ H Hne) as (v1 & t1 & R & Hv1 & Hc).
  destruct (reduce_puzzle_loop_Ok _ _ _ R Hv1) as (E & H0 & _).
  pose proof (evolves_impl shrinks_narrows E) as E1.
  destruct Hc as [[Hk ->]|(sq & ds & t4 & Hds & Hs)].
  - split; [exact E1|]. now apply all_fixed.
  - destruct (search_digits_narrows _ sq IH _ _ _ _ _ Hs Hne) as (d & Hd & E2 & S).
    split; [|exact S].
    apply (evolves_trans narrows_trans E1).
    apply (evolves_trans narrows_trans (d2 := set v1 sq (str d))); [|exact E2].
    apply evolves_set with (s := ds); [apply evolves_refl|exact Hds|].
    + intros s x Hx. exact Hx.
    + intros s0 Hs0. rewrite Hds in Hs0. inversion Hs0; subst.
      intros x [<-|[]]. exact Hd.
Qed.

Lemma search_empty_board fuel t : search (S fuel) [] t = (KeyError "A1", t).
Proof.
  assert (R : reduce_puzzle [] t = (KeyError "A1", t)).
  { rewrite (appends_reduce_puzzle [] t).
    assert (E : reduce_puzzle [] [] = (KeyError "A1", []))
      by (vm_compute; reflexivity).
    rewrite E. simpl. now rewrite app_nil_r. }
  cbn [search]. unfold bind. now rewrite R.
Qed.

(** X11: a board that [search] returns, unless it is the empty dict of a
    failed search, has the keys of the input in the same order, one
    candidate in every box, and in each box a candidate the input had
    there: givens are kept and no digit is invented. *)
Theorem search_respects_candidates fuel values t y t' :
  search fuel values t = (Ok y, t') -> y <> [] ->
  keys y = keys values /\
  forall k s, get values k = Some s ->
    exists c, get y k = Some (str c) /\ In c (chars s).
Proof.
  intros H Hne.
  destruct (search_narrows _ _ _ _ _ H Hne) as [E S].
  split; [exact (evolves_keys E)|].
  intros k s Hk.
  destruct (evolves_get k E Hk) as (s' & Hs' & Hn).
  assert (L : String.length s' = 1).
  { unfold solved in S. rewrite Forall_forall in S.
    clear - S Hs'. induction y as [|[k0 v0] y IH]; simpl in *; [discriminate|].
    destruct (String.eqb k k0).
    - inversion Hs'; subst. apply (S (k0, s')). now left.
    - apply IH; [|exact Hs']. intros x Hx. apply S. now right. }
  destruct s' as [|c [|c' s']]; simpl in L; try discriminate.
  exists c. split; [exact Hs'|]. apply Hn. now left.
Qed.

Lemma search_respects_candidates_witness :
  keys (value_of (search 1 solved_board [])) = keys solved_board.
Proof.
  refine (proj1 (search_respects_candidates 1 solved_board []
                   (value_of (search 1 solved_board []))
                   (snd (search 1 solved_board [])) _ _)).
  - rewrite (surjective_pairing (search 1 solved_board [])) at 1.
    apply f_equal2; [vm_compute; reflexivity|reflexivity].
  - vm_compute. discriminate.
Defined.

(** X12: on a grid of 81 characters the first [reduce_puzzle] of [solve]
    returns.  If it returns the empty dict, [solve] raises
    [KeyError('A1')]: [search] reduces the empty dict again and
    [only_choice] subscripts it.  Otherwise [solve] returns a board, the
    same for every recursion budget from 82 on. *)
Theorem solve_outcome grid t :
  String.length grid = 81 ->
  exists y1 t1,
    reduce_puzzle (grid_values grid) t = (Ok y1, t1) /\
    (y1 = [] -> forall fuel, solve (S fuel) grid t = (KeyError "A1", t1)) /\
    (y1 <> [] -> exists y t',
       forall fuel, 82 <= fuel -> solve fuel grid t = (Ok y, t')).
Proof.
  intros L.
  pose proof (full_board_grid_values grid L) as F.
  destruct (reduce_puzzle_total _ t F) as (y1 & t1 & R).
  exists y1, t1. split; [exact R|]. split.
  - intros -> fuel. unfold solve. cbv zeta.
    rewrite (bind_eq _ _ _ _ _ R). apply search_empty_board.
  - intros Hne.
    destruct (reduce_puzzle_loop_Ok _ _ _ R Hne) as (E & _).
    assert (K : keys y1 = boxes).
    { rewrite (evolves_keys E). unfold grid_values.
      rewrite (keys_combine (fun c => if Ascii.eqb c "." then all_digits else str c)).
      rewrite length_chars, L. change 81 with (length boxes).
      apply firstn_all. }
    assert (N : NoDup (keys y1)) by (rewrite K; apply boxes_NoDup).
    assert (C : count_open y1 < 82).
    { pose proof (count_open_length y1) as C.
      assert (length y1 = 81).
      { rewrite <- (length_map fst y1). fold (keys y1). now rewrite K. }
      lia. }
    destruct (search_full_Ok 82 y1 t1 (full_board_evolves _ _ _ E F) N C)
      as (y & t' & Hy).
    exists y, t'. intros fuel Hf. unfold solve. cbv zeta.
    rewrite (bind_eq _ _ _ _ _ R).
    rewrite (proj1 (search_fuel_mono 82 fuel y1 t1 N C Hf)). exact Hy.
Qed.

Lemma solve_outcome_witness :
  exists y1 t1,
    reduce_puzzle (grid_values two_fives) [] = (Ok y1, t1) /\
    (y1 = [] -> forall fuel, solve (S fuel) two_fives [] = (KeyError "A1", t1)) /\
    (y1 <> [] -> exists y t',
       forall fuel, 82 <= fuel -> solve fuel two_fives [] = (Ok y, t')).
Proof.
  apply (solve_outcome two_fives []). reflexivity.
Defined.

(** ** Further properties: display *)

Lemma length_times c n : String.length (times c n) = n.
Proof. induction n; simpl; congruence. Qed.

Lemma length_append (a b : string) :
  String.length (a ++ b) = String.length a + String.length b.
Proof. induction a; simpl; congruence. Qed.

Lemma length_center s width :
  String.length s <= width -> String.length (center s width) = width.
Proof.
  intros L. unfold center.
  destruct (width <=? String.length s)%nat eqn:E.
  - apply Nat.leb_le in E. lia.
  - apply Nat.leb_gt in E. cbv zeta.
    rewrite !length_append, !length_times.
    assert (H : (width - String.length s) / 2 +
                (if Nat.odd (width - String.length s) && Nat.odd width
                 then 1 else 0) <= width - String.length s).
    { remember (width - String.length s) as m eqn:Hm.
      assert (0 < m) by lia.
      pose proof (Nat.div_mod_eq m 2) as D.
      pose proof (Nat.mod_upper_bound m 2 ltac:(lia)) as U.
      destruct (Nat.odd m && Nat.odd width); lia. }
    lia.
Qed.

Lemma lengths_KeyError values bs k :
  lengths values bs = KeyError k -> In k bs /\ get values k = None.
Proof.
  induction bs as [|b bs IH]; simpl; [discriminate|].
  destruct (get values b) as [v|] eqn:G.
  - destruct (lengths values bs) as [ls|k'|]; try discriminate.
    intros H. inversion H; subst. destruct (IH eq_refl). auto.
  - intros H. inversion H; subst. auto.
Qed.

Lemma lengths_Ok values bs ls :
  lengths values bs = Ok ls ->
  forall b, In b bs -> exists v, get values b = Some v /\ String.length v <= list_max ls.
Proof.
  revert ls. induction bs as [|b0 bs IH]; simpl; intros ls H b Hb; [contradiction|].
  destruct (get values b0) as [v|] eqn:G; [|discriminate].
  destruct (lengths values bs) as [ls'|k'|]; try discriminate.
  inversion H; subst. simpl.
  destruct Hb as [<-|Hb].
  - exists v. split; [exact G|lia].
  - destruct (IH ls' eq_refl b Hb) as (v' & Hv' & L).
    exists v'. split; [exact Hv'|lia].
Qed.

Lemma lengths_total values bs :
  incl bs (keys values) -> exists ls, lengths values bs = Ok ls.
Proof.
  induction bs as [|b bs IH]; simpl; intros H; [eauto|].
  destruct (In_keys_get values b) as [v Hv]; [apply H; now left|].
  rewrite Hv. destruct IH as [ls Hls]; [intros x Hx; apply H; now right|].
  rewrite Hls. eauto.
Qed.

Lemma lengths_never_OutOfFuel values bs : lengths values bs <> OutOfFuel.
Proof.
  induction bs as [|b bs IH]; simpl; [discriminate|].
  destruct (get values b); [|discriminate].
  destruct (lengths values bs); try discriminate. congruence.
Qed.

Lemma display_cells_Ok values width r cs :
  (forall c, In c cs -> exists v,
     get values (str r ++ str c) = Some v /\ String.length v <= width) ->
  exists s,
    display_cells values width r cs = Ok s /\
    String.length s =
    width * length cs + length (filter (fun c => has_char c "36") cs).
Proof.
  induction cs as [|c cs IH]; intros H.
  - exists EmptyString. simpl. split; [reflexivity|lia].
  - destruct (H c (or_introl eq_refl)) as (v & Hv & L).
    destruct IH as (s & Hs & Ls); [intros c' Hc'; apply H; now right|].
    cbn [display_cells]. rewrite Hv, Hs. eexists. split; [reflexivity|].
    rewrite !length_append, (length_center _ _ L), Ls.
    cbn [filter length].
    destruct (has_char c "36"); simpl; lia.
Qed.

Lemma display_rows_Ok values width line rs :
  (forall r c, In r rs -> In c (chars cols) -> exists v,
     get values (str r ++ str c) = Some v /\ String.length v <= width) ->
  forall out, exists out',
    display_rows values width line rs out = (Ok tt, out ++ out') /\
    length out' = length rs + length (filter (fun r => has_char r "CF") rs) /\
    forall l, In l out' -> l = line \/ String.length l = width * 9 + 2.
Proof.
  induction rs as [|r rs IH]; intros H out.
  - exists []. simpl. rewrite app_nil_r. repeat split. intros l [].
  - destruct (display_cells_Ok values width r (chars cols)) as (s & Hs & Ls).
    { intros c Hc. apply H; [now left|exact Hc]. }
    cbn [display_rows]. rewrite Hs. cbv zeta.
    destruct (IH ltac:(intros r' c Hr' Hc; apply H; [now right|exact Hc])
                (if has_char r "CF" then (out ++ [s]) ++ [line] else out ++ [s]))
      as (out' & Ho & Lo & Hl).
    rewrite Ho. cbn [filter].
    destruct (has_char r "CF").
    + exists (s :: line :: out'). split; [now rewrite <- !app_assoc|].
      split; [simpl; lia|].
      intros l [<-|[<-|Hin]]; auto.
    + exists (s :: out'). split; [now rewrite <- !app_assoc|].
      split; [simpl; lia|].
      intros l [<-|Hin]; auto.
Qed.

Lemma in_boxes r c : In r (chars rows) -> In c (chars cols) -> In (str r ++ str c)%string boxes.
Proof.
  intros Hr Hc. unfold boxes, cross. apply in_flat_map. exists r.
  split; [exact Hr|]. apply in_map_iff. exists c. auto.
Qed.

(** X13: [display] computes the column width before it prints, so on a
    mapping that lacks a box it raises [KeyError] for a box the mapping
    does not have, and prints nothing.  This is what happens to the
    empty dict that a failed [search] returns. *)
Theorem display_missing_box values box :
  In box boxes -> get values box = None ->
  exists k, display values = (KeyError k, []) /\
            In k boxes /\ get values k = None.
Proof.
  intros Hb Hg. unfold display.
  destruct (lengths values boxes) as [ls|k|] eqn:E.
  - destruct (lengths_Ok _ _ _ E box Hb) as (v & Hv & _). congruence.
  - exists k. split; [reflexivity|]. now apply lengths_KeyError.
  - now apply lengths_never_OutOfFuel in E.
Qed.

Lemma display_missing_box_witness :
  exists k, display [] = (KeyError k, []) /\ In k boxes /\ get [] k = None.
Proof.
  apply (display_missing_box [] "A1"); [vm_compute; tauto|reflexivity].
Defined.

Lemma display_grid values :
  (forall b, In b boxes -> In b (keys values)) ->
  exists ls out,
    lengths values boxes = Ok ls /\
    display values = (Ok tt, out) /\
    length out = 11 /\
    (forall l, In l out -> String.length l = 9 * (1 + list_max ls) + 2).
Proof.
  intros F. unfold display.
  destruct (lengths_total values boxes F) as [ls E]. rewrite E. cbv zeta.
  pose proof (lengths_Ok _ _ _ E) as B.
  destruct (display_rows_Ok values (1 + list_max ls)
              (times "-" ((1 + list_max ls) * 3) ++ "+" ++
               times "-" ((1 + list_max ls) * 3) ++ "+" ++
               times "-" ((1 + list_max ls) * 3))%string (chars rows))
    with (out := @nil string) as (out & Ho & Lo & Hl).
  { intros r c Hr Hc. destruct (B _ (in_boxes r c Hr Hc)) as (v & Hv & L).
    exists v. split; [exact Hv|lia]. }
  exists ls, out. split; [reflexivity|]. split; [exact Ho|].
  split; [exact Lo|].
  intros l Hin. destruct (Hl l Hin) as [->|L]; [|lia].
  rewrite !length_append, !length_times. simpl. lia.
Qed.

(** X14: on a mapping that has all 81 boxes [display] returns and prints
    11 lines of one and the same length, [9 * width + 2], where [width]
    is more than the length of every value: nine rows and two rules. *)
Theorem display_prints_grid values :
  (forall b, In b boxes -> In b (keys values)) ->
  exists width out,
    display values = (Ok tt, out) /\
    length out = 11 /\
    (forall b v, In b boxes -> get values b = Some v -> String.length v < width) /\
    (forall l, In l out -> String.length l = 9 * width + 2).
Proof.
  intros F. destruct (display_grid values F) as (ls & out & E & Ho & Lo & Hl).
  exists (1 + list_max ls), out.
  split; [exact Ho|]. split; [exact Lo|]. split; [|exact Hl].
  intros b v Hb Hv. destruct (lengths_Ok _ _ _ E b Hb) as (v' & Hv' & L).
  rewrite Hv in Hv'. inversion Hv'; subst. lia.
Qed.

Lemma display_prints_grid_witness :
  exists width out,
    display solved_board = (Ok tt, out) /\
    length out = 11 /\
    (forall b v, In b boxes -> get solved_board b = Some v ->
       String.length v < width) /\
    (forall l, In l out -> String.length l = 9 * width + 2).
Proof.
  apply (display_prints_grid solved_board).
  intros b Hb. change (keys solved_board) with boxes. exact Hb.
Defined.

(** ** Further properties: reading the printed grid back *)

Local Notation "'cell'" := (fun c : ascii => negb (has_char c " |-+")).

Lemma chars_append (a b : string) : chars (a ++ b) = chars a ++ chars b.
Proof. induction a; simpl; [reflexivity|]. unfold chars in *. simpl. congruence. Qed.

Lemma cell_times_space n : filter cell (chars (times " " n)) = [].
Proof. induction n; [reflexivity|]. exact IHn. Qed.

Lemma cell_times_dash n : filter cell (chars (times "-" n)) = [].
Proof. induction n; [reflexivity|]. exact IHn. Qed.

Lemma cell_center v width :
  filter cell (chars (center v width)) = filter cell (chars v).
Proof.
  unfold center. destruct (width <=? String.length v)%nat; [reflexivity|].
  cbv zeta. rewrite !chars_append, !filter_app, !cell_times_space.
  now rewrite app_nil_r.
Qed.

(** What is left of a value once the layout characters are taken out. *)
Lemma display_cells_text values width r cs s :
  display_cells values width r cs = Ok s ->
  filter cell (chars s) =
  flat_map (fun c => match get values (str r ++ str c) with
                     | Some v => filter cell (chars v)
                     | None => []
                     end) cs.
Proof.
  revert s. induction cs as [|c cs IH]; intros s; cbn [display_cells flat_map].
  - intros H. inversion H. reflexivity.
  - destruct (get values (str r ++ str c)) as [v|]; [|discriminate].
    destruct (display_cells values width r cs) as [rest| |]; try discriminate.
    intros H. inversion H; subst.
    rewrite !chars_append, !filter_app, cell_center, (IH rest eq_refl).
    f_equal. destruct (has_char c "36"); reflexivity.
Qed.

Lemma display_rows_text values width line rs : forall out out',
  filter cell (chars line) = [] ->
  display_rows values width line rs out = (Ok tt, out') ->
  filter cell (concat (map chars out')) =
  filter cell (concat (map chars out)) ++
  flat_map (fun r =>
    flat_map (fun c => match get values (str r ++ str c) with
                       | Some v => filter cell (chars v)
                       | None => []
                       end) (chars cols)) rs.
Proof.
  induction rs as [|r rs IH]; intros out out' Hline; cbn [display_rows flat_map].
  - intros H. inversion H. now rewrite app_nil_r.
  - destruct (display_cells values width r (chars cols)) as [s| |] eqn:E;
      try discriminate.
    cbv zeta. intros H. rewrite (IH _ _ Hline H).
    rewrite <- (display_cells_text _ _ _ _ _ E), app_assoc. f_equal.
    destruct (has_char r "CF");
      rewrite !map_app, !concat_app, !filter_app; simpl;
      rewrite ?app_nil_r, ?Hline, ?app_nil_r; reflexivity.
Qed.

Lemma cell_digit d :
  In d (chars all_digits) -> cell d = true /\ Ascii.eqb d "." = false.
Proof.
  intros H. simpl in H.
  repeat (destruct H as [<-|H]; [split; reflexivity|]). contradiction.
Qed.

Lemma solved_get d k v : solved d -> get d k = Some v -> String.length v = 1.
Proof.
  intros S H. unfold solved in S. rewrite Forall_forall in S.
  exact (S (k, v) (@get_In _ _ _ H)).
Qed.

Lemma map_flat_map_cons {A B} (f : A -> B) l :
  flat_map (fun x => [f x]) l = map f l.
Proof. induction l; simpl; congruence. Qed.

Lemma flat_map_ext_In {A B} (f g : A -> list B) l :
  (forall x, In x l -> f x = g x) -> flat_map f l = flat_map g l.
Proof.
  induction l as [|a l IH]; simpl; intros H; [reflexivity|].
  rewrite (H a (or_introl eq_refl)), IH; [reflexivity|].
  intros x Hx. apply H. now right.
Qed.

Lemma map_flat_map_comm {A B C} (g : B -> C) (f : A -> list B) l :
  map g (flat_map f l) = flat_map (fun x => map g (f x)) l.
Proof. induction l; simpl; [reflexivity|]. now rewrite map_app, IHl. Qed.

Lemma combine_map_self {A B} (g : A -> B) l :
  combine l (map g l) = map (fun x => (x, g x)) l.
Proof. induction l; simpl; congruence. Qed.

Lemma dict_by_keys d :
  NoDup (keys d) ->
  d = map (fun k => (k, match get d k with Some v => v | None => EmptyString end))
          (keys d).
Proof.
  induction d as [|[k0 v0] d IH]; simpl; intros N; [reflexivity|].
  inversion N as [|? ? Hn N']; subst.
  rewrite String.eqb_refl. f_equal.
  rewrite (IH N') at 1. apply map_ext_in. intros k Hk.
  destruct (String.eqb k k0) eqn:E; [|reflexivity].
  apply String.eqb_eq in E. subst. contradiction.
Qed.

Lemma display_reads_back values out :
  keys values = boxes -> solved values -> digit_board values ->
  display values = (Ok tt, out) ->
  grid_values (printed_cells out) = values.
Proof.
  intros K S D H. unfold display in H.
  destruct (lengths values boxes) as [ls| |]; try discriminate.
  cbv zeta in H.
  apply display_rows_text in H.
  2:{ rewrite !chars_append, !filter_app, !cell_times_dash. reflexivity. }
  simpl (filter _ (concat (map chars []))) in H. rewrite app_nil_l in H.
  assert (V : forall b, In b boxes -> exists d,
             get values b = Some (str d) /\ In d (chars all_digits)).
  { intros b Hb. destruct (In_keys_get values b) as [v Hv]; [now rewrite K|].
    pose proof (solved_get _ _ _ S Hv) as L.
    pose proof (@digit_board_get _ _ _ D Hv) as I.
    destruct v as [|d [|d' v]]; try discriminate.
    exists d. split; [exact Hv|]. apply I. now left. }
  assert (T : filter cell (concat (map chars out)) = map (first_char values) boxes).
  { rewrite H. unfold boxes, cross. rewrite map_flat_map_comm.
    apply flat_map_ext_In. intros r Hr.
    rewrite map_map, <- map_flat_map_cons.
    apply flat_map_ext_In. intros c Hc.
    destruct (V _ (in_boxes r c Hr Hc)) as (d & Hd & Id).
    unfold first_char. rewrite Hd. cbn [chars list_ascii_of_string str filter].
    now rewrite (proj1 (cell_digit d Id)). }
  unfold printed_cells. rewrite T. unfold grid_values.
  rewrite chars_join, combine_map_self, map_map. cbn [fst snd].
  etransitivity;
    [|symmetry; apply dict_by_keys; rewrite K; apply boxes_NoDup].
  rewrite K. apply map_ext_in. intros b Hb.
  destruct (V b Hb) as (d & Hd & Id).
  unfold first_char. rewrite Hd. cbn [str].
  now rewrite (proj2 (cell_digit d Id)).
Qed.



Lemma solved_forallb d :
  forallb (fun e => (String.length (snd e) =? 1)%nat) d = true -> solved d.
Proof.
  intros H. apply Forall_forall. intros e He.
  rewrite forallb_forall in H. now apply Nat.eqb_eq, H.
Qed.

Lemma digit_board_forallb d :
  forallb (fun e => forallb (fun c => has_char c all_digits) (chars (snd e))) d
  = true -> digit_board d.
Proof.
  intros H. apply Forall_forall. intros e He c Hc.
  rewrite forallb_forall in H. specialize (H e He).
  rewrite forallb_forall in H. now apply has_char_In, H.
Qed.


(** ** Further properties: display after solve *)

Lemma keys_grid_values grid :
  String.length grid = 81 -> keys (grid_values grid) = boxes.
Proof.
  intros L. unfold grid_values.
  rewrite (keys_combine (fun c => if Ascii.eqb c "." then all_digits else str c)).
  rewrite length_chars, L. change 81 with (length boxes). apply firstn_all.
Qed.

Lemma lengths_solved values bs : forall ls,
  solved values -> lengths values bs = Ok ls -> bs <> [] -> list_max ls = 1.
Proof.
  induction bs as [|b bs IH]; intros ls S H Hne; [congruence|].
  simpl in H. destruct (get values b) as [v|] eqn:G; [|discriminate].
  destruct (lengths values bs) as [ls'| |] eqn:E; try discriminate.
  inversion H; subst. rewrite (solved_get _ _ _ S G).
  destruct bs as [|b' bs].
  - simpl in E. inversion E. reflexivity.
  - change (list_max (1 :: ls')) with (Nat.max 1 (list_max ls')).
    rewrite (IH ls' S eq_refl); [reflexivity|discriminate].
Qed.

(** X16: the module's last step, [display(solve(grid))], on a grid of 81
    characters.  When [solve] returns the empty dict of a failed search,
    [display] raises [KeyError('A1')] and prints nothing; when it returns
    a board, [display] prints 11 lines of 20 characters: every box has
    one candidate, so the column width is 2. *)
Theorem display_after_solve grid fuel t y t' :
  String.length grid = 81 ->
  solve fuel grid t = (Ok y, t') ->
  (y = [] -> display y = (KeyError "A1", [])) /\
  (y <> [] -> exists out,
     display y = (Ok tt, out) /\ length out = 11 /\
     forall l, In l out -> String.length l = 20).
Proof.
  intros L H. unfold solve in H. cbv zeta in H.
  apply bind_Ok in H. destruct H as (y1 & t1 & R & Hs).
  split.
  - intros ->. vm_compute. reflexivity.
  - intros Hne.
    destruct (search_narrows _ _ _ _ _ Hs Hne) as [E S].
    assert (Hy1 : y1 <> []).
    { intros ->. inversion E. congruence. }
    destruct (reduce_puzzle_loop_Ok _ _ _ R Hy1) as (E0 & _).
    assert (K : keys y = boxes).
    { rewrite (evolves_keys E), (evolves_keys E0). now apply keys_grid_values. }
    destruct (display_grid y) as (ls & out & El & Ho & Lo & Hl).
    { intros b Hb. now rewrite K. }
    exists out. split; [exact Ho|]. split; [exact Lo|].
    intros l Hin. rewrite (Hl l Hin).
    rewrite (lengths_solved y boxes ls S El); [reflexivity|discriminate].
Qed.

Lemma display_after_solve_witness :
  (solved_board = [] -> display solved_board = (KeyError "A1", [])) /\
  (solved_board <> [] -> exists out,
     display solved_board = (Ok tt, out) /\ length out = 11 /\
     forall l, In l out -> String.length l = 20).
Proof.
  apply (display_after_solve diag_sudoku_grid 1 [] solved_board
           (snd (solve 1 diag_sudoku_grid []))).
  - reflexivity.
  - rewrite (surjective_pairing (solve 1 diag_sudoku_grid [])) at 1.
    apply f_equal2; [vm_compute; reflexivity|reflexivity].
Defined.

(** ** Further properties: naked_twins *)

Lemma thins_refl s : thins s s.
Proof. split; [apply incl_refl|tauto]. Qed.

Lemma thins_trans a b c : thins a b -> thins b c -> thins a c.
Proof.
  intros [I1 E1] [I2 E2]. split; [|tauto].
  intros x Hx. apply I1, I2, Hx.
Qed.

Lemma twins_peers_thins choices ps : forall values t v' t',
  twins_peers values choices ps t = (Ok (Continue v'), t') ->
  evolves thins values v'.
Proof.
  induction ps as [|p ps IH]; intros values t v' t' H; simpl in H.
  - apply ret_Ok in H. destruct H as [H _]. inversion H; subst.
    apply evolves_refl, thins_refl.
  - mstep H as v t1 Hv. apply lookup_Ok in Hv. destruct Hv as [Hv ->].
    destruct (without v choices) as [|a w] eqn:Ew.
    + apply ret_Ok in H. destruct H; discriminate.
    + mstep H as v1 t2 Ha. apply assign_value_Ok in Ha. subst v1.
      apply IH in H.
      eapply evolves_trans; [apply thins_trans| |exact H].
      eapply evolves_set; [apply evolves_refl, thins_refl|exact Hv|].
      intros s0 Hs0. rewrite Hv in Hs0. inversion Hs0; subst.
      split; [|discriminate]. rewrite <- Ew. apply narrows_without.
Qed.

Lemma twins_groups_thins unit groups : forall values t v' t',
  twins_groups values unit groups t = (Ok (Continue v'), t') ->
  evolves thins values v'.
Proof.
  induction groups as [|[c bs] groups IH]; intros values t v' t' H; simpl in H.
  - apply ret_Ok in H. destruct H as [H _]. inversion H; subst.
    apply evolves_refl, thins_refl.
  - destruct (length bs <? 2)%nat; [eapply IH, H|].
    destruct (2 <? length bs)%nat.
    + apply ret_Ok in H. destruct H; discriminate.
    + mstep H as r t1 Hp. destruct r as [v1|d1].
      * apply twins_peers_thins in Hp. apply IH in H.
        eapply evolves_trans; [apply thins_trans|exact Hp|exact H].
      * apply ret_Ok in H. destruct H; discriminate.
Qed.

Lemma twins_units_thins us : forall values t v' t',
  twins_units values us t = (Ok (Continue v'), t') ->
  evolves thins values v'.
Proof.
  induction us as [|u us IH]; intros values t v' t' H; simpl in H.
  - apply ret_Ok in H. destruct H as [H _]. inversion H; subst.
    apply evolves_refl, thins_refl.
  - mstep H as r t1 Hu. destruct r as [v1|d1].
    + unfold twins_unit in Hu. mstep Hu as g t0 Hg.
      apply twins_groups_thins in Hu. apply IH in H.
      eapply evolves_trans; [apply thins_trans|exact Hu|exact H].
    + apply ret_Ok in H. destruct H; discriminate.
Qed.

(** X17: what [naked_twins] returns is the empty dict, or a board with
    the keys of the input in the same order where every box has kept a
    part of its candidates, and no box that had a candidate is left
    without one. *)
Theorem naked_twins_spec values t r t' :
  naked_twins values t = (Ok r, t') ->
  r = [] \/
  (keys r = keys values /\
   forall k s, get values k = Some s ->
     exists s', get r k = Some s' /\ incl (chars s') (chars s) /\
                (s' = EmptyString -> s = EmptyString)).
Proof.
  unfold naked_twins. intros H. mstep H as f t1 Hf.
  destruct f as [v'|d]; apply ret_Ok in H.
  - destruct H as [H _]. inversion H; subst. right.
    apply twins_units_thins in Hf. split; [exact (evolves_keys Hf)|].
    intros k s Hk. destruct (evolves_get k Hf Hk) as (s' & Hs' & I & E).
    exists s'. auto.
  - destruct H as [H _]. inversion H; subst. left.
    exact (twins_units_Return _ _ _ Hf).
Qed.

Lemma naked_twins_spec_witness :
  value_of (naked_twins twins_board []) = [] \/
  (keys (value_of (naked_twins twins_board [])) = keys twins_board /\
   forall k s, get twins_board k = Some s ->
     exists s', get (value_of (naked_twins twins_board [])) k = Some s' /\
                incl (chars s') (chars s) /\
                (s' = EmptyString -> s = EmptyString)).
Proof.
  apply (naked_twins_spec twins_board []
           (value_of (naked_twins twins_board []))
           (snd (naked_twins twins_board []))).
  rewrite (surjective_pairing (naked_twins twins_board [])) at 1.
  apply f_equal2; [vm_compute; reflexivity|reflexivity].
Defined.

Lemma length_insert_char c l : length (insert_char c l) = S (length l).
Proof.
  induction l as [|x l IH]; simpl; [reflexivity|].
  destruct (_ <=? _)%nat; simpl; congruence.
Qed.

Lemma length_sort_chars l : length (sort_chars l) = length l.
Proof.
  induction l as [|x l IH]; simpl; [reflexivity|].
  now rewrite length_insert_char, IH.
Qed.

Lemma length_canonicalize s : String.length (canonicalize s) = String.length s.
Proof.
  unfold canonicalize.
  now rewrite <- !length_chars, chars_join, length_sort_chars.
Qed.

Lemma group_boxes_idle values unit :
  incl unit (keys values) ->
  (forall k s, get values k = Some s -> String.length s <> 2) ->
  forall ctb t, group_boxes values ctb unit t = (Ok ctb, t).
Proof.
  intros Hu Hn. induction unit as [|b unit IH]; intros ctb t; simpl.
  - reflexivity.
  - destruct (In_keys_get values b) as [v Hv]; [apply Hu; now left|].
    rewrite (bind_eq _ _ _ _ _ (lookup_eq _ _ _ t Hv)). cbv zeta.
    rewrite length_canonicalize.
    destruct (String.length v =? 2)%nat eqn:E.
    + apply Nat.eqb_eq in E. now apply Hn in Hv.
    + simpl. apply IH. intros x Hx. apply Hu. now right.
Qed.

Lemma twins_units_idle values us :
  (forall u, In u us -> incl u (keys values)) ->
  (forall k s, get values k = Some s -> String.length s <> 2) ->
  forall t, twins_units values us t = (Ok (Continue values), t).
Proof.
  intros Hus Hn. induction us as [|u us IH]; intros t; simpl.
  - reflexivity.
  - unfold twins_unit.
    assert (G : group_boxes values [] u t = (Ok [], t)).
    { apply group_boxes_idle; [|exact Hn]. apply Hus. now left. }
    unfold bind at 1. unfold bind at 1. rewrite G. simpl.
    apply IH. intros u' Hu'. apply Hus. now right.
Qed.

(** X18: without a box of exactly two candidates there are no twins:
    on a board that has all the boxes, [naked_twins] returns the board
    as it is and appends nothing to [assignments].  This is so for a
    board fresh from [grid_values] and for a solved one. *)
Theorem naked_twins_idle values t :
  (forall b, In b boxes -> In b (keys values)) ->
  (forall k s, get values k = Some s -> String.length s <> 2) ->
  naked_twins values t = (Ok values, t).
Proof.
  intros F Hn. unfold naked_twins.
  rewrite (bind_eq _ _ t (Continue values) t); [reflexivity|].
  apply twins_units_idle; [|exact Hn].
  intros u Hu x Hx. apply F. exact (unit_boxes Hu _ Hx).
Qed.

Lemma naked_twins_idle_witness :
  naked_twins solved_board [] = (Ok solved_board, []).
Proof.
  apply (naked_twins_idle solved_board []).
  - intros b Hb. change (keys solved_board) with boxes. exact Hb.
  - intros k s Hk.
    assert (S : solved solved_board)
      by (apply solved_forallb; vm_compute; reflexivity).
    rewrite (solved_get _ _ _ S Hk). discriminate.
Defined.

(** ** Further properties: canonicalize *)

Lemma insert_char_perm c l : Permutation (insert_char c l) (c :: l).
Proof.
  induction l as [|x l IH]; simpl; [reflexivity|].
  destruct (_ <=? _)%nat; [reflexivity|].
  rewrite IH. apply perm_swap.
Qed.

Lemma sort_chars_perm l : Permutation (sort_chars l) l.
Proof.
  induction l as [|x l IH]; simpl; [reflexivity|].
  rewrite insert_char_perm. now apply perm_skip.
Qed.

Lemma insert_char_sorted c l :
  StronglySorted char_le l -> StronglySorted char_le (insert_char c l).
Proof.
  induction 1 as [|x l S IH F]; simpl.
  - repeat constructor.
  - destruct (nat_of_ascii c <=? nat_of_ascii x)%nat eqn:E.
    + apply Nat.leb_le in E. constructor; [now constructor|].
      constructor; [exact E|].
      eapply Forall_impl; [|exact F]. unfold char_le. intros y Hy. lia.
    + apply Nat.leb_gt in E. constructor; [exact IH|].
      apply Forall_forall. intros y Hy. apply insert_char_In in Hy.
      destruct Hy as [->|Hy]; [unfold char_le; lia|].
      rewrite Forall_forall in F. now apply F.
Qed.

Lemma sort_chars_sorted l : StronglySorted char_le (sort_chars l).
Proof.
  induction l as [|x l IH]; simpl; [constructor|].
  now apply insert_char_sorted.
Qed.

Lemma nat_of_ascii_inj a b : nat_of_ascii a = nat_of_ascii b -> a = b.
Proof.
  intros H. rewrite <- (ascii_nat_embedding a), <- (ascii_nat_embedding b).
  now rewrite H.
Qed.

Lemma sorted_perm_eq l1 : forall l2,
  StronglySorted char_le l1 -> StronglySorted char_le l2 ->
  Permutation l1 l2 -> l1 = l2.
Proof.
  induction l1 as [|a l1 IH]; intros l2 S1 S2 P.
  - apply Permutation_nil in P. now subst.
  - destruct l2 as [|b l2].
    { symmetry in P. now apply Permutation_nil in P. }
    inversion S1 as [|? ? S1' F1]; subst.
    inversion S2 as [|? ? S2' F2]; subst.
    rewrite Forall_forall in F1, F2.
    assert (Hab : a = b).
    { assert (Ha : In a (b :: l2))
        by (eapply Permutation_in; [exact P|now left]).
      assert (Hb : In b (a :: l1))
        by (eapply Permutation_in; [symmetry; exact P|now left]).
      destruct Ha as [->|Ha]; [reflexivity|].
      destruct Hb as [->|Hb]; [reflexivity|].
      apply nat_of_ascii_inj.
      pose proof (F1 b Hb). pose proof (F2 a Ha). unfold char_le in *. lia. }
    subst b. f_equal. apply IH; try assumption.
    eapply Permutation_cons_inv, P.
Qed.

(** X19: [canonicalize] puts the characters of its argument in code
    point order, keeping each as often as it occurs; two strings get the
    same canonical form exactly when one is the other reordered.  So the
    grouping of [naked_twins] does not depend on the order in which a
    box lists its candidates. *)
Theorem canonicalize_spec s :
  Permutation (chars (canonicalize s)) (chars s) /\
  StronglySorted char_le (chars (canonicalize s)) /\
  forall s', canonicalize s = canonicalize s' <->
             Permutation (chars s) (chars s').
Proof.
  unfold canonicalize. rewrite chars_join.
  split; [apply sort_chars_perm|]. split; [apply sort_chars_sorted|].
  intros s'. split.
  - intros H.
    rewrite <- (sort_chars_perm (chars s)), <- (sort_chars_perm (chars s')).
    rewrite <- (chars_join (sort_chars (chars s))), H, chars_join.
    reflexivity.
  - intros P. f_equal.
    apply sorted_perm_eq; try apply sort_chars_sorted.
    now rewrite !sort_chars_perm.
Qed.

(** ** Further properties: the list of assignments *)

(** X20: no function reads [assignments] or takes anything from it: a
    call that starts with the list [t] returns what it returns from the
    empty list, and leaves [t] followed by what it appends from the empty
    list. *)
Theorem assignments_append_only fuel grid values t :
  eliminate values t =
    (fst (eliminate values []), t ++ snd (eliminate values [])) /\
  only_choice values t =
    (fst (only_choice values []), t ++ snd (only_choice values [])) /\
  reduce_puzzle values t =
    (fst (reduce_puzzle values []), t ++ snd (reduce_puzzle values [])) /\
  naked_twins values t =
    (fst (naked_twins values []), t ++ snd (naked_twins values [])) /\
  search fuel values t =
    (fst (search fuel values []), t ++ snd (search fuel values [])) /\
  solve fuel grid t =
    (fst (solve fuel grid []), t ++ snd (solve fuel grid [])).
Proof.
  repeat split.
  - apply appends_eliminate.
  - apply appends_only_choice.
  - apply appends_reduce_puzzle.
  - apply appends_naked_twins.
  - apply appends_search.
  - apply appends_solve.
Qed.

(** ** Further properties: the store *)

(** X21: [reduce_puzzle] has no [copy] of its own and [solve] builds its
    board itself, yet neither writes to an object that exists when it
    is called: [eliminate] copies before the first write.  What they
    return is a new object. *)
Theorem reduce_puzzle_keeps_objects fuel grid values s :
  (forall r, r < length (Heap.objects s) ->
     Heap.deref (snd (Heap.reduce_puzzle values s)) r = Heap.deref s r /\
     Heap.deref (snd (Heap.solve fuel grid s)) r = Heap.deref s r) /\
  (forall r, fst (Heap.reduce_puzzle values s) = Ok r ->
     length (Heap.objects s) <= r) /\
  (forall r, fst (Heap.solve fuel grid s) = Ok r ->
     length (Heap.objects s) <= r).
Proof.
  destruct (@owned_reduce_puzzle (length (Heap.objects s)) values s (le_n _))
    as [[_ K1] Q1].
  destruct (@owned_solve (length (Heap.objects s)) fuel grid s (le_n _))
    as [[_ K2] Q2].
  split; [|split].
  - intros r Hr. split; [now apply K1|now apply K2].
  - exact Q1.
  - exact Q2.
Qed.

(** X22: [assign_value] writes to the object it is given and returns
    that same object: after the call the caller's mapping has the new
    value in [box], every other object is as it was, and a value of
    length one has put the new content of the mapping at the end of
    [assignments]. *)
Theorem assign_value_in_place values box value s :
  values < length (Heap.objects s) ->
  fst (Heap.assign_value values box value s) = Ok values /\
  Heap.deref (snd (Heap.assign_value values box value s)) values =
    set (Heap.deref s values) box value /\
  (forall r, r <> values ->
     Heap.deref (snd (Heap.assign_value values box value s)) r =
     Heap.deref s r) /\
  Heap.assignments (snd (Heap.assign_value values box value s)) =
    if (String.length value =? 1)%nat
    then Heap.assignments s ++ [set (Heap.deref s values) box value]
    else Heap.assignments s.
Proof.
  intros Hv. unfold Heap.assign_value, Heap.bind, Heap.store, Heap.read,
    Heap.append_assignment, Heap.ret. simpl.
  destruct (String.length value =? 1)%nat; simpl; unfold Heap.deref; simpl;
    rewrite (nth_update_same _ _ Hv); repeat split;
    intros r Hr; now apply nth_update_other.
Qed.

Lemma assign_value_in_place_witness :
  Heap.deref (snd (Heap.assign_value 0 "A1" "5" solved_store)) 0 =
  set solved_board "A1" "5".
Proof.
  refine (proj1 (proj2 (assign_value_in_place 0 "A1" "5" solved_store _))).
  simpl. lia.
Defined.

(** ** reduce_puzzle: the number of passes *)

Lemma forallb_false {A} (f : A -> bool) l :
  forallb f l = false -> exists x, In x l /\ f x = false.
Proof.
  induction l as [|a l IH]; simpl; [discriminate|].
  destruct (f a) eqn:E; simpl.
  - intros H. destruct (IH H) as (x & Hx & Hf). exists x. auto.
  - intros _. exists a. auto.
Qed.

Lemma filter_none {A} (f : A -> bool) l :
  (forall b, In b l -> f b = false) -> filter f l = [].
Proof.
  induction l as [|a l IH]; intros H; [reflexivity|]. simpl.
  rewrite (H a (or_introl eq_refl)). apply IH.
  intros b Hb. apply H. now right.
Qed.

Lemma filter_single {A} (f : A -> bool) l q :
  NoDup l -> In q l -> f q = true ->
  (forall b, In b l -> b <> q -> f b = false) ->
  filter f l = [q].
Proof.
  induction l as [|a l IH]; intros N Hq Hf Ho; [contradiction|].
  inversion N as [|? ? Hn N']; subst. simpl.
  destruct Hq as [->|Hq].
  - rewrite Hf. f_equal. apply filter_none.
    intros b Hb. apply Ho; [now right|]. intros ->. contradiction.
  - rewrite (Ho a); [|now left|intros ->; contradiction].
    apply IH; [exact N'|exact Hq|exact Hf|].
    intros b Hb Hne. apply Ho; [now right|exact Hne].
Qed.

Lemma units_NoDup u : In u unitlist -> NoDup u.
Proof.
  intros Hu.
  assert (H : forallb nodupb unitlist = true) by (vm_compute; reflexivity).
  rewrite forallb_forall in H. now apply nodupb_NoDup, H.
Qed.

(** Every box has two units, its row and its column, that meet in that
    box only. *)
Lemma crossing_units q :
  In q boxes ->
  exists u1 u2, In u1 unitlist /\ In u2 unitlist /\ In q u1 /\ In q u2 /\
    forall b, In b u1 -> In b u2 -> b = q.
Proof.
  intros Hq.
  assert (H : forallb (fun q =>
                existsb (fun u1 =>
                  existsb (fun u2 =>
                    mem q u1 && mem q u2 &&
                    forallb (fun b => negb (mem b u2) || String.eqb b q) u1)
                  column_units) row_units) boxes = true)
    by (vm_compute; reflexivity).
  rewrite forallb_forall in H. specialize (H q Hq).
  apply existsb_exists in H. destruct H as (u1 & Hu1 & H).
  apply existsb_exists in H. destruct H as (u2 & Hu2 & H).
  apply andb_true_iff in H. destruct H as [H H3].
  apply andb_true_iff in H. destruct H as [H1 H2].
  exists u1, u2. unfold unitlist.
  split; [apply in_or_app; now left|].
  split; [apply in_or_app; right; apply in_or_app; now left|].
  split; [now apply mem_In|]. split; [now apply mem_In|].
  intros b Hb1 Hb2. rewrite forallb_forall in H3. specialize (H3 b Hb1).
  apply orb_true_iff in H3. destruct H3 as [H3|H3].
  - apply mem_In in Hb2. rewrite Hb2 in H3. discriminate.
  - now apply String.eqb_eq.
Qed.

Lemma get_not_empty d k : count_len 0 d = 0 -> get d k <> Some EmptyString.
Proof.
  intros H0 H. apply no_empty_Forall in H0. rewrite Forall_forall in H0.
  apply (H0 (k, EmptyString)); [now apply get_In|reflexivity].
Qed.

Lemma fixes_empty s : fixes EmptyString s -> s = EmptyString.
Proof. intros [->|(d & _ & H)]; [reflexivity|discriminate]. Qed.

(** A box fixed before a pass that leaves no box empty is the same after
    [eliminate] and after [only_choice]. *)
Lemma pass_keeps_fixed values t e t1 y t2 k c :
  eliminate values t = (Ok e, t1) -> only_choice e t1 = (Ok y, t2) ->
  count_len 0 y = 0 -> get values k = Some (str c) ->
  get e k = Some (str c) /\ get y k = Some (str c).
Proof.
  intros He Hy H0 Hk.
  pose proof (eliminate_evolves _ _ He) as E1.
  pose proof (only_choice_evolves _ _ Hy) as E2.
  destruct (evolves_get k E1 Hk) as (s & Hs & _ & _ & F).
  destruct (evolves_get k E2 Hs) as (s' & Hs' & F').
  destruct (F eq_refl) as [->| ->].
  - split; [exact Hs|].
    destruct F' as [->|(d & -> & Hd)]; [exact Hs'|].
    apply has_char_In in Hd. destruct Hd as [Hd|[]]. now subst.
  - apply fixes_empty in F'. subst s'.
    now apply (get_not_empty y k H0) in Hs'.
Qed.

(** The last open box of a unit: when the other boxes of a unit are
    fixed, a pass that leaves no box empty fixes the one that is left. *)
Lemma last_box_fixed values t e t1 y t2 u q :
  full_board values -> digit_board values ->
  eliminate values t = (Ok e, t1) -> only_choice e t1 = (Ok y, t2) ->
  count_len 0 y = 0 ->
  In u unitlist -> In q u ->
  (forall b, In b u -> b <> q ->
     exists c, get values b = Some (str c)) ->
  exists d, get y q = Some (str d).
Proof.
  intros F D He Hy H0 Hu Hq Hall.
  pose proof (eliminate_evolves _ _ He) as E1.
  pose proof (only_choice_evolves _ _ Hy) as E2.
  assert (Hqb : In q (keys values)) by (apply F; exact (unit_boxes Hu _ Hq)).
  destruct (In_keys_get values q Hqb) as [vq Hvq].
  destruct (evolves_get q E1 Hvq) as (sq & Hsq & _).
  destruct (evolves_get q E2 Hsq) as (yq & Hyq & Fq).
  destruct sq as [|d0 sq'].
  { apply fixes_empty in Fq. subst yq.
    now apply (get_not_empty y q H0) in Hyq. }
  assert (Hd0 : In d0 (chars all_digits)).
  { apply (@digit_board_get e q (String d0 sq')
             (digit_board_evolves E1 D) Hsq). now left. }
  assert (Hothers : forall b, In b u -> b <> q ->
            exists c, get e b = Some (str c) /\ c <> d0).
  { intros b Hb Hne. destruct (Hall b Hb Hne) as [c Hc].
    destruct (pass_keeps_fixed _ _ _ _ _ _ _ _ He Hy H0 Hc) as [Hce _].
    exists c. split; [exact Hce|].
    unfold eliminate in He.
    destruct (@eliminate_boxes_clears _ _ _ _ _ He b c) as (ps & Hps & Hcl);
      [apply F; exact (unit_boxes Hu _ Hb)|exact Hc|exact Hce|].
    destruct (Hcl q (@unit_peers u b q ps Hu Hb Hq Hne Hps))
      as (s & Hs & Hn).
    rewrite Hsq in Hs. inversion Hs; subst s.
    intros ->. apply has_char_false in Hn. apply Hn. now left. }
  assert (Hh : holders e d0 u = [q]).
  { unfold holders. apply filter_single; [now apply units_NoDup|exact Hq| |].
    - rewrite Hsq. apply has_char_In. now left.
    - intros b Hb Hne. destruct (Hothers b Hb Hne) as (c & Hc & Hcd).
      rewrite Hc. apply has_char_false. intros [H|[]]. congruence. }
  unfold only_choice in Hy.
  exact (proj2 (only_choice_units_fixed _ _ _ _ Hy) u d0 q Hu Hd0 Hh).
Qed.

(** Boxes that are not fixed are not counted. *)
Lemma open_boxes_count d ks :
  NoDup ks ->
  (forall k, In k ks -> exists v, get d k = Some v /\ String.length v <> 1) ->
  count_len 1 d + length ks <= length d.
Proof.
  intros N H. unfold count_len.
  rewrite <- (filter_length (fun bc => (String.length (snd bc) =? 1)%nat) d).
  apply Nat.add_le_mono_l.
  rewrite <- (length_map fst
    (filter (fun x => negb (String.length (snd x) =? 1)%nat) d)).
  apply NoDup_incl_length; [exact N|].
  intros k Hk. destruct (H k Hk) as (v & Hv & L).
  apply in_map_iff. exists (k, v). split; [reflexivity|].
  apply filter_In. split; [now apply get_In|].
  simpl. now apply negb_true_iff, Nat.eqb_neq.
Qed.

Lemma open_box_exists d :
  NoDup (keys d) -> count_len 1 d < length d ->
  exists k v, get d k = Some v /\ String.length v <> 1.
Proof.
  intros N H. unfold count_len in H.
  rewrite <- (filter_length (fun bc => (String.length (snd bc) =? 1)%nat) d)
    in H.
  destruct (filter (fun x => negb (String.length (snd x) =? 1)%nat) d)
    as [|[k v] l] eqn:E; [simpl in H; lia|].
  assert (Hin : In (k, v)
            (filter (fun x => negb (String.length (snd x) =? 1)%nat) d))
    by (rewrite E; now left).
  apply filter_In in Hin. destruct Hin as [Hin L].
  exists k, v. split; [now apply get_of_In|].
  simpl in L. now apply Nat.eqb_neq, negb_true_iff.
Qed.

Lemma full_board_length d :
  NoDup (keys d) -> full_board d -> length d = 81.
Proof.
  intros N F. rewrite <- (length_map fst d). fold (keys d).
  change 81 with (length boxes). apply Permutation_length.
  apply NoDup_Permutation; [exact N|apply boxes_NoDup|exact F].
Qed.

(** A pass that starts with two open boxes and leaves no box empty does
    not end with one: the box left open would have its row or its column
    to itself, and [last_box_fixed] fixes it. *)
Lemma pass_not_80 values t e t1 y t2 :
  NoDup (keys values) -> full_board values -> digit_board values ->
  eliminate values t = (Ok e, t1) -> only_choice e t1 = (Ok y, t2) ->
  count_len 0 y = 0 -> count_len 1 values = 79 -> count_len 1 y <> 80.
Proof.
  intros N F D He Hy H0 C C'.
  pose proof (eliminate_evolves _ _ He) as E1.
  pose proof (evolves_impl fixes_shrinks (only_choice_evolves _ _ Hy)) as E2.
  pose proof (evolves_trans shrinks_trans E1 E2) as E.
  pose proof (full_board_length values N F) as L.
  assert (Ny : NoDup (keys y)) by now rewrite (evolves_keys E).
  destruct (open_box_exists y Ny) as (q & vq & Hq & Lq).
  { rewrite (evolves_length E). lia. }
  assert (Hqb : In q boxes).
  { apply F. rewrite <- (evolves_keys E). eapply get_In_keys, Hq. }
  destruct (crossing_units q Hqb) as (u1 & u2 & Hu1 & Hu2 & Hq1 & Hq2 & X).
  assert (Open : forall u, In u unitlist -> In q u ->
            exists b v, In b u /\ b <> q /\ get values b = Some v /\
                        String.length v <> 1).
  { intros u Hu Hqu.
    destruct (forallb (fun b => String.eqb b q ||
                match get values b with
                | Some v => (String.length v =? 1)%nat
                | None => false
                end) u) eqn:A.
    - exfalso. rewrite forallb_forall in A.
      destruct (last_box_fixed values t e t1 y t2 u q F D He Hy H0 Hu Hqu)
        as [d Hd].
      + intros b Hb Hne. specialize (A b Hb).
        apply orb_true_iff in A. destruct A as [A|A];
          [now apply String.eqb_eq in A|].
        destruct (get values b) as [[|c [|c' v]]|]; try discriminate.
        now exists c.
      + rewrite Hq in Hd. inversion Hd; subst. now apply Lq.
    - apply forallb_false in A. destruct A as (b & Hb & A).
      apply orb_false_iff in A. destruct A as [A1 A2].
      apply String.eqb_neq in A1.
      destruct (In_keys_get values b) as [v Hv];
        [apply F; exact (unit_boxes Hu _ Hb)|].
      rewrite Hv in A2. apply Nat.eqb_neq in A2. now exists b, v. }
  destruct (Open u1 Hu1 Hq1) as (b1 & v1 & Hb1 & Hn1 & Hv1 & L1).
  destruct (Open u2 Hu2 Hq2) as (b2 & v2 & Hb2 & Hn2 & Hv2 & L2).
  destruct (evolves_get_inv q E Hq) as (v0 & Hv0 & _ & _ & Fx).
  assert (L0 : String.length v0 <> 1).
  { intros L0. destruct (Fx L0) as [->| ->]; [now apply Lq|].
    now apply (get_not_empty y q H0) in Hq. }
  pose proof (open_boxes_count values [q; b1; b2]) as Cn.
  simpl in Cn. assert (count_len 1 values + 3 <= length values); [|lia].
  apply Cn.
  - constructor; [intros [H|[H|[]]]; [now apply Hn1|now apply Hn2]|].
    constructor; [|constructor; [intros []|constructor]].
    intros [H|[]]. subst b2. apply Hn1. now apply X.
  - intros k [<-|[<-|[<-|[]]]]; eauto.
Qed.

(** From [c <= 79] fixed boxes, [81 - c] passes are enough. *)
Lemma reduce_puzzle_loop_81 fuel : forall values,
  NoDup (keys values) -> full_board values -> digit_board values ->
  count_len 1 values <= 79 -> 81 - count_len 1 values <= fuel ->
  fuelled (reduce_puzzle_loop fuel values).
Proof.
  induction fuel as [|fuel IH]; intros values N F D C Hf t; [lia|].
  cbn [reduce_puzzle_loop]. unfold bind at 1.
  pose proof (fuelled_eliminate values t) as F1.
  destruct (eliminate values t) as [[e| |] t1] eqn:He; simpl in F1;
    try discriminate; [|congruence].
  unfold bind at 1.
  pose proof (fuelled_only_choice e t1) as F2.
  destruct (only_choice e t1) as [[y| |] t2] eqn:Hy; simpl in F2;
    try discriminate; [|congruence].
  pose proof (eliminate_evolves _ _ He) as E1.
  pose proof (evolves_impl fixes_shrinks (only_choice_evolves _ _ Hy)) as E2.
  pose proof (evolves_trans shrinks_trans E1 E2) as E.
  destruct (count_len 0 y =? 0)%nat eqn:E0; simpl; [|discriminate].
  destruct (count_len 1 values =? count_len 1 y)%nat eqn:Ec; [discriminate|].
  apply Nat.eqb_eq in E0. apply Nat.eqb_neq in Ec.
  pose proof (count_fixed_mono E E0) as Hm.
  assert (Ny : NoDup (keys y)) by now rewrite (evolves_keys E).
  pose proof (full_board_evolves _ _ _ E F) as Fy.
  pose proof (digit_board_evolves E D) as Dy.
  pose proof (full_board_length y Ny Fy) as Ly.
  pose proof (count_len_le 1 y) as Hle.
  destruct (le_gt_dec (count_len 1 y) 79) as [Cy|Cy].
  - apply IH; try assumption. lia.
  - apply reduce_puzzle_loop_fuelled.
    destruct (Nat.eq_dec (count_len 1 values) 79) as [C79|C79]; [|lia].
    pose proof (pass_not_80 values t e t1 y t2 N F D He Hy E0 C79). lia.
Qed.

(** C3 (as the code has it): a pass of the [reduce_puzzle] loop that
    leaves no box empty does not lower the number of fixed boxes, and a
    pass that leaves a box empty makes [reduce_puzzle] return the failure
    value [{}] there and then; so every pass after which the loop goes
    on raises the number.  On a board of the 81 boxes with digits as
    candidates the loop ends within 81 passes, and [reduce_puzzle]
    returns what these passes give. *)
Theorem reduce_puzzle_progress values :
  (forall t e t1 y t2,
     eliminate values t = (Ok e, t1) -> only_choice e t1 = (Ok y, t2) ->
     (count_len 0 y = 0 -> count_len 1 values <= count_len 1 y) /\
     (count_len 0 y <> 0 ->
      forall fuel, reduce_puzzle_loop (S fuel) values t = (Ok [], t2))) /\
  (NoDup (keys values) -> full_board values -> digit_board values ->
   forall t,
     fst (reduce_puzzle_loop 81 values t) <> OutOfFuel /\
     reduce_puzzle_loop 81 values t = reduce_puzzle values t).
Proof.
  split.
  - intros t e t1 y t2 He Hy. split.
    + intros H0.
      pose proof (eliminate_evolves _ _ He) as E1.
      pose proof (evolves_impl fixes_shrinks (only_choice_evolves _ _ Hy))
        as E2.
      exact (count_fixed_mono (evolves_trans shrinks_trans E1 E2) H0).
    + intros H0 fuel. cbn [reduce_puzzle_loop].
      rewrite (bind_eq _ _ _ _ _ He), (bind_eq _ _ _ _ _ Hy).
      apply Nat.eqb_neq in H0. now rewrite H0.
  - intros N F D t.
    assert (Fu : fuelled (reduce_puzzle_loop 81 values)).
    { destruct (le_gt_dec (count_len 1 values) 79) as [C|C].
      - apply reduce_puzzle_loop_81; try assumption. lia.
      - apply reduce_puzzle_loop_fuelled.
        rewrite (full_board_length values N F). lia. }
    split; [apply Fu|].
    unfold reduce_puzzle. symmetry.
    apply reduce_puzzle_loop_more_fuel; [apply Fu|].
    rewrite (full_board_length values N F). lia.
Qed.

Lemma reduce_puzzle_progress_witness :
  count_len 1 (grid_values diag_sudoku_grid)
    <= count_len 1 (value_of first_pass) /\
  fst (reduce_puzzle_loop 81 (grid_values diag_sudoku_grid) []) <> OutOfFuel.
Proof.
  pose proof (reduce_puzzle_progress (grid_values diag_sudoku_grid)) as [P T].
  split.
  - refine (proj1 (P [] (value_of first_eliminate) (snd first_eliminate)
                     (value_of first_pass) (snd first_pass) _ _) _);
      vm_compute; reflexivity.
  - refine (proj1 (T _ _ _ [])).
    + apply nodupb_NoDup. vm_compute. reflexivity.
    + apply full_board_grid_values. reflexivity.
    + apply digit_board_forallb. vm_compute. reflexivity.
Defined.

(** ** naked_twins: the contradiction, whatever the order of a set *)

Lemma set_comm d p q a b :
  p <> q -> In p (keys d) -> In q (keys d) ->
  set (set d p a) q b = set (set d q b) p a.
Proof.
  intros Hne. induction d as [|[k v] d IH]; simpl; [contradiction|].
  intros Hp Hq.
  destruct (String.eqb p k) eqn:Ep; destruct (String.eqb q k) eqn:Eq; simpl;
    rewrite ?Ep, ?Eq; try reflexivity.
  - apply String.eqb_eq in Ep, Eq. congruence.
  - apply String.eqb_neq in Ep, Eq. f_equal. apply IH.
    + destruct Hp as [Hp|Hp]; [congruence|exact Hp].
    + destruct Hq as [Hq|Hq]; [congruence|exact Hq].
Qed.

(** The other boxes of a unit form a Python set, and the order in which
    a set is walked is not fixed.  Whether the loop over them returns,
    and the board it leaves, are the same for every order; the snapshots
    recorded on the way are not. *)
Lemma twins_peers_any_order choices ps ps' :
  Permutation ps ps' ->
  forall values t t',
    NoDup ps -> incl ps (keys values) ->
    fst (twins_peers values choices ps t) =
    fst (twins_peers values choices ps' t').
Proof.
  induction 1 as [|x l l' P IH|x y l|l1 l2 l3 P1 IH1 P2 IH2];
    intros values t t' N Hin.
  - reflexivity.
  - inversion N as [|? ? Hx N']; subst. cbn [twins_peers].
    destruct (In_keys_get values x) as [v Hv]; [apply Hin; now left|].
    rewrite (bind_eq _ _ _ _ _ (lookup_eq _ _ _ t Hv)),
            (bind_eq _ _ _ _ _ (lookup_eq _ _ _ t' Hv)).
    destruct (without v choices) as [|a w]; [reflexivity|].
    destruct (assign_value_eq values x (String a w) t) as [t1 Ha].
    destruct (assign_value_eq values x (String a w) t') as [t1' Ha'].
    rewrite (bind_eq _ _ _ _ _ Ha), (bind_eq _ _ _ _ _ Ha').
    apply IH; [exact N'|].
    rewrite (keys_set _ _ _ Hv). intros z Hz. apply Hin. now right.
  - inversion N as [|? ? Hy N']; subst.
    inversion N' as [|? ? Hx N'']; subst.
    assert (Hne : y <> x) by (intros ->; apply Hy; now left).
    destruct (In_keys_get values y) as [vy Hvy]; [apply Hin; now left|].
    destruct (In_keys_get values x) as [vx Hvx];
      [apply Hin; right; now left|].
    cbn [twins_peers].
    rewrite (bind_eq _ _ _ _ _ (lookup_eq _ _ _ t Hvy)),
            (bind_eq _ _ _ _ _ (lookup_eq _ _ _ t' Hvx)).
    destruct (without vy choices) as [|ay wy] eqn:Ey;
      destruct (without vx choices) as [|ax wx] eqn:Ex.
    + reflexivity.
    + destruct (assign_value_eq values x (String ax wx) t') as [t1' Ha'].
      rewrite (bind_eq _ _ _ _ _ Ha').
      assert (G : get (set values x (String ax wx)) y = Some vy)
        by (rewrite <- Hvy; apply get_set_other; congruence).
      rewrite (bind_eq _ _ _ _ _ (lookup_eq _ _ _ t1' G)).
      now rewrite Ey.
    + destruct (assign_value_eq values y (String ay wy) t) as [t1 Ha].
      rewrite (bind_eq _ _ _ _ _ Ha).
      assert (G : get (set values y (String ay wy)) x = Some vx)
        by (rewrite <- Hvx; apply get_set_other; congruence).
      rewrite (bind_eq _ _ _ _ _ (lookup_eq _ _ _ t1 G)).
      now rewrite Ex.
    + destruct (assign_value_eq values y (String ay wy) t) as [t1 Ha].
      destruct (assign_value_eq values x (String ax wx) t') as [t1' Ha'].
      rewrite (bind_eq _ _ _ _ _ Ha), (bind_eq _ _ _ _ _ Ha').
      assert (G : get (set values y (String ay wy)) x = Some vx)
        by (rewrite <- Hvx; apply get_set_other; congruence).
      assert (G' : get (set values x (String ax wx)) y = Some vy)
        by (rewrite <- Hvy; apply get_set_other; congruence).
      rewrite (bind_eq _ _ _ _ _ (lookup_eq _ _ _ t1 G)),
              (bind_eq _ _ _ _ _ (lookup_eq _ _ _ t1' G')).
      rewrite Ex, Ey.
      destruct (assign_value_eq (set values y (String ay wy)) x
                  (String ax wx) t1) as [t2 Hb].
      destruct (assign_value_eq (set values x (String ax wx)) y
                  (String ay wy) t1') as [t2' Hb'].
      rewrite (bind_eq _ _ _ _ _ Hb), (bind_eq _ _ _ _ _ Hb').
      rewrite (set_comm values y x (String ay wy) (String ax wx) Hne);
        [|eapply get_In_keys, Hvy|eapply get_In_keys, Hvx].
      apply appends_fst, appends_twins_peers.
  - rewrite (IH1 values t t N Hin). apply IH2.
    + eapply Permutation_NoDup; eassumption.
    + intros z Hz. apply Hin. eapply Permutation_in; [|exact Hz].
      now symmetry.
Qed.


(** The loop over the peers writes to the peers only. *)
Lemma twins_peers_other choices ps : forall values t v' t',
  twins_peers values choices ps t = (Ok (Continue v'), t') ->
  forall k, ~ In k ps -> get v' k = get values k.
Proof.
  induction ps as [|p ps IH]; intros values t v' t' H k Hk; simpl in H.
  - apply ret_Ok in H. destruct H as [H _]. now inversion H.
  - mstep H as v t1 Hv. apply lookup_Ok in Hv. destruct Hv as [Hv ->].
    destruct (without v choices) as [|a w] eqn:Ew.
    + apply ret_Ok in H. destruct H; discriminate.
    + mstep H as v1 t2 Ha. apply assign_value_Ok in Ha. subst v1.
      rewrite (IH _ _ _ _ H k); [|intros Hin; apply Hk; now right].
      apply get_set_other. intros ->. apply Hk. now left.
Qed.

(** A peer that the pair leaves without a candidate makes the loop
    return, wherever in the walk it stands. *)
Lemma twins_peers_fails choices ps : forall values t p,
  incl ps (keys values) -> NoDup ps -> In p ps ->
  emptied_by values choices p ->
  exists t', twins_peers values choices ps t = (Ok (Return []), t').
Proof.
  induction ps as [|q ps IH]; intros values t p Hin N Hp He; [contradiction|].
  inversion N as [|? ? Hq N']; subst. simpl.
  destruct (In_keys_get values q) as [v Hv]; [apply Hin; now left|].
  rewrite (bind_eq _ _ _ _ _ (lookup_eq _ _ _ t Hv)).
  destruct (without v choices) as [|a w] eqn:Ew.
  - unfold ret. eauto.
  - destruct (assign_value_eq values q (String a w) t) as [t1 Ha].
    rewrite (bind_eq _ _ _ _ _ Ha).
    destruct Hp as [->|Hp].
    + destruct He as (v' & Hv' & Ew'). rewrite Hv in Hv'.
      inversion Hv'; subst. congruence.
    + apply (IH _ t1 p); try assumption.
      * rewrite (keys_set _ _ _ Hv). intros x Hx. apply Hin. now right.
      * destruct He as (v' & Hv' & Ew'). exists v'. split; [|exact Ew'].
        rewrite <- Hv'. apply get_set_other. intros ->. contradiction.
Qed.

Lemma group_boxes_keys values unit : forall ctb t G t',
  group_boxes values ctb unit t = (Ok G, t') -> incl unit (keys values).
Proof.
  induction unit as [|b unit IH]; intros ctb t G t' H; [intros x []|].
  simpl in H. mstep H as v t1 Hv. apply lookup_Ok in Hv.
  destruct Hv as [Hv ->]. intros x [<-|Hx].
  - eapply get_In_keys, Hv.
  - destruct (negb _); eapply IH; eassumption.
Qed.

Lemma fst_pair {A} (m : M A) t a :
  fst (m t) = Ok a -> exists t', m t = (Ok a, t').
Proof. destruct (m t) as [o t']. simpl. intros ->. eauto. Qed.

(** Once the contradiction is met, the units that follow are not looked
    at: whatever they are, the loop has returned. *)
Lemma contradiction_returns values pre unit :
  contradiction_at values pre unit ->
  forall rest t0,
    fst (twins_units values (pre ++ unit :: rest) t0) = Ok (Return []).
Proof.
  intros (v1 & gpre & c & bs & gpost & v2 & Hp & Hg & _ & Hgp & Hc) rest t0.
  rewrite (appends_fst [] t0 (appends_twins_units pre values)) in Hp.
  apply fst_pair in Hp. destruct Hp as [t1 Hp].
  rewrite (appends_fst [] t1 (appends_group_boxes v1 unit [])) in Hg.
  apply fst_pair in Hg. destruct Hg as [t1' Hg].
  rewrite (appends_fst [] t1' (appends_twins_groups unit gpre v1)) in Hgp.
  apply fst_pair in Hgp. destruct Hgp as [t2 Hgp].
  assert (Hgr : exists t', twins_groups v2 unit ((c, bs) :: gpost) t2
                           = (Ok (Return []), t')).
  { cbn [twins_groups].
    destruct Hc as [L|[L (p & Hpu & Hpb & He)]].
    - replace (length bs <? 2)%nat with false
        by (symmetry; apply Nat.ltb_ge; lia).
      replace (2 <? length bs)%nat with true
        by (symmetry; apply Nat.ltb_lt; lia).
      unfold ret. eauto.
    - rewrite L. cbn [Nat.ltb Nat.leb].
      destruct (twins_peers_fails c (set_diff (to_set unit) (to_set bs))
                  v2 t2 p) as [t' Hf].
      + intros x Hx. apply set_diff_In in Hx. destruct Hx as [Hx _].
        rewrite to_set_In in Hx.
        rewrite (evolves_keys (twins_groups_Continue _ _ _ _ Hgp)).
        exact (group_boxes_keys _ _ _ _ _ _ Hg x Hx).
      + apply NoDup_filter, to_set_NoDup.
      + apply set_diff_In. rewrite !to_set_In. now split.
      + exact He.
      + exists t'. now rewrite (bind_eq _ _ _ _ _ Hf). }
  destruct Hgr as [t' Hgr].
  rewrite twins_units_app, Hp. cbn [twins_units].
  unfold twins_unit.
  unfold bind at 1. unfold bind at 1.
  rewrite Hg, twins_groups_app, Hgp, Hgr. reflexivity.
Qed.

